(** * txtSearchPro: the scan-and-aggregate engine of [search.py]

    A shallow embedding of [TextSearchEngine] (search.py) and of the few
    interpreter primitives it calls ([re.escape], [re.finditer] on an
    escaped pattern, [str.strip], the UTF-8 codec, slicing), followed by
    the properties of the engine.

    Conventions.
    - A Python [int] is a [Z]; a Python [str] is the list of its code
      points; a [bytes] object (and the mapped file) is a [list byte].
    - [self] is threaded explicitly: a method that mutates [self.stats]
      takes an [Engine] and returns the new one.
    - The thread pool is linearised: the scan tasks run one after the
      other in submission order, and [as_completed] hands their results
      to the aggregation loop in an order chosen by the environment. *)

From Stdlib Require Import Strings.String Strings.Ascii Strings.Byte.
From Stdlib Require Import Numbers.DecimalString.
From Stdlib Require Import ZArith List Bool Lia Permutation.
Import ListNotations.
Open Scope Z_scope.

(** ** Python strings and bytes *)

Module PyStr.

Definition str := list Z.

Definition of_string (s : string) : str :=
  map (fun a => Z.of_N (N_of_ascii a)) (list_ascii_of_string s).

Definition str_eq_dec : forall a b : str, {a = b} + {a <> b} :=
  list_eq_dec Z.eq_dec.

Definition eqb (a b : str) : bool := if str_eq_dec a b then true else false.

(** Truth value of a string: [if s:] / [if not s:]. *)
Definition truthy (s : str) : bool :=
  match s with [] => false | _ :: _ => true end.

(** [len(l)] *)
Definition len {A} (l : list A) : Z := Z.of_nat (length l).

(** Index adjustment of a slice bound (step 1), as [PySlice_AdjustIndices]. *)
Definition adjust (n i : Z) : Z :=
  if i <? 0 then Z.max 0 (i + n) else Z.min i n.

(** [l[start:stop]] *)
Definition slice {A} (l : list A) (start stop : Z) : list A :=
  let a := adjust (len l) start in
  let b := adjust (len l) stop in
  firstn (Z.to_nat (b - a)) (skipn (Z.to_nat a) l).

(** [l[:stop]] *)
Definition slice_to {A} (l : list A) (stop : Z) : list A := slice l 0 stop.

(** [c.isspace()] for one code point, the table of [_PyUnicode_IsWhitespace]. *)
Definition isspace (c : Z) : bool :=
  ((0x09 <=? c) && (c <=? 0x0D)) || ((0x1C <=? c) && (c <=? 0x20))
  || (c =? 0x85) || (c =? 0xA0) || (c =? 0x1680)
  || ((0x2000 <=? c) && (c <=? 0x200A))
  || (c =? 0x2028) || (c =? 0x2029) || (c =? 0x202F) || (c =? 0x205F)
  || (c =? 0x3000).

Fixpoint lstrip (s : str) : str :=
  match s with
  | [] => []
  | c :: r => if isspace c then lstrip r else s
  end.

Definition rstrip (s : str) : str := rev (lstrip (rev s)).

(** [s.strip()] *)
Definition strip (s : str) : str := rstrip (lstrip s).

End PyStr.

Import PyStr.

(** ** Bytes and the UTF-8 codec *)

Module Utf8.

Definition bval (b : byte) : Z := Z.of_N (Byte.to_N b).

Definition byte_of_Z (z : Z) : byte :=
  match Byte.of_N (Z.to_N z) with Some b => b | None => x00 end.

Definition is_surrogate (c : Z) : bool := (0xD800 <=? c) && (c <=? 0xDFFF).

(** One code point, as the strict encoder writes it; a lone surrogate
    is not encodable. *)
Definition encode_cp (c : Z) : option (list byte) :=
  if c <? 0 then None
  else if c <? 0x80 then Some [byte_of_Z c]
  else if c <? 0x800 then
    Some [byte_of_Z (Z.lor 0xC0 (Z.shiftr c 6));
          byte_of_Z (Z.lor 0x80 (Z.land c 0x3F))]
  else if c <? 0x10000 then
    if is_surrogate c then None
    else
      Some [byte_of_Z (Z.lor 0xE0 (Z.shiftr c 12));
            byte_of_Z (Z.lor 0x80 (Z.land (Z.shiftr c 6) 0x3F));
            byte_of_Z (Z.lor 0x80 (Z.land c 0x3F))]
  else if c <? 0x110000 then
    Some [byte_of_Z (Z.lor 0xF0 (Z.shiftr c 18));
          byte_of_Z (Z.lor 0x80 (Z.land (Z.shiftr c 12) 0x3F));
          byte_of_Z (Z.lor 0x80 (Z.land (Z.shiftr c 6) 0x3F));
          byte_of_Z (Z.lor 0x80 (Z.land c 0x3F))]
  else None.

(** [s.encode('utf-8')]: [inl (c, i)] is the UnicodeEncodeError raised
    for the code point [c] at index [i]. *)
Fixpoint encode_from (s : str) (i : Z) : (Z * Z) + list byte :=
  match s with
  | [] => inr []
  | c :: r =>
    match encode_cp c with
    | None => inl (c, i)
    | Some bs =>
      match encode_from r (i + 1) with
      | inl e => inl e
      | inr rest => inr (bs ++ rest)
      end
    end
  end.

Definition encode (s : str) : (Z * Z) + list byte := encode_from s 0.

Definition REPLACEMENT : Z := 0xFFFD.

Definition is_cont (b : byte) : bool :=
  (0x80 <=? bval b) && (bval b <? 0xC0).

(** [bs.decode('utf-8', errors='replace')]: the decoder of CPython; each
    error (invalid start byte, invalid continuation byte, unexpected end
    of data) yields one U+FFFD and decoding resumes after the bytes the
    error covers. *)
Fixpoint decode_replace (s : list byte) : str :=
  match s with
  | [] => []
  | b1 :: r1 =>
    let ch := bval b1 in
    if ch <? 0x80 then ch :: decode_replace r1
    else if ch <? 0xC2 then REPLACEMENT :: decode_replace r1
    else if ch <? 0xE0 then
      match r1 with
      | [] => [REPLACEMENT]
      | b2 :: r2 =>
        if is_cont b2
        then (Z.shiftl ch 6 + bval b2 - (Z.shiftl 0xC0 6 + 0x80))
               :: decode_replace r2
        else REPLACEMENT :: decode_replace r1
      end
    else if ch <? 0xF0 then
      match r1 with
      | [] => [REPLACEMENT]
      | b2 :: r2 =>
        let ch2 := bval b2 in
        if negb (is_cont b2)
           || (if ch2 <? 0xA0 then ch =? 0xE0 else ch =? 0xED)
        then REPLACEMENT :: decode_replace r1
        else
          match r2 with
          | [] => [REPLACEMENT]
          | b3 :: r3 =>
            if is_cont b3
            then (Z.shiftl ch 12 + Z.shiftl ch2 6 + bval b3
                  - (Z.shiftl 0xE0 12 + Z.shiftl 0x80 6 + 0x80))
                   :: decode_replace r3
            else REPLACEMENT :: decode_replace r2
          end
      end
    else if ch <? 0xF5 then
      match r1 with
      | [] => [REPLACEMENT]
      | b2 :: r2 =>
        let ch2 := bval b2 in
        if negb (is_cont b2)
           || (if ch2 <? 0x90 then ch =? 0xF0 else ch =? 0xF4)
        then REPLACEMENT :: decode_replace r1
        else
          match r2 with
          | [] => [REPLACEMENT]
          | b3 :: r3 =>
            if negb (is_cont b3) then REPLACEMENT :: decode_replace r2
            else
              match r3 with
              | [] => [REPLACEMENT]
              | b4 :: r4 =>
                if is_cont b4
                then (Z.shiftl ch 18 + Z.shiftl ch2 12
                      + Z.shiftl (bval b3) 6 + bval b4
                      - (Z.shiftl 0xF0 18 + Z.shiftl 0x80 12
                         + Z.shiftl 0x80 6 + 0x80))
                       :: decode_replace r4
                else REPLACEMENT :: decode_replace r3
              end
          end
      end
    else REPLACEMENT :: decode_replace r1
  end.

End Utf8.

(** ** The [re] primitives the engine calls *)

Module Re.

Import Utf8.

(** [re.escape] on a [str]: a backslash before each special character. *)
Definition escape_special : list Z :=
  [40; 41; 91; 93; 123; 125; 63; 42; 43; 45; 124; 94; 36; 92; 46; 38;
   126; 35; 32; 9; 10; 13; 11; 12].

Definition is_escape_special (c : Z) : bool :=
  existsb (Z.eqb c) escape_special.

Fixpoint escape (s : str) : str :=
  match s with
  | [] => []
  | c :: r =>
    if is_escape_special c then 92 :: c :: escape r else c :: escape r
  end.

(** The pattern parser, as far as the engine's patterns need it. A byte
    of [SPECIAL_CHARS] is an operator of the pattern language; a
    backslash followed by an ASCII letter or digit is a class, an
    anchor or a group reference; a backslash followed by any other
    byte stands for that byte; every other byte stands for itself. *)
Inductive token :=
| Literal (b : byte)
| Operator (b : byte)
| Category (b : byte).

Definition SPECIAL_CHARS : list Z :=
  [46; 92; 91; 123; 40; 41; 42; 43; 63; 94; 36; 124].

Definition is_special (b : byte) : bool :=
  existsb (Z.eqb (bval b)) SPECIAL_CHARS.

Definition is_alnum (b : byte) : bool :=
  let c := bval b in
  ((48 <=? c) && (c <=? 57)) || ((65 <=? c) && (c <=? 90))
  || ((97 <=? c) && (c <=? 122)).

(** [None]: a pattern ending in a lone backslash ([re.error]). *)
Fixpoint parse (p : list byte) : option (list token) :=
  match p with
  | [] => Some []
  | c :: r =>
    if bval c =? 92 then
      match r with
      | [] => None
      | e :: r' =>
        option_map (cons (if is_alnum e then Category e else Literal e))
                   (parse r')
      end
    else
      option_map (cons (if is_special c then Operator c else Literal c))
                 (parse r)
  end.

(** The bytes of a pattern made of literals only. *)
Fixpoint literals (ts : list token) : option (list byte) :=
  match ts with
  | [] => Some []
  | Literal b :: r => option_map (cons b) (literals r)
  | _ :: _ => None
  end.

Definition literal_pattern (p : list byte) : option (list byte) :=
  match parse p with
  | Some ts => literals ts
  | None => None
  end.

Fixpoint starts_with (pat text : list byte) : bool :=
  match pat, text with
  | [], _ => true
  | _ :: _, [] => false
  | p :: pat', t :: text' => Byte.eqb p t && starts_with pat' text'
  end.

(** A match object: [m.start()] and [m.end()]. *)
Record span := { m_start : Z; m_end : Z }.

(** The scan of [finditer] for a literal pattern: [text] is what is left
    of the subject from offset [pos] on, [skip] the number of bytes still
    covered by the last match. A match at [pos] is reported when no
    earlier match covers [pos]; the scan resumes at its end. *)
Fixpoint scan_literal (pat text : list byte) (pos : Z) (skip : nat)
  : list span :=
  match text with
  | [] =>
    match skip, pat with
    | O, [] => [ {| m_start := pos; m_end := pos |} ]
    | _, _ => []
    end
  | _ :: rest =>
    match skip with
    | S k => scan_literal pat rest (pos + 1) k
    | O =>
      if starts_with pat text
      then {| m_start := pos; m_end := pos + len pat |}
             :: scan_literal pat rest (pos + 1) (Nat.pred (length pat))
      else scan_literal pat rest (pos + 1) O
    end
  end.

(** [re.finditer(pattern, text)], defined on the patterns that denote a
    literal byte sequence; the pattern language proper ([Operator],
    [Category]) is outside this model ([None]). *)
Definition finditer (pattern text : list byte) : option (list span) :=
  match literal_pattern pattern with
  | Some lit => Some (scan_literal lit text 0 O)
  | None => None
  end.

(** [re.sub(cls, repl, s)] for a character class [cls]: every character
    of the class is replaced by [repl]. [filename_class] is the class of
    [save_results]: backslash, slash, star, question mark, colon, double
    quote, less-than, greater-than and vertical bar. *)
Definition filename_class : list Z :=
  [92; 47; 42; 63; 58; 34; 60; 62; 124].

Definition in_class (cls : list Z) (c : Z) : bool := existsb (Z.eqb c) cls.

Definition sub_class (cls : list Z) (repl : str) (s : str) : str :=
  flat_map (fun c => if in_class cls c then repl else [c]) s.

End Re.

(** ** The engine *)

Module Config.

(** [MAX_WORKERS = min(multiprocessing.cpu_count() * 2, 32)] *)
Definition MAX_WORKERS (cpu_count : Z) : Z := Z.min (cpu_count * 2) 32.

End Config.

(** [self.stats] *)
Record Stats := mkStats {
  files_processed : Z;
  matches_found : Z;
  total_size : Z;
  errors : Z
}.

(** The fields of a [TextSearchEngine] that the search reads or writes
    ([cpu_info] is only displayed). *)
Record Engine := mkEngine {
  stats : Stats;
  query : option str
}.

(** An element of the list built by [get_folder_stats]. *)
Record FileInfo := mkFileInfo {
  path : str;
  size : Z
}.

(** An element of [matches]. *)
Record MatchRecord := mkMatch {
  file : str;
  context : str;
  position : Z
}.

(** What [search_file] returns: [(path, matches, error)]. *)
Definition Outcome := (str * list MatchRecord * str)%type.

Definition outcome_path (o : Outcome) : str := fst (fst o).
Definition outcome_matches (o : Outcome) : list MatchRecord := snd (fst o).
Definition outcome_error (o : Outcome) : str := snd o.

(** The exceptions the body of [search_file] can raise, and [str(e)].
    [UnicodeEncodeError c i j]: the code points from index [i] to index
    [j] (excluded) cannot be encoded, [c] being the first of them. *)
Inductive exn :=
| OSError (msg : str)
| ValueError (msg : str)
| TypeError (msg : str)
| UnicodeEncodeError (c : Z) (i : Z) (j : Z)
| ReError (msg : str).

Definition hex_digit (d : Z) : Z := if d <? 10 then 48 + d else 87 + d.

Definition hex4 (c : Z) : str :=
  [hex_digit (Z.land (Z.shiftr c 12) 15); hex_digit (Z.land (Z.shiftr c 8) 15);
   hex_digit (Z.land (Z.shiftr c 4) 15); hex_digit (Z.land c 15)].

Definition decimal (i : Z) : str :=
  of_string (DecimalString.NilZero.string_of_int (Z.to_int i)).

(** The number of surrogates at the head of [s]: the encoder reports the
    whole run of adjacent surrogates as one error. *)
Fixpoint surrogate_run (s : str) : Z :=
  match s with
  | [] => 0
  | c :: r => if Utf8.is_surrogate c then 1 + surrogate_run r else 0
  end.

(** The end of the error that starts at index [i] of [s]. *)
Definition error_end (s : str) (i : Z) : Z :=
  i + Z.max 1 (surrogate_run (skipn (Z.to_nat i) s)).

Definition str_exn (e : exn) : str :=
  match e with
  | OSError msg | ValueError msg | TypeError msg | ReError msg => msg
  | UnicodeEncodeError c i j =>
    if j =? i + 1 then
      of_string "'utf-8' codec can't encode character '\u" ++ hex4 c
      ++ of_string "' in position " ++ decimal i
      ++ of_string ": surrogates not allowed"
    else
      of_string "'utf-8' codec can't encode characters in position "
      ++ decimal i ++ of_string "-" ++ decimal (j - 1)
      ++ of_string ": surrogates not allowed"
  end.

Definition set_errors (self : Engine) (v : Z) : Engine :=
  {| stats := {| files_processed := files_processed (stats self);
                 matches_found := matches_found (stats self);
                 total_size := total_size (stats self);
                 errors := v |};
     query := query self |}.

Definition set_files_processed (self : Engine) (v : Z) : Engine :=
  {| stats := {| files_processed := v;
                 matches_found := matches_found (stats self);
                 total_size := total_size (stats self);
                 errors := errors (stats self) |};
     query := query self |}.

Definition set_matches_found (self : Engine) (v : Z) : Engine :=
  {| stats := {| files_processed := files_processed (stats self);
                 matches_found := v;
                 total_size := total_size (stats self);
                 errors := errors (stats self) |};
     query := query self |}.

Definition set_total_size (self : Engine) (v : Z) : Engine :=
  {| stats := {| files_processed := files_processed (stats self);
                 matches_found := matches_found (stats self);
                 total_size := v;
                 errors := errors (stats self) |};
     query := query self |}.

Definition set_query (self : Engine) (q : str) : Engine :=
  {| stats := stats self; query := Some q |}.

(** [TextSearchEngine.__init__]: the only place where the counters are
    set to zero ([setup_results_dir] prepares the directory and touches
    no field). *)
Definition init : Engine :=
  {| stats := {| files_processed := 0; matches_found := 0;
                 total_size := 0; errors := 0 |};
     query := None |}.

(** The file system as the scanner sees it: [inr mm] when [open] succeeds,
    [mm] being the bytes of the file; [inl msg] when [open] raises, [msg]
    being [str(e)]. *)
Definition FileSystem := str -> str + list byte.

(** The dictionary appended for one match object. *)
Definition match_record (p : str) (mm : list byte) (m : Re.span)
  : MatchRecord :=
  let context :=
    Utf8.decode_replace
      (slice mm (Z.max 0 (Re.m_start m - 50)) (Re.m_end m + 50)) in
  {| file := p; context := strip context; position := Re.m_start m |}.

(** The [try] block of [search_file]: [open], [mmap.mmap] (which refuses
    an empty file), the pattern, and the loop over [re.finditer]. *)
Definition search_file_try (fs : FileSystem) (self : Engine)
  (file_info : FileInfo) : exn + list MatchRecord :=
  match fs (path file_info) with
  | inl msg => inl (OSError msg)
  | inr [] => inl (ValueError (of_string "cannot mmap an empty file"))
  | inr mm =>
    match query self with
    | None =>
      inl (TypeError
             (of_string
                "decoding to str: need a bytes-like object, NoneType found"))
    | Some q =>
      match Utf8.encode (Re.escape q) with
      | inl (c, i) =>
        inl (UnicodeEncodeError c i (error_end (Re.escape q) i))
      | inr pattern =>
        match Re.finditer pattern mm with
        | None => inl (ReError (of_string "bad pattern"))
        | Some ms => inr (map (match_record (path file_info) mm) ms)
        end
      end
    end
  end.

Definition search_file (fs : FileSystem) (self : Engine)
  (file_info : FileInfo) : Engine * Outcome :=
  match search_file_try fs self file_info with
  | inl e =>
    (set_errors self (errors (stats self) + 1),
     (path file_info, [], str_exn e))
  | inr matches => (self, (path file_info, matches, []))
  end.

(** One file name met by [os.walk]: the name, the path that
    [os.path.join(root, file)] gives it, and [os.path.getsize(path)]
    ([None] when it raises, [entry_error] being [str(e)] then). *)
Record WalkEntry := mkEntry {
  entry_name : str;
  entry_path : str;
  entry_size : option Z;
  entry_error : str
}.

(** [c.lower()] on the ASCII letters; no other character lowers to a
    character of [.txt]. *)
Definition ascii_lower (c : Z) : Z :=
  if (65 <=? c) && (c <=? 90) then c + 32 else c.

(** [file.lower().endswith('.txt')] *)
Definition is_txt (name : str) : bool :=
  match rev name with
  | t2 :: x :: t1 :: dot :: _ =>
    (dot =? 46) && (ascii_lower t1 =? 116) && (ascii_lower x =? 120)
    && (ascii_lower t2 =? 116)
  | _ => false
  end.

Definition get_folder_stats (entries : list WalkEntry) (self : Engine)
  : Engine * list FileInfo :=
  let step (acc : list FileInfo * Z) (e : WalkEntry) :=
    if is_txt (entry_name e) then
      match entry_size e with
      | Some sz =>
        (fst acc ++ [ {| path := entry_path e; size := sz |} ], snd acc + sz)
      | None => acc
      end
    else acc in
  let r := fold_left step entries ([], 0) in
  (set_total_size self (snd r), fst r).

(** What the loop of [get_folder_stats] prints: one warning for each
    name that ends in [.txt] and whose size probe raises, with the name
    and [str(e)]. *)
Definition access_warning (e : WalkEntry) : str :=
  [1054; 1096; 1080; 1073; 1082; 1072; 32; 1076; 1086; 1089; 1090; 1091;
   1087; 1072; 32; 1082; 32]
  ++ entry_name e ++ of_string ": " ++ entry_error e.

Definition get_folder_stats_prints (entries : list WalkEntry) : list str :=
  flat_map
    (fun e =>
       if is_txt (entry_name e) then
         match entry_size e with
         | Some _ => []
         | None => [access_warning e]
         end
       else [])
    entries.

(** The report written by [save_results], as the sequence of the texts
    that the [f.write] calls put in the file: the line with the query,
    the line with [len(matches)], and for each match the text with the
    file and the position, then the text with the context (the fixed
    words and the rules of the layout are left out). *)
Inductive chunk :=
| Header (q : str)
| Total (n : Z)
| EntryHead (file : str) (position : Z)
| EntryContext (context : str).

Definition Report := list chunk.

(** What a complete or cut report tells. *)
Definition report_query (rep : Report) : option str :=
  match rep with
  | Header q :: _ => Some q
  | _ => None
  end.

Definition report_total (rep : Report) : option Z :=
  match rep with
  | _ :: Total n :: _ => Some n
  | _ => None
  end.

Fixpoint report_entries (rep : Report) : list MatchRecord :=
  match rep with
  | [] => []
  | EntryHead f p :: EntryContext c :: r =>
    {| file := f; context := c; position := p |} :: report_entries r
  | _ :: r => report_entries r
  end.

(** [Config.RESULTS_DIR]: the report stored under each file name. *)
Definition ResultsDir := str -> option Report.

Definition write_file (rd : ResultsDir) (name : str) (r : Report)
  : ResultsDir :=
  fun n => if PyStr.eqb n name then Some r else rd n.

Definition safe_query (q : str) : str :=
  slice_to (Re.sub_class Re.filename_class (of_string "_") q) 50.

Definition result_file (q : str) : str :=
  of_string "results_" ++ safe_query q ++ of_string ".txt".

(** The file is opened with [encoding='utf-8']: a text is written when
    the strict encoder accepts it. *)
Definition encodable_text (s : str) : bool :=
  match Utf8.encode s with
  | inr _ => true
  | inl _ => false
  end.

Definition chunk_encodable (c : chunk) : bool :=
  match c with
  | Header q => encodable_text q
  | Total _ => true
  | EntryHead f _ => encodable_text f
  | EntryContext c => encodable_text c
  end.

(** The [f.write] calls of [save_results], in order. *)
Definition writes (q : str) (matches : list MatchRecord) : list chunk :=
  Header q :: Total (len matches)
  :: flat_map
       (fun m => [EntryHead (file m) (position m); EntryContext (context m)])
       matches.

(** What reaches the file: the writes before the first one that raises,
    because its text cannot be encoded or because the device fails;
    [fault = Some n] says that the device fails at the write number [n]
    (from 0), [None] that it does not fail. *)
Fixpoint written (fault : option nat) (ws : list chunk) : list chunk :=
  match ws with
  | [] => []
  | c :: r =>
    match fault with
    | Some O => []
    | _ =>
      if chunk_encodable c
      then c :: written (option_map Nat.pred fault) r
      else []
    end
  end.

(** The results directory as [save_results] meets it: whether
    [open(result_file, 'w')] succeeds, and where the device fails. *)
Record Sink := mkSink {
  sink_open : str -> bool;
  sink_fault : str -> option nat
}.

(** When [open] raises, the handler prints and the directory keeps its
    state; when a write raises, the handler prints and the file keeps
    what was written before. With [self.query] unset [re.sub] raises
    before anything is written; [run_search] sets the query before it
    calls [save_results]. *)
Definition save_results (io : Sink) (self : Engine)
  (matches : list MatchRecord) (rd : ResultsDir) : ResultsDir :=
  match matches with
  | [] => rd
  | _ :: _ =>
    match query self with
    | None => rd
    | Some q =>
      if sink_open io (result_file q)
      then write_file rd (result_file q)
             (written (sink_fault io (result_file q)) (writes q matches))
      else rd
    end
  end.

(** The state of the loop over [as_completed]: the engine, [all_matches]
    and the warnings printed so far. *)
Record Loop := mkLoop {
  l_self : Engine;
  l_all_matches : list MatchRecord;
  l_warnings : list str
}.

(** The body of the loop, for one [future.result()]. *)
Definition accept (st : Loop) (o : Outcome) : Loop :=
  let '(_, matches, error) := o in
  let self := set_files_processed (l_self st)
                (files_processed (stats (l_self st)) + 1) in
  let warnings :=
    if truthy error then l_warnings st ++ [error] else l_warnings st in
  match matches with
  | [] =>
    {| l_self := self; l_all_matches := l_all_matches st;
       l_warnings := warnings |}
  | _ :: _ =>
    {| l_self := set_matches_found self
                   (matches_found (stats self) + len matches);
       l_all_matches := l_all_matches st ++ matches;
       l_warnings := warnings |}
  end.

Definition aggregate (self : Engine) (completed : list Outcome) : Loop :=
  fold_left accept completed
    {| l_self := self; l_all_matches := []; l_warnings := [] |}.

(** [executor.submit(self.search_file, file) for file in files]: the
    tasks, run in submission order on the shared engine. *)
Fixpoint submit_all (fs : FileSystem) (self : Engine) (files : list FileInfo)
  : Engine * list Outcome :=
  match files with
  | [] => (self, [])
  | f :: rest =>
    let (self1, o) := search_file fs self f in
    let (self2, os) := submit_all fs self1 rest in
    (self2, o :: os)
  end.

(** What one iteration of the interactive loop gets from outside. *)
Record World := mkWorld {
  folder_line : str;                            (* [input()] at the folder prompt *)
  default_folder : str;
  walk : str -> list WalkEntry;                 (* [os.walk(folder)] *)
  query_line : str;                             (* [input()] at the query prompt *)
  fs : FileSystem;
  as_completed : list Outcome -> list Outcome;  (* completion order *)
  open_ok : str -> bool;                        (* [open(result_file, 'w')] *)
  write_fault : str -> option nat               (* failure of the device *)
}.

Definition sink (w : World) : Sink :=
  {| sink_open := open_ok w; sink_fault := write_fault w |}.

(** The statistics block printed at the end of [run_search]. *)
Record Summary := mkSummary {
  shown_processed : Z;
  shown_files : Z;
  shown_matches : Z;
  shown_errors : Z
}.

Record RunResult := mkRun {
  r_self : Engine;
  r_dir : ResultsDir;
  r_submitted : list str;       (* the paths handed to [executor.submit] *)
  r_warnings : list str;        (* the warnings of the loop over the futures *)
  r_summary : option Summary;   (* [None]: the run returned early *)
  r_access_warnings : list str  (* the warnings of [get_folder_stats] *)
}.

Definition run_search (w : World) (self : Engine) (rd : ResultsDir)
  (folder : str) : RunResult :=
  let access := get_folder_stats_prints (walk w folder) in
  let (self, files) := get_folder_stats (walk w folder) self in
  match files with
  | [] =>
    {| r_self := self; r_dir := rd; r_submitted := []; r_warnings := [];
       r_summary := None; r_access_warnings := access |}
  | _ :: _ =>
    let self := set_query self (strip (query_line w)) in
    if negb (truthy (strip (query_line w))) then
      {| r_self := self; r_dir := rd; r_submitted := []; r_warnings := [];
         r_summary := None; r_access_warnings := access |}
    else
      let (self, futures) := submit_all (fs w) self files in
      let st := aggregate self (as_completed w futures) in
      let self := l_self st in
      let all_matches := l_all_matches st in
      let rd := save_results (sink w) self all_matches rd in
      {| r_self := self; r_dir := rd;
         r_submitted := map path files;
         r_warnings := l_warnings st;
         r_summary :=
           Some {| shown_processed := files_processed (stats self);
                   shown_files := len files;
                   shown_matches := matches_found (stats self);
                   shown_errors := errors (stats self) |};
         r_access_warnings := access |}
  end.

(** The [while True] loop of [main], one [World] per iteration: the same
    engine goes through every iteration. *)
Fixpoint main_loop (iterations : list World) (engine : Engine)
  (rd : ResultsDir) : list RunResult :=
  match iterations with
  | [] => []
  | w :: rest =>
    let folder :=
      if truthy (strip (folder_line w)) then strip (folder_line w)
      else default_folder w in
    let r := run_search w engine rd folder in
    r :: main_loop rest (r_self r) (r_dir r)
  end.

(** [main]: [engine = TextSearchEngine()] once, then the loop. *)
Definition main (iterations : list World) (rd : ResultsDir)
  : list RunResult :=
  main_loop iterations init rd.

(** * Vocabulary of the properties *)

(** [occurs_at pat text p]: the bytes [pat] stand in [text] at offset [p]. *)
Definition occurs_at (pat text : list byte) (p : Z) : Prop :=
  exists pre post, text = pre ++ pat ++ post /\ len pre = p.

(** A family of occurrences of [pat] in [text], no two of which overlap. *)
Definition disjoint_occurrences (pat text : list byte) (ps : list Z) : Prop :=
  NoDup ps /\ Forall (occurs_at pat text) ps
  /\ forall p p', In p ps -> In p' ps -> p < p' -> p + len pat <= p'.

(** [text] contains exactly [k] non-overlapping occurrences of [pat]: some
    family of non-overlapping occurrences has [k] members and none has
    more. *)
Definition contains_exactly (pat text : list byte) (k : Z) : Prop :=
  (exists ps, disjoint_occurrences pat text ps /\ len ps = k)
  /\ (forall ps, disjoint_occurrences pat text ps -> len ps <= k).

(** [spaced_from n lo ps]: [ps] ascends from [lo] on, each element at
    least [n] after the previous one. *)
Fixpoint spaced_from (n lo : Z) (ps : list Z) : Prop :=
  match ps with
  | [] => True
  | p :: r => lo <= p /\ spaced_from n (p + n) r
  end.

(** A byte that the pattern parser reads as itself. *)
Definition plain (b : byte) : bool :=
  negb (Utf8.bval b =? 92) && negb (Re.is_special b).

(** A Unicode scalar value: a code point that is not a surrogate. *)
Definition scalar (c : Z) : Prop :=
  0 <= c <= 0x10FFFF /\ ~ (0xD800 <= c <= 0xDFFF).

(** The whitespace of Unicode, as [str.strip] understands it: the
    characters of category Zs and of bidirectional type WS, B or S. *)
Definition unicode_whitespace : list Z :=
  [9; 10; 11; 12; 13; 28; 29; 30; 31; 32; 133; 160; 5760;
   8192; 8193; 8194; 8195; 8196; 8197; 8198; 8199; 8200; 8201; 8202;
   8232; 8233; 8239; 8287; 12288].

Definition whitespace (c : Z) : Prop := In c unicode_whitespace.

Definition no_whitespace_first (t : str) : Prop :=
  match t with
  | [] => True
  | c :: _ => ~ whitespace c
  end.

(** [t] is [s] with the whitespace taken off its two ends, and only
    that. *)
Definition stripped_of_whitespace (s t : str) : Prop :=
  exists l r,
    s = l ++ t ++ r
    /\ Forall whitespace l /\ Forall whitespace r
    /\ no_whitespace_first t /\ no_whitespace_first (rev t).

(** The UTF-8 form of a scalar value, by the arithmetic of the
    standard. *)
Definition utf8_of (c : Z) : list Z :=
  if c <? 128 then [c]
  else if c <? 2048 then [192 + c / 64; 128 + c mod 64]
  else if c <? 65536 then
    [224 + c / 4096; 128 + (c / 64) mod 64; 128 + c mod 64]
  else
    [240 + c / 262144; 128 + (c / 4096) mod 64; 128 + (c / 64) mod 64;
     128 + c mod 64].

Definition byte_values (bs : list byte) : list Z :=
  map (fun b => Z.of_N (Byte.to_N b)) bs.

(** [bs] is the encoding of the scalar value [c]. *)
Definition encodes (c : Z) (bs : list byte) : Prop :=
  scalar c /\ byte_values bs = utf8_of c.

(** No character starts at the head of [s]. *)
Definition ill_formed (s : list byte) : Prop :=
  forall c bs rest, encodes c bs -> s <> bs ++ rest.

(** [p] begins the encoding of a character without being all of it. *)
Definition incomplete (p : list byte) : Prop :=
  exists c bs tail, encodes c bs /\ bs = p ++ tail /\ tail <> [].

(** The bytes that one U+FFFD stands for at an ill-formed place: the
    longest beginning of a character found there, or a single byte when
    that byte begins no character. *)
Definition replaced_stretch (bad rest : list byte) : Prop :=
  bad <> [] /\ ill_formed (bad ++ rest)
  /\ ((incomplete bad
       /\ match rest with
          | [] => True
          | b :: _ => ~ incomplete (bad ++ [b])
          end)
      \/ (exists b, bad = [b] /\ ~ incomplete [b])).

(** Decoding with replacement: every well-formed character is decoded,
    every ill-formed stretch gives one U+FFFD, and no byte is dropped. *)
Inductive decodes_with_replacement : list byte -> str -> Prop :=
| dr_end : decodes_with_replacement [] []
| dr_char (c : Z) (bs rest : list byte) (t : str) :
    encodes c bs -> decodes_with_replacement rest t ->
    decodes_with_replacement (bs ++ rest) (c :: t)
| dr_replace (bad rest : list byte) (t : str) :
    replaced_stretch bad rest -> decodes_with_replacement rest t ->
    decodes_with_replacement (bad ++ rest) (65533 :: t).

(** The well-formed byte sequences of UTF-8, as values. *)
Definition continuation (v : Z) : Prop := 128 <= v <= 191.

Definition well_formed_values (l : list Z) : Prop :=
  match l with
  | [v] => 0 <= v <= 127
  | [v1; v2] => 194 <= v1 <= 223 /\ continuation v2
  | [v1; v2; v3] =>
    224 <= v1 <= 239 /\ continuation v2 /\ continuation v3
    /\ (v1 = 224 -> 160 <= v2) /\ (v1 = 237 -> v2 <= 159)
  | [v1; v2; v3; v4] =>
    240 <= v1 <= 244 /\ continuation v2 /\ continuation v3
    /\ continuation v4
    /\ (v1 = 240 -> 144 <= v2) /\ (v1 = 244 -> v2 <= 143)
  | _ => False
  end.

(** The scalar value that a well-formed sequence of values stands for. *)
Definition scalar_of_values (l : list Z) : Z :=
  match l with
  | [v] => v
  | [v1; v2] => (v1 - 192) * 64 + (v2 - 128)
  | [v1; v2; v3] => (v1 - 224) * 4096 + (v2 - 128) * 64 + (v3 - 128)
  | [v1; v2; v3; v4] =>
    (v1 - 240) * 262144 + (v2 - 128) * 4096 + (v3 - 128) * 64 + (v4 - 128)
  | _ => 0
  end.

(** [trimmed s t]: [t] is [s] without its leading and trailing
    whitespace. *)
Definition starts_clean (t : str) : Prop :=
  match t with
  | [] => True
  | c :: _ => isspace c = false
  end.

Definition trimmed (s t : str) : Prop :=
  exists l r,
    s = l ++ t ++ r
    /\ Forall (fun c => isspace c = true) l
    /\ Forall (fun c => isspace c = true) r
    /\ starts_clean t /\ starts_clean (rev t).

(** ** The scenario of the specification: [a.txt] holds "foo bar foo",
    [b.txt] holds "nothing here", [c.txt] cannot be opened. *)

Definition bytes (s : string) : list byte := list_byte_of_string s.

Definition demo_fs : FileSystem :=
  fun p =>
    if PyStr.eqb p (of_string "a.txt") then inr (bytes "foo bar foo")
    else if PyStr.eqb p (of_string "b.txt") then inr (bytes "nothing here")
    else inl (of_string "[Errno 13] Permission denied: 'c.txt'").

Definition demo_a : FileInfo := {| path := of_string "a.txt"; size := 11 |}.
Definition demo_b : FileInfo := {| path := of_string "b.txt"; size := 12 |}.
Definition demo_c : FileInfo := {| path := of_string "c.txt"; size := 5 |}.

Definition demo_engine : Engine := set_query init (of_string "foo").

Definition demo_entries : list WalkEntry :=
  [ {| entry_name := of_string "a.txt"; entry_path := of_string "a.txt";
       entry_size := Some 11; entry_error := [] |};
    {| entry_name := of_string "b.txt"; entry_path := of_string "b.txt";
       entry_size := Some 12; entry_error := [] |};
    {| entry_name := of_string "c.txt"; entry_path := of_string "c.txt";
       entry_size := Some 5; entry_error := [] |};
    {| entry_name := of_string "notes.md"; entry_path := of_string "notes.md";
       entry_size := Some 7; entry_error := [] |} ].

(** The scenario with [line] typed at the query prompt; the futures
    complete in the reverse of the submission order. *)
Definition demo_world_with (line : str) : World :=
  {| folder_line := [];
     default_folder := of_string "db";
     walk := fun _ => demo_entries;
     query_line := line;
     fs := demo_fs;
     as_completed := @rev Outcome;
     open_ok := fun _ => true;
     write_fault := fun _ => None |}.

Definition demo_world : World := demo_world_with (of_string " foo ").

Definition empty_dir : ResultsDir := fun _ => None.

(** ** Vocabulary of the aggregation *)

(** The sum of the match counts of a list of outcomes. *)
Definition sum_matches (os : list Outcome) : Z :=
  fold_right Z.add 0 (map (fun o => len (outcome_matches o)) os).

(** Whether the scan of a target raises, that is, ends in a failure
    outcome. *)
Definition scan_fails (fs : FileSystem) (self : Engine) (f : FileInfo)
  : bool :=
  match search_file_try fs self f with
  | inl _ => true
  | inr _ => false
  end.

Definition failures (fs : FileSystem) (self : Engine) (files : list FileInfo)
  : Z :=
  len (filter (scan_fails fs self) files).

(** The outcomes of the targets, in submission order. *)
Definition outcomes (fs : FileSystem) (self : Engine) (files : list FileInfo)
  : list Outcome :=
  map (fun f => snd (search_file fs self f)) files.

(** [as_completed] yields every future once, in some order. *)
Definition fair (w : World) : Prop :=
  forall os, Permutation os (as_completed w os).

(** The records of one file inside a collection of matches. *)
Definition of_file (p : str) (ms : list MatchRecord) : list MatchRecord :=
  filter (fun r => PyStr.eqb (file r) p) ms.

(** An outcome as [search_file] builds it: its records carry its path. *)
Definition well_formed (o : Outcome) : Prop :=
  Forall (fun r => file r = outcome_path o) (outcome_matches o).

(** The targets and the engine of a run, once the folder is listed and
    the query is read. *)
Definition run_files (w : World) (self : Engine) (folder : str)
  : list FileInfo :=
  snd (get_folder_stats (walk w folder) self).

Definition run_engine (w : World) (self : Engine) (folder : str) : Engine :=
  set_query (fst (get_folder_stats (walk w folder) self))
            (strip (query_line w)).

(** ** File names *)

(** The nine characters that must not stand in a file name: double
    quote, star, slash, colon, less-than, greater-than, question mark,
    backslash and vertical bar. *)
Definition reserved_characters : list Z :=
  [34; 42; 47; 58; 60; 62; 63; 92; 124].

Definition is_reserved (c : Z) : bool :=
  existsb (Z.eqb c) reserved_characters.

(** What the identifier shows for the character [c] of the query: an
    underscore for a reserved character, [c] itself otherwise. *)
Definition sanitize_char (c : Z) : Z :=
  if is_reserved c then 95 else c.

(** Every code point of the string has a UTF-8 encoding. *)
Definition encodable (s : str) : Prop :=
  Forall (fun c => Utf8.encode_cp c <> None) s.

(** A name that a POSIX file system accepts for a file: not empty, not
    [.] or [..], without NUL and without slash, and at most 255 bytes
    long once encoded. *)
Definition posix_name_ok (name : str) : bool :=
  match Utf8.encode name with
  | inr bs =>
    truthy name
    && negb (PyStr.eqb name [46]) && negb (PyStr.eqb name [46; 46])
    && negb (existsb (Z.eqb 0) name) && negb (existsb (Z.eqb 47) name)
    && (len bs <=? 255)
  | inl _ => false
  end.

Definition utf16_units (name : str) : Z :=
  fold_right (fun c n => (if c <? 0x10000 then 1 else 2) + n) 0 name.

(** A name that Windows accepts for a file: not empty, no control
    character, none of the nine reserved characters, at most 255 UTF-16
    units, and no space or dot at the end. (The reserved device names
    are left out: no name that begins with [results_] is one.) *)
Definition windows_name_ok (name : str) : bool :=
  truthy name
  && forallb (fun c => (32 <=? c) && negb (is_reserved c)) name
  && (utf16_units name <=? 255)
  && match rev name with
     | c :: _ => negb (c =? 32) && negb (c =? 46)
     | [] => false
     end.

(** ** Vocabulary of the further properties *)

(** The targets that [get_folder_stats] keeps: in the order of the walk,
    the entries whose name ends in [.txt] and whose size could be read. *)
Definition catalog (entries : list WalkEntry) : list FileInfo :=
  flat_map
    (fun e =>
       if is_txt (entry_name e) then
         match entry_size e with
         | Some sz => [ {| path := entry_path e; size := sz |} ]
         | None => []
         end
       else [])
    entries.

Definition sum_sizes (files : list FileInfo) : Z :=
  fold_right Z.add 0 (map size files).

(** The number of scan tasks a session submitted, run after run. *)
Definition submitted_tasks (rs : list RunResult) : Z :=
  fold_right Z.add 0 (map (fun r => len (r_submitted r)) rs).

(** The engine a session ends with. *)
Definition final_engine (rs : list RunResult) (start : Engine) : Engine :=
  last (map r_self rs) start.

(** One round of [Utf8.decode_replace], the decoding of what follows
    being left to [rec]. *)
Definition decode_body (rec : list byte -> str) (s : list byte) : str :=
  match s with
  | [] => []
  | b1 :: r1 =>
    let ch := Utf8.bval b1 in
    if ch <? 0x80 then ch :: rec r1
    else if ch <? 0xC2 then Utf8.REPLACEMENT :: rec r1
    else if ch <? 0xE0 then
      match r1 with
      | [] => [Utf8.REPLACEMENT]
      | b2 :: r2 =>
        if Utf8.is_cont b2
        then (Z.shiftl ch 6 + Utf8.bval b2 - (Z.shiftl 0xC0 6 + 0x80))
               :: rec r2
        else Utf8.REPLACEMENT :: rec r1
      end
    else if ch <? 0xF0 then
      match r1 with
      | [] => [Utf8.REPLACEMENT]
      | b2 :: r2 =>
        let ch2 := Utf8.bval b2 in
        if negb (Utf8.is_cont b2)
           || (if ch2 <? 0xA0 then ch =? 0xE0 else ch =? 0xED)
        then Utf8.REPLACEMENT :: rec r1
        else
          match r2 with
          | [] => [Utf8.REPLACEMENT]
          | b3 :: r3 =>
            if Utf8.is_cont b3
            then (Z.shiftl ch 12 + Z.shiftl ch2 6 + Utf8.bval b3
                  - (Z.shiftl 0xE0 12 + Z.shiftl 0x80 6 + 0x80))
                   :: rec r3
            else Utf8.REPLACEMENT :: rec r2
          end
      end
    else if ch <? 0xF5 then
      match r1 with
      | [] => [Utf8.REPLACEMENT]
      | b2 :: r2 =>
        let ch2 := Utf8.bval b2 in
        if negb (Utf8.is_cont b2)
           || (if ch2 <? 0x90 then ch =? 0xF0 else ch =? 0xF4)
        then Utf8.REPLACEMENT :: rec r1
        else
          match r2 with
          | [] => [Utf8.REPLACEMENT]
          | b3 :: r3 =>
            if negb (Utf8.is_cont b3) then Utf8.REPLACEMENT :: rec r2
            else
              match r3 with
              | [] => [Utf8.REPLACEMENT]
              | b4 :: r4 =>
                if Utf8.is_cont b4
                then (Z.shiftl ch 18 + Z.shiftl ch2 12
                      + Z.shiftl (Utf8.bval b3) 6 + Utf8.bval b4
                      - (Z.shiftl 0xF0 18 + Z.shiftl 0x80 12
                         + Z.shiftl 0x80 6 + 0x80))
                       :: rec r4
                else Utf8.REPLACEMENT :: rec r3
              end
          end
      end
    else Utf8.REPLACEMENT :: rec r1
  end.

(** A place where a character can start: the end of the bytes, or a byte
    that is not a continuation byte. *)
Definition boundary (z : list byte) : Prop :=
  match z with
  | [] => True
  | b :: _ => Utf8.is_cont b = false
  end.

(** The same iteration with the futures completing in another order. *)
Definition with_completion (w : World)
  (order : list Outcome -> list Outcome) : World :=
  {| folder_line := folder_line w;
     default_folder := default_folder w;
     walk := walk w;
     query_line := query_line w;
     fs := fs w;
     as_completed := order;
     open_ok := open_ok w;
     write_fault := write_fault w |}.

(** Two states of one file of the results directory with the same
    heading: both absent, or both present with the same query line and
    the same total. *)
Definition same_heading (a b : option Report) : Prop :=
  match a, b with
  | None, None => True
  | Some x, Some y =>
    report_query x = report_query y /\ report_total x = report_total y
  | _, _ => False
  end.

(** Two states of a file of the results directory that tell the same:
    both absent, or two reports with the same query, the same total and
    the same matches up to their order. *)
Definition same_report (a b : option Report) : Prop :=
  match a, b with
  | None, None => True
  | Some x, Some y =>
    report_query x = report_query y /\ report_total x = report_total y
    /\ Permutation (report_entries x) (report_entries y)
  | _, _ => False
  end.

(** The scenario in a folder where nothing ends in [.txt], and with
    [empty.txt], a file without bytes, as the only target. *)
Definition bare_world : World :=
  {| folder_line := [];
     default_folder := of_string "db";
     walk := fun _ =>
       [ {| entry_name := of_string "notes.md";
            entry_path := of_string "notes.md"; entry_size := Some 7;
            entry_error := [] |} ];
     query_line := of_string "foo";
     fs := demo_fs;
     as_completed := @rev Outcome;
     open_ok := fun _ => true;
     write_fault := fun _ => None |}.

Definition empty_file_world : World :=
  {| folder_line := [];
     default_folder := of_string "db";
     walk := fun _ =>
       [ {| entry_name := of_string "empty.txt";
            entry_path := of_string "empty.txt"; entry_size := Some 0;
            entry_error := [] |} ];
     query_line := of_string "foo";
     fs := fun _ => inr [];
     as_completed := @rev Outcome;
     open_ok := fun _ => true;
     write_fault := fun _ => None |}.

(** A folder with [a.txt], with a file whose name holds a lone surrogate
    (a name that the file system gave in bytes that are not UTF-8), and
    with [d.txt], whose size cannot be read; every file that opens holds
    [foo]. The futures complete in submission order. *)
Definition surrogate_world : World :=
  {| folder_line := [];
     default_folder := of_string "db";
     walk := fun _ =>
       [ {| entry_name := of_string "a.txt";
            entry_path := of_string "a.txt"; entry_size := Some 3;
            entry_error := [] |};
         {| entry_name := 0xDC80 :: of_string ".txt";
            entry_path := 0xDC80 :: of_string ".txt"; entry_size := Some 3;
            entry_error := [] |};
         {| entry_name := of_string "d.txt";
            entry_path := of_string "d.txt"; entry_size := None;
            entry_error := of_string "[Errno 13] Permission denied: 'd.txt'" |} ];
     query_line := of_string "foo";
     fs := fun _ => inr (bytes "foo");
     as_completed := fun os => os;
     open_ok := fun _ => true;
     write_fault := fun _ => None |}.

(** The stored query is unset, or a text without whitespace at its
    ends. *)
Definition query_stripped (self : Engine) : Prop :=
  match query self with
  | None => True
  | Some q => starts_clean q /\ starts_clean (rev q)
  end.

(** * Properties *)

(** ** Lists, lengths and slices *)

Lemma len_nonneg {A} (l : list A) : 0 <= len l.
Proof. unfold len. lia. Qed.

Lemma len_app {A} (l l' : list A) : len (l ++ l') = len l + len l'.
Proof. unfold len. rewrite length_app. lia. Qed.

Lemma len_cons {A} (a : A) (l : list A) : len (a :: l) = 1 + len l.
Proof. unfold len. simpl length. lia. Qed.

Lemma len_nil {A} : len (@nil A) = 0.
Proof. reflexivity. Qed.

Lemma len_map {A B} (f : A -> B) (l : list A) : len (map f l) = len l.
Proof. unfold len. now rewrite length_map. Qed.

Lemma at_most_one {A} (l : list A) :
  NoDup l -> (forall x y, In x l -> In y l -> x = y) -> (length l <= 1)%nat.
Proof.
  intros Hnd Heq. destruct l as [|a [|b l]]; simpl; try lia.
  exfalso. inversion Hnd as [|? ? Hnotin _]; subst.
  apply Hnotin. rewrite (Heq a b); simpl; auto.
Qed.

(** A slice with bounds inside the list is the plain window. *)
Lemma slice_window {A} (l : list A) (a b : Z) :
  0 <= a <= b ->
  slice l a b
  = firstn (Z.to_nat (Z.min b (len l) - Z.min a (len l)))
           (skipn (Z.to_nat (Z.min a (len l))) l).
Proof.
  intros H. unfold slice, adjust.
  destruct (a <? 0) eqn:Ea; [apply Z.ltb_lt in Ea; lia|].
  destruct (b <? 0) eqn:Eb; [apply Z.ltb_lt in Eb; lia|].
  reflexivity.
Qed.

(** ** The literal scan *)

Section LiteralScan.

Import Re.

Variable pat : list byte.

Lemma starts_with_firstn (text : list byte) :
  starts_with pat text = true <-> firstn (length pat) text = pat.
Proof.
  revert text. induction pat as [|p pat' IH]; intros text.
  - simpl. destruct text; split; auto.
  - destruct text as [|t text']; simpl.
    + split; discriminate.
    + rewrite andb_true_iff, IH. split.
      * intros [Hb Hf]. apply Byte.byte_dec_bl in Hb. now subst; rewrite Hf.
      * intros Hf. injection Hf as -> Hf. split; auto.
        now apply Byte.byte_dec_lb.
Qed.

Lemma starts_with_app (text : list byte) : starts_with pat (pat ++ text) = true.
Proof.
  apply starts_with_firstn.
  rewrite firstn_app, Nat.sub_diag, firstn_all. simpl. apply app_nil_r.
Qed.

Lemma starts_with_length (text : list byte) :
  starts_with pat text = true -> (length pat <= length text)%nat.
Proof.
  intros H. apply starts_with_firstn in H.
  rewrite <- H at 1. rewrite length_firstn. lia.
Qed.

(** Every reported match is an occurrence that starts after the part
    still covered by the previous match, and lies inside the text. *)
Lemma scan_sound (text : list byte) :
  forall pos skip s,
    In s (scan_literal pat text pos skip) ->
    exists d : nat,
      m_start s = pos + Z.of_nat d /\ (skip <= d)%nat
      /\ (d + length pat <= length text)%nat
      /\ starts_with pat (skipn d text) = true
      /\ m_end s = m_start s + len pat.
Proof.
  induction text as [|b rest IH]; intros pos skip s Hin.
  - destruct skip, pat; simpl in Hin; try contradiction.
    destruct Hin as [<-|[]]. exists 0%nat. simpl. unfold len. simpl.
    repeat split; lia.
  - destruct skip as [|k].
    + simpl in Hin.
      destruct (starts_with pat (b :: rest)) eqn:E.
      * destruct Hin as [<-|Hin].
        -- exists 0%nat. simpl m_start. simpl m_end.
           pose proof (starts_with_length _ E).
           repeat split; auto; lia.
        -- destruct (IH _ _ _ Hin) as (d & H1 & H2 & H3 & H4 & H5).
           exists (S d). simpl length. simpl skipn.
           repeat split; auto; lia.
      * destruct (IH _ _ _ Hin) as (d & H1 & H2 & H3 & H4 & H5).
        exists (S d). simpl length. simpl skipn.
        repeat split; auto; lia.
    + simpl in Hin.
      destruct (IH _ _ _ Hin) as (d & H1 & H2 & H3 & H4 & H5).
      exists (S d). simpl length. simpl skipn.
      repeat split; auto; lia.
Qed.

Lemma spaced_from_weaken n lo lo' ps :
  lo' <= lo -> spaced_from n lo ps -> spaced_from n lo' ps.
Proof. destruct ps; simpl; intuition lia. Qed.

Lemma spaced_from_In n lo ps p :
  0 <= n -> spaced_from n lo ps -> In p ps -> lo <= p.
Proof.
  intros Hn. revert lo. induction ps as [|a r IH]; intros lo H Hin.
  - contradiction.
  - destruct H as [Ha Hr]. destruct Hin as [->|Hin]; auto.
    specialize (IH _ Hr Hin). lia.
Qed.

Lemma scan_spaced (text : list byte) :
  forall pos skip,
    spaced_from (len pat) (pos + Z.of_nat skip)
                (map m_start (scan_literal pat text pos skip)).
Proof.
  induction text as [|b rest IH]; intros pos skip.
  - destruct skip, pat; simpl; auto. split; auto. lia.
  - destruct skip as [|k]; simpl scan_literal.
    + destruct (starts_with pat (b :: rest)).
      * simpl. split; [lia|].
        eapply spaced_from_weaken; [|apply IH]. unfold len. lia.
      * eapply spaced_from_weaken; [|apply IH]. lia.
    + eapply spaced_from_weaken; [|apply IH]. lia.
Qed.

(** The scan finds as many occurrences as any family of occurrences
    that do not overlap. *)
Lemma scan_maximal (text : list byte) :
  pat <> [] ->
  forall pos skip ps,
    NoDup ps ->
    (forall p, In p ps ->
       exists d : nat, p = pos + Z.of_nat d /\ (skip <= d)%nat
                       /\ starts_with pat (skipn d text) = true) ->
    (forall p p', In p ps -> In p' ps -> p < p' -> p + len pat <= p') ->
    (length ps <= length (scan_literal pat text pos skip))%nat.
Proof.
  intros Hne. assert (Hlen : (1 <= length pat)%nat).
  { destruct pat; [congruence | simpl; lia]. }
  induction text as [|b rest IH]; intros pos skip ps Hnd Hocc Hdis.
  - destruct ps as [|p ps]; [simpl; lia|]. exfalso.
    destruct (Hocc p (or_introl eq_refl)) as (d & _ & _ & Hs).
    destruct d; simpl in Hs; destruct pat; try congruence; discriminate.
  - destruct skip as [|k]; simpl scan_literal.
    + destruct (starts_with pat (b :: rest)) eqn:E.
      * set (near := fun p => p <? pos + len pat).
        rewrite <- (filter_length near ps). simpl length.
        assert (H1 : (length (filter near ps) <= 1)%nat).
        { apply at_most_one; [now apply NoDup_filter|].
          intros x y Hx Hy.
          apply filter_In in Hx as [Hx Hx']. apply filter_In in Hy as [Hy Hy'].
          unfold near in *. apply Z.ltb_lt in Hx', Hy'.
          destruct (Hocc _ Hx) as (dx & -> & _). destruct (Hocc _ Hy) as (dy & -> & _).
          destruct (Z.lt_trichotomy (pos + Z.of_nat dx) (pos + Z.of_nat dy))
            as [Hlt|[Heq|Hgt]]; auto.
          - specialize (Hdis _ _ Hx Hy Hlt). lia.
          - specialize (Hdis _ _ Hy Hx Hgt). lia. }
        assert (H2 : (length (filter (fun x => negb (near x)) ps)
                      <= length (scan_literal pat rest (pos + 1)
                                   (Nat.pred (length pat))))%nat).
        { apply IH.
          - now apply NoDup_filter.
          - intros p Hp. apply filter_In in Hp as [Hp Hp'].
            unfold near in Hp'. apply negb_true_iff, Z.ltb_ge in Hp'.
            destruct (Hocc _ Hp) as (d & -> & _ & Hs).
            unfold len in Hp'. destruct d as [|d]; [lia|].
            exists d. simpl in Hs. repeat split; auto; lia.
          - intros p p' Hp Hp'. apply filter_In in Hp as [Hp _].
            apply filter_In in Hp' as [Hp' _]. now apply Hdis. }
        lia.
      * apply IH; auto.
        intros p Hp. destruct (Hocc _ Hp) as (d & -> & _ & Hs).
        destruct d as [|d]; [simpl in Hs; congruence|].
        exists d. simpl in Hs. repeat split; auto; lia.
    + apply IH; auto.
      intros p Hp. destruct (Hocc _ Hp) as (d & -> & Hd & Hs).
      destruct d as [|d]; [lia|].
      exists d. simpl in Hs. repeat split; auto; lia.
Qed.

End LiteralScan.

(** ** Bytes of the UTF-8 encoder *)

Lemma range_check (f : Z -> bool) (n : nat) :
  forallb f (map Z.of_nat (seq 0 n)) = true ->
  forall z, 0 <= z < Z.of_nat n -> f z = true.
Proof.
  intros H z Hz. rewrite forallb_forall in H. apply H.
  apply in_map_iff. exists (Z.to_nat z). split; [lia|].
  apply in_seq. lia.
Qed.

Lemma bval_range (b : byte) : 0 <= Utf8.bval b < 256.
Proof.
  unfold Utf8.bval. pose proof (Byte.to_N_bounded b). lia.
Qed.

Lemma bval_byte_of_Z (z : Z) : 0 <= z < 256 -> Utf8.bval (Utf8.byte_of_Z z) = z.
Proof.
  intros Hz. apply Z.eqb_eq.
  apply (range_check (fun z => Utf8.bval (Utf8.byte_of_Z z) =? z) 256);
    [vm_compute; reflexivity | lia].
Qed.

Lemma land_63_range (y : Z) : 0 <= Z.land y 0x3F < 64.
Proof.
  change 0x3F with (Z.ones 6). rewrite Z.land_ones by lia.
  apply Z.mod_pos_bound. reflexivity.
Qed.

Lemma shiftr_range (c n hi : Z) :
  0 <= n -> 0 <= c < hi * 2 ^ n -> 0 <= Z.shiftr c n < hi.
Proof.
  intros Hn Hc. rewrite Z.shiftr_div_pow2 by lia.
  assert (0 < 2 ^ n) by (apply Z.pow_pos_nonneg; lia).
  split.
  - apply Z.div_pos; lia.
  - apply Z.div_lt_upper_bound; lia.
Qed.

(** Tagging a small payload with a UTF-8 marker gives a byte above 0x7F. *)
Lemma lor_marker (K : Z) (n : nat) :
  forallb (fun x => (0x80 <=? Z.lor K x) && (Z.lor K x <? 256))
          (map Z.of_nat (seq 0 n)) = true ->
  forall x, 0 <= x < Z.of_nat n -> 0x80 <= Z.lor K x < 256.
Proof.
  intros H x Hx. pose proof (range_check _ n H x Hx) as E. simpl in E.
  apply andb_true_iff in E as [E1 E2].
  apply Z.leb_le in E1. apply Z.ltb_lt in E2. lia.
Qed.

#[local] Opaque Z.lor Z.land Z.shiftr Z.shiftl.

(** The bytes of a code point above 0x7F are all above 0x7F. *)
Lemma encode_cp_high (c : Z) (bs : list byte) :
  0x80 <= c -> Utf8.encode_cp c = Some bs ->
  Forall (fun b => 0x80 <= Utf8.bval b) bs /\ (2 <= length bs <= 4)%nat.
Proof.
  intros Hc. unfold Utf8.encode_cp.
  destruct (c <? 0) eqn:E0; [discriminate|].
  destruct (c <? 0x80) eqn:E1; [apply Z.ltb_lt in E1; lia|].
  assert (Hb : forall K n x,
             forallb (fun x => (128 <=? Z.lor K x) && (Z.lor K x <? 256))
                     (map Z.of_nat (seq 0 n)) = true ->
             0 <= x < Z.of_nat n ->
             0x80 <= Utf8.bval (Utf8.byte_of_Z (Z.lor K x))).
  { intros K n x H Hx. pose proof (lor_marker K n H x Hx).
    rewrite bval_byte_of_Z; lia. }
  assert (Hlow : forall y, 0x80 <= Utf8.bval (Utf8.byte_of_Z (Z.lor 0x80 (Z.land y 0x3F)))).
  { intros y. apply (Hb 0x80 64%nat); [reflexivity|].
    pose proof (land_63_range y). lia. }
  destruct (c <? 0x800) eqn:E2.
  { apply Z.ltb_lt in E2. intros [= <-]. split; [|simpl; lia].
    repeat constructor; auto.
    apply (Hb 0xC0 32%nat); [reflexivity|].
    pose proof (shiftr_range c 6 32). lia. }
  destruct (c <? 0x10000) eqn:E3.
  { apply Z.ltb_lt in E3. destruct (Utf8.is_surrogate c); [discriminate|].
    intros [= <-]. split; [|simpl; lia].
    repeat constructor; auto.
    apply (Hb 0xE0 16%nat); [reflexivity|].
    pose proof (shiftr_range c 12 16). lia. }
  destruct (c <? 0x110000) eqn:E4; [|discriminate].
  apply Z.ltb_lt in E4. intros [= <-]. split; [|simpl; lia].
  repeat constructor; auto.
  apply (Hb 0xF0 8%nat); [reflexivity|].
  pose proof (shiftr_range c 18 8). lia.
Qed.

Lemma encode_cp_ascii (c : Z) :
  0 <= c < 0x80 -> Utf8.encode_cp c = Some [Utf8.byte_of_Z c].
Proof.
  intros Hc. unfold Utf8.encode_cp.
  destruct (c <? 0) eqn:E0; [apply Z.ltb_lt in E0; lia|].
  destruct (c <? 0x80) eqn:E1; [reflexivity|apply Z.ltb_ge in E1; lia].
Qed.

Lemma encode_cp_length (c : Z) (bs : list byte) :
  Utf8.encode_cp c = Some bs -> (1 <= length bs <= 4)%nat.
Proof.
  intros H. destruct (Z.lt_ge_cases c 0x80) as [Hlt|Hge].
  - destruct (Z.lt_ge_cases c 0) as [Hneg|Hpos].
    + unfold Utf8.encode_cp in H. apply Z.ltb_lt in Hneg. rewrite Hneg in H.
      discriminate.
    + rewrite encode_cp_ascii in H by lia. injection H as <-. simpl. lia.
  - destruct (encode_cp_high c bs Hge H). lia.
Qed.

(** ** An escaped query is a literal pattern *)

Lemma parse_plain (b : byte) (r : list byte) :
  plain b = true ->
  Re.parse (b :: r) = option_map (cons (Re.Literal b)) (Re.parse r).
Proof.
  unfold plain. intros H. apply andb_true_iff in H as [H1 H2].
  apply negb_true_iff in H1, H2. simpl. now rewrite H1, H2.
Qed.

Lemma literal_pattern_plain (bs p : list byte) :
  Forall (fun b => plain b = true) bs ->
  Re.literal_pattern (bs ++ p) = option_map (app bs) (Re.literal_pattern p).
Proof.
  unfold Re.literal_pattern. induction 1 as [|b bs Hb _ IH].
  - simpl. now destruct (Re.parse p) as [ts|]; [destruct (Re.literals ts)|].
  - rewrite <- app_comm_cons, parse_plain by assumption.
    destruct (Re.parse (bs ++ p)) as [ts|]; simpl in *.
    + rewrite IH. destruct (Re.parse p) as [ts'|]; simpl; auto.
      now destruct (Re.literals ts').
    + destruct (Re.parse p) as [ts'|]; simpl in *; auto.
      destruct (Re.literals ts'); simpl in *; congruence.
Qed.

Lemma literal_pattern_escaped (e : byte) (p : list byte) :
  Re.is_alnum e = false ->
  Re.literal_pattern (Utf8.byte_of_Z 92 :: e :: p)
  = option_map (cons e) (Re.literal_pattern p).
Proof.
  intros He. unfold Re.literal_pattern.
  change (Re.parse (Utf8.byte_of_Z 92 :: e :: p))
    with (option_map
            (cons (if Re.is_alnum e then Re.Category e else Re.Literal e))
            (Re.parse p)).
  rewrite He. destruct (Re.parse p) as [ts|]; simpl; auto.
Qed.

Lemma high_byte_plain (b : byte) : 0x80 <= Utf8.bval b -> plain b = true.
Proof.
  intros H. pose proof (bval_range b) as R. unfold plain, Re.is_special.
  apply (range_check
           (fun v => (v <? 0x80)
                     || (negb (v =? 92)
                         && negb (existsb (Z.eqb v) Re.SPECIAL_CHARS))) 256)
    in R; [|vm_compute; reflexivity].
  apply orb_true_iff in R as [R|R]; [apply Z.ltb_lt in R; lia | exact R].
Qed.

Lemma ascii_byte_plain (c : Z) :
  0 <= c < 0x80 -> Re.is_escape_special c = false ->
  plain (Utf8.byte_of_Z c) = true.
Proof.
  intros Hc Hs. unfold plain, Re.is_special.
  rewrite bval_byte_of_Z by lia.
  assert (R : 0 <= c < Z.of_nat 128) by lia.
  apply (range_check
           (fun v => Re.is_escape_special v
                     || (negb (v =? 92)
                         && negb (existsb (Z.eqb v) Re.SPECIAL_CHARS))) 128)
    in R; [|vm_compute; reflexivity].
  rewrite Hs in R. exact R.
Qed.

Lemma escape_special_byte (c : Z) :
  Re.is_escape_special c = true ->
  0 <= c < 0x80 /\ Re.is_alnum (Utf8.byte_of_Z c) = false.
Proof.
  unfold Re.is_escape_special. intros H.
  apply existsb_exists in H as (x & Hin & Heq).
  apply Z.eqb_eq in Heq. subst x. unfold Re.escape_special in Hin.
  simpl in Hin.
  repeat (destruct Hin as [<-|Hin]; [split; [lia | vm_compute; reflexivity]|]).
  contradiction.
Qed.

Lemma encode_cp_plain (c : Z) (bs : list byte) :
  Re.is_escape_special c = false -> Utf8.encode_cp c = Some bs ->
  Forall (fun b => plain b = true) bs.
Proof.
  intros Hs He. destruct (Z.lt_ge_cases c 0x80) as [Hlt|Hge].
  - destruct (Z.lt_ge_cases c 0) as [Hneg|Hpos].
    + unfold Utf8.encode_cp in He. apply Z.ltb_lt in Hneg.
      rewrite Hneg in He. discriminate.
    + rewrite encode_cp_ascii in He by lia. injection He as <-.
      repeat constructor. apply ascii_byte_plain; auto.
  - destruct (encode_cp_high c bs Hge He) as [Hall _].
    eapply Forall_impl; [|exact Hall]. intros b. apply high_byte_plain.
Qed.

(** [re.escape(q).encode('utf-8')] is a pattern that denotes the bytes of
    [q.encode('utf-8')], whatever characters [q] is made of. *)
Lemma escape_literal (q : str) :
  forall i j qb,
    Utf8.encode_from q i = inr qb ->
    exists pattern,
      Utf8.encode_from (Re.escape q) j = inr pattern
      /\ Re.literal_pattern pattern = Some qb.
Proof.
  induction q as [|c r IH]; intros i j qb H.
  - simpl in *. injection H as <-. exists []. split; reflexivity.
  - simpl in H. destruct (Utf8.encode_cp c) as [bs|] eqn:Ec; [|discriminate].
    destruct (Utf8.encode_from r (i + 1)) as [e|rest] eqn:Er; [discriminate|].
    injection H as <-. simpl Re.escape.
    destruct (Re.is_escape_special c) eqn:Es.
    + destruct (escape_special_byte c Es) as [Hc Hal].
      rewrite encode_cp_ascii in Ec by lia. injection Ec as <-.
      destruct (IH (i + 1) (j + 1 + 1) rest Er) as (pat' & Hp & Hl).
      exists (Utf8.byte_of_Z 92 :: Utf8.byte_of_Z c :: pat'). split.
      * cbn [Utf8.encode_from]. rewrite (encode_cp_ascii 92) by lia.
        rewrite (encode_cp_ascii c) by lia. rewrite Hp. reflexivity.
      * rewrite literal_pattern_escaped, Hl by assumption. reflexivity.
    + destruct (IH (i + 1) (j + 1) rest Er) as (pat' & Hp & Hl).
      exists (bs ++ pat'). split.
      * cbn [Utf8.encode_from]. rewrite Ec, Hp. reflexivity.
      * rewrite literal_pattern_plain, Hl by (eapply encode_cp_plain; eauto).
        reflexivity.
Qed.

(** An unencodable query stays unencodable once escaped. *)
Lemma escape_unencodable (q : str) :
  forall i j e,
    Utf8.encode_from q i = inl e ->
    exists e', Utf8.encode_from (Re.escape q) j = inl e'.
Proof.
  induction q as [|c r IH]; intros i j e H.
  - discriminate.
  - simpl in H. simpl Re.escape.
    destruct (Re.is_escape_special c) eqn:Es.
    + destruct (escape_special_byte c Es) as [Hc _].
      rewrite encode_cp_ascii in H by lia.
      destruct (Utf8.encode_from r (i + 1)) as [e0|rest] eqn:Er; [|discriminate].
      destruct (IH _ (j + 1 + 1) _ Er) as (e' & He').
      exists e'. cbn [Utf8.encode_from].
      rewrite (encode_cp_ascii 92), (encode_cp_ascii c) by lia.
      now rewrite He'.
    + cbn [Utf8.encode_from].
      destruct (Utf8.encode_cp c) as [bs|]; [|eauto].
      destruct (Utf8.encode_from r (i + 1)) as [e0|rest] eqn:Er; [|discriminate].
      destruct (IH _ (j + 1) _ Er) as (e' & He').
      exists e'. now rewrite He'.
Qed.

(** [re.finditer] on the escaped query is the literal scan for the bytes
    of the query. *)
Lemma finditer_escape (q : str) (qb mm : list byte) :
  Utf8.encode q = inr qb ->
  exists pattern,
    Utf8.encode (Re.escape q) = inr pattern
    /\ Re.finditer pattern mm = Some (Re.scan_literal qb mm 0 O).
Proof.
  intros H. destruct (escape_literal q 0 0 qb H) as (pattern & Hp & Hl).
  exists pattern. split; [exact Hp|]. unfold Re.finditer. now rewrite Hl.
Qed.

(** ** Occurrences and the scan of a whole file *)

Lemma occurs_at_iff (pat text : list byte) (p : Z) :
  occurs_at pat text p
  <-> exists d : nat,
        p = Z.of_nat d /\ (d + length pat <= length text)%nat
        /\ Re.starts_with pat (skipn d text) = true.
Proof.
  split.
  - intros (pre & post & -> & <-). exists (length pre).
    split; [reflexivity|]. split.
    + rewrite !length_app. lia.
    + rewrite skipn_app, skipn_all, Nat.sub_diag. simpl.
      apply starts_with_app.
  - intros (d & -> & Hlen & Hs). apply starts_with_firstn in Hs.
    exists (firstn d text), (skipn (length pat) (skipn d text)). split.
    + rewrite <- Hs at 1. now rewrite !firstn_skipn.
    + unfold len. rewrite length_firstn. lia.
Qed.

Lemma spaced_from_disjoint (n lo : Z) (ps : list Z) :
  1 <= n -> spaced_from n lo ps ->
  NoDup ps /\ forall p p', In p ps -> In p' ps -> p < p' -> p + n <= p'.
Proof.
  intros Hn. revert lo. induction ps as [|a r IH]; intros lo H.
  - split; [constructor | intros ? ? []].
  - destruct H as [_ Hr]. destruct (IH _ Hr) as [Hnd Hpair].
    assert (Hge : forall p, In p r -> a + n <= p).
    { intros p Hp. apply (spaced_from_In n (a + n) r); auto; lia. }
    split.
    + constructor; auto. intros Hin. specialize (Hge _ Hin). lia.
    + intros p p' [<-|Hp] [<-|Hp'] Hlt; auto; try lia.
      specialize (Hge _ Hp). lia.
Qed.

(** The matches of the scan are a family of non-overlapping occurrences,
    and no such family is larger. *)
Lemma scan_counts (pat text : list byte) :
  pat <> [] ->
  contains_exactly pat text (len (Re.scan_literal pat text 0 O)).
Proof.
  intros Hne.
  assert (Hlen : 1 <= len pat).
  { destruct pat as [|b0 pat0]; [congruence|].
    rewrite len_cons. pose proof (len_nonneg pat0). lia. }
  split.
  - exists (map Re.m_start (Re.scan_literal pat text 0 O)).
    split; [|apply len_map].
    destruct (spaced_from_disjoint _ _ _ Hlen (scan_spaced pat text 0 O))
      as [Hnd Hpair].
    split; [exact Hnd|]. split; [|exact Hpair].
    apply Forall_forall. intros p Hp.
    apply in_map_iff in Hp as (s & <- & Hs).
    destruct (scan_sound pat text _ _ _ Hs) as (d & H1 & _ & H3 & H4 & _).
    apply occurs_at_iff. exists d. repeat split; auto.
  - intros ps (Hnd & Hocc & Hpair). unfold len. apply inj_le.
    apply scan_maximal; auto.
    intros p Hp. rewrite Forall_forall in Hocc.
    specialize (Hocc p Hp). apply occurs_at_iff in Hocc.
    destruct Hocc as (d & -> & _ & Hs). exists d. repeat split; auto; lia.
Qed.

Lemma contains_exactly_unique (pat text : list byte) (k k' : Z) :
  contains_exactly pat text k -> contains_exactly pat text k' -> k = k'.
Proof.
  intros [(ps & Hps & <-) Hmax] [(ps' & Hps' & <-) Hmax'].
  specialize (Hmax _ Hps'). specialize (Hmax' _ Hps). lia.
Qed.

(** ** [search_file] *)

Lemma search_file_try_scan (fs : FileSystem) (self : Engine)
  (file_info : FileInfo) (q : str) (qb : list byte) (b : byte)
  (mm : list byte) :
  query self = Some q -> Utf8.encode q = inr qb ->
  fs (path file_info) = inr (b :: mm) ->
  search_file_try fs self file_info
  = inr (map (match_record (path file_info) (b :: mm))
             (Re.scan_literal qb (b :: mm) 0 O)).
Proof.
  intros Hq He Hf. unfold search_file_try. rewrite Hf, Hq.
  destruct (finditer_escape q qb (b :: mm) He) as (pattern & Hp & Hfi).
  now rewrite Hp, Hfi.
Qed.

Lemma search_file_try_empty (fs : FileSystem) (self : Engine)
  (file_info : FileInfo) :
  fs (path file_info) = inr [] ->
  search_file_try fs self file_info
  = inl (ValueError (of_string "cannot mmap an empty file")).
Proof. intros Hf. unfold search_file_try. now rewrite Hf. Qed.

Lemma map_position_match_record (p : str) (mm : list byte) (ms : list Re.span) :
  map position (map (match_record p mm) ms) = map Re.m_start ms.
Proof. rewrite map_map. reflexivity. Qed.

(** Every record of a readable file comes from a match of the scan. *)
Lemma search_file_matches (fs : FileSystem) (self : Engine)
  (file_info : FileInfo) (q : str) (qb mm : list byte) (r : MatchRecord) :
  query self = Some q -> Utf8.encode q = inr qb ->
  fs (path file_info) = inr mm ->
  In r (outcome_matches (snd (search_file fs self file_info))) ->
  exists s, In s (Re.scan_literal qb mm 0 O)
            /\ r = match_record (path file_info) mm s.
Proof.
  intros Hq He Hf Hr. unfold search_file in Hr. destruct mm as [|b mm].
  - rewrite search_file_try_empty in Hr by assumption. destruct Hr.
  - rewrite (search_file_try_scan fs self file_info q qb b mm) in Hr
      by assumption.
    unfold outcome_matches in Hr. cbn [fst snd] in Hr.
    apply in_map_iff in Hr as (s & <- & Hs). eauto.
Qed.

(** The positions reported for a readable file are the starts found by
    the scan for the bytes of the query. *)
Lemma search_file_positions (fs : FileSystem) (self : Engine)
  (file_info : FileInfo) (q : str) (qb mm : list byte) :
  query self = Some q -> Utf8.encode q = inr qb -> qb <> [] ->
  fs (path file_info) = inr mm ->
  map position (outcome_matches (snd (search_file fs self file_info)))
  = map Re.m_start (Re.scan_literal qb mm 0 O).
Proof.
  intros Hq He Hne Hf. unfold search_file. destruct mm as [|b mm].
  - rewrite search_file_try_empty by assumption. simpl.
    destruct qb; [congruence | reflexivity].
  - rewrite (search_file_try_scan fs self file_info q qb b mm) by assumption.
    unfold outcome_matches. simpl. apply map_position_match_record.
Qed.

(** ** The context window *)

Lemma slice_context {A} (pre qb post : list A) :
  slice (pre ++ qb ++ post) (Z.max 0 (len pre - 50)) (len pre + len qb + 50)
  = skipn (Z.to_nat (Z.max 0 (len pre - 50))) pre ++ qb ++ firstn 50 post.
Proof.
  pose proof (len_nonneg pre). pose proof (len_nonneg qb).
  pose proof (len_nonneg post).
  rewrite slice_window by lia. rewrite !len_app.
  rewrite (Z.min_l (Z.max 0 (len pre - 50))) by lia.
  set (na := Z.to_nat (Z.max 0 (len pre - 50))).
  assert (Hna : (na <= length pre)%nat) by (unfold na, len in *; lia).
  rewrite skipn_app. replace (na - length pre)%nat with 0%nat by lia.
  simpl skipn.
  replace (Z.to_nat (Z.min (len pre + len qb + 50)
                           (len pre + (len qb + len post))
                     - Z.max 0 (len pre - 50)))
    with (length (skipn na pre) + (length qb + Nat.min 50 (length post)))%nat
    by (rewrite length_skipn; unfold na, len in *; lia).
  rewrite firstn_app, firstn_all2 by lia. f_equal.
  replace (length (skipn na pre) + (length qb + Nat.min 50 (length post))
           - length (skipn na pre))%nat
    with (length qb + Nat.min 50 (length post))%nat by lia.
  rewrite firstn_app, firstn_all2 by lia. f_equal.
  replace (length qb + Nat.min 50 (length post) - length qb)%nat
    with (Nat.min 50 (length post)) by lia.
  destruct (Nat.le_ge_cases 50 (length post)) as [Hle|Hge].
  - now rewrite Nat.min_l.
  - rewrite Nat.min_r by assumption. now rewrite !firstn_all2 by lia.
Qed.

(** ** [str.strip] *)

Lemma lstrip_spec (s : str) :
  exists l, s = l ++ lstrip s /\ Forall (fun c => isspace c = true) l
            /\ starts_clean (lstrip s).
Proof.
  induction s as [|c r (l & Heq & Hl & Hc)].
  - exists []. simpl. auto.
  - simpl. destruct (isspace c) eqn:E.
    + exists (c :: l). simpl. rewrite <- Heq. auto.
    + exists []. simpl. auto.
Qed.

Lemma rstrip_spec (s : str) :
  exists r, s = rstrip s ++ r /\ Forall (fun c => isspace c = true) r
            /\ starts_clean (rev (rstrip s)).
Proof.
  unfold rstrip. destruct (lstrip_spec (rev s)) as (l & Heq & Hl & Hc).
  exists (rev l). rewrite rev_involutive. split; [|split; auto].
  - rewrite <- rev_app_distr, <- Heq. now rewrite rev_involutive.
  - now apply Forall_rev.
Qed.

Lemma strip_trimmed (s : str) : trimmed s (strip s).
Proof.
  unfold strip. destruct (lstrip_spec s) as (l & Heq & Hl & Hc).
  destruct (rstrip_spec (lstrip s)) as (r & Heq' & Hr & Hc').
  exists l, r. repeat split; auto.
  - now rewrite <- Heq', <- Heq.
  - destruct (rstrip (lstrip s)) as [|c t] eqn:E; simpl; auto.
    rewrite Heq' in Hc. exact Hc.
Qed.

(** ** The aggregation loop *)

Lemma eqb_eq (a b : str) : PyStr.eqb a b = true <-> a = b.
Proof.
  unfold PyStr.eqb. destruct (str_eq_dec a b); split; congruence.
Qed.

Lemma accept_spec (st : Loop) (o : Outcome) :
  files_processed (stats (l_self (accept st o)))
  = files_processed (stats (l_self st)) + 1
  /\ matches_found (stats (l_self (accept st o)))
     = matches_found (stats (l_self st)) + len (outcome_matches o)
  /\ errors (stats (l_self (accept st o))) = errors (stats (l_self st))
  /\ total_size (stats (l_self (accept st o)))
     = total_size (stats (l_self st))
  /\ query (l_self (accept st o)) = query (l_self st)
  /\ l_all_matches (accept st o) = l_all_matches st ++ outcome_matches o
  /\ l_warnings (accept st o)
     = l_warnings st ++ filter truthy [outcome_error o].
Proof.
  destruct o as [[p ms] e]. unfold outcome_matches, outcome_error.
  cbn [fst snd]. unfold accept.
  assert (Hw : (if truthy e then l_warnings st ++ [e] else l_warnings st)
               = l_warnings st ++ filter truthy [e]).
  { simpl. destruct (truthy e); [reflexivity | now rewrite app_nil_r]. }
  destruct ms as [|m ms]; cbn -[len filter]; rewrite Hw.
  - rewrite app_nil_r, len_nil. repeat split; lia.
  - repeat split; lia.
Qed.

Lemma fold_accept_spec (os : list Outcome) :
  forall st,
    let st' := fold_left accept os st in
    files_processed (stats (l_self st'))
    = files_processed (stats (l_self st)) + len os
    /\ matches_found (stats (l_self st'))
       = matches_found (stats (l_self st)) + sum_matches os
    /\ errors (stats (l_self st')) = errors (stats (l_self st))
    /\ total_size (stats (l_self st')) = total_size (stats (l_self st))
    /\ query (l_self st') = query (l_self st)
    /\ l_all_matches st'
       = l_all_matches st ++ concat (map outcome_matches os)
    /\ l_warnings st'
       = l_warnings st ++ filter truthy (map outcome_error os).
Proof.
  induction os as [|o os IH]; intros st; cbv zeta.
  - cbn. rewrite !app_nil_r. repeat split; lia.
  - cbn [fold_left].
    destruct (IH (accept st o)) as (H1 & H2 & H3 & H4 & H5 & H6 & H7).
    destruct (accept_spec st o) as (A1 & A2 & A3 & A4 & A5 & A6 & A7).
    rewrite H1, H2, H3, H4, H5, H6, H7, A1, A2, A3, A4, A5, A6, A7.
    rewrite len_cons. unfold sum_matches. cbn [map fold_right concat filter].
    rewrite <- !app_assoc.
    repeat split; try lia.
    destruct (truthy (outcome_error o)); reflexivity.
Qed.

Lemma sum_matches_perm (os os' : list Outcome) :
  Permutation os os' -> sum_matches os = sum_matches os'.
Proof.
  unfold sum_matches. induction 1; cbn [map fold_right]; lia.
Qed.

Lemma len_perm {A} (l l' : list A) : Permutation l l' -> len l = len l'.
Proof. intros H. unfold len. now rewrite (Permutation_length H). Qed.

Lemma concat_matches_perm (os os' : list Outcome) :
  Permutation os os' ->
  Permutation (concat (map outcome_matches os))
              (concat (map outcome_matches os')).
Proof.
  induction 1; cbn [map concat].
  - constructor.
  - now apply Permutation_app_head.
  - rewrite !app_assoc. apply Permutation_app_tail, Permutation_app_comm.
  - etransitivity; eauto.
Qed.

(** The matches of an outcome stay together, in their order, inside the
    collection. *)
Lemma concat_matches_block (os : list Outcome) (o : Outcome) :
  In o os ->
  exists a b, concat (map outcome_matches os) = a ++ outcome_matches o ++ b.
Proof.
  intros Hin. apply in_split in Hin as (l1 & l2 & ->).
  exists (concat (map outcome_matches l1)), (concat (map outcome_matches l2)).
  rewrite map_app, concat_app. reflexivity.
Qed.

Lemma of_file_app (p : str) (l l' : list MatchRecord) :
  of_file p (l ++ l') = of_file p l ++ of_file p l'.
Proof. apply filter_app. Qed.

Lemma of_file_own (o : Outcome) :
  well_formed o -> of_file (outcome_path o) (outcome_matches o) = outcome_matches o.
Proof.
  unfold well_formed, of_file. induction 1 as [|r l Hr _ IH]; cbn [filter].
  - reflexivity.
  - rewrite (proj2 (eqb_eq _ _) Hr), IH. reflexivity.
Qed.

Lemma of_file_other (o : Outcome) (p : str) :
  well_formed o -> outcome_path o <> p -> of_file p (outcome_matches o) = [].
Proof.
  unfold well_formed, of_file. intros H Hne.
  induction H as [|r l Hr _ IH]; cbn [filter]; [reflexivity|].
  destruct (PyStr.eqb (file r) p) eqn:E; [|exact IH].
  apply eqb_eq in E. congruence.
Qed.

(** With one outcome per path, the records of a file inside the
    collection are the matches of the outcome of that file. *)
Lemma of_file_concat (p : str) (os : list Outcome) :
  Forall well_formed os -> NoDup (map outcome_path os) ->
  of_file p (concat (map outcome_matches os))
  = match find (fun o => PyStr.eqb (outcome_path o) p) os with
    | Some o => outcome_matches o
    | None => []
    end.
Proof.
  induction 1 as [|o os Ho _ IH]; cbn [map concat find]; intros Hnd.
  - reflexivity.
  - inversion Hnd as [|? ? Hnotin Hnd']; subst.
    rewrite of_file_app, (IH Hnd').
    destruct (PyStr.eqb (outcome_path o) p) eqn:E.
    + apply eqb_eq in E. subst p. rewrite of_file_own by assumption.
      destruct (find _ os) as [o'|] eqn:Ef; [|apply app_nil_r].
      exfalso. apply find_some in Ef as [Hin Heq]. apply eqb_eq in Heq.
      apply Hnotin. rewrite <- Heq. now apply in_map.
    + rewrite of_file_other; auto. intros Heq. apply eqb_eq in Heq. congruence.
Qed.

Lemma find_perm (p : str) (os os' : list Outcome) :
  NoDup (map outcome_path os) -> Permutation os os' ->
  find (fun o => PyStr.eqb (outcome_path o) p) os
  = find (fun o => PyStr.eqb (outcome_path o) p) os'.
Proof.
  intros Hnd Hperm.
  assert (Hnd' : NoDup (map outcome_path os')).
  { eapply Permutation_NoDup; [|exact Hnd]. now apply Permutation_map. }
  assert (Huniq : forall l o o', NoDup (map outcome_path l) ->
            In o l -> In o' l -> outcome_path o = outcome_path o' -> o = o').
  { induction l as [|x l IHl]; intros o o' Hn Hi Hi' He; [destruct Hi|].
    inversion Hn as [|? ? Hx Hn']; subst.
    destruct Hi as [->|Hi], Hi' as [->|Hi']; auto.
    - exfalso. apply Hx. rewrite He. now apply in_map.
    - exfalso. apply Hx. rewrite <- He. now apply in_map. }
  set (f := fun o => PyStr.eqb (outcome_path o) p).
  destruct (find f os) as [o|] eqn:E1, (find f os') as [o'|] eqn:E2; auto.
  - apply find_some in E1 as [Hi1 H1]. apply find_some in E2 as [Hi2 H2].
    unfold f in *. apply eqb_eq in H1, H2. f_equal.
    apply (Huniq os); auto; [|congruence].
    eapply Permutation_in; [apply Permutation_sym|]; eauto.
  - apply find_some in E1 as [Hi1 H1].
    eapply find_none in E2; [|eapply Permutation_in; eauto]. congruence.
  - apply find_some in E2 as [Hi2 H2].
    eapply find_none in E1;
      [|eapply Permutation_in; [apply Permutation_sym|]; eauto]. congruence.
Qed.

(** ** The scan tasks of a run *)

Lemma search_file_try_query (fs : FileSystem) (self self' : Engine)
  (f : FileInfo) :
  query self = query self' ->
  search_file_try fs self f = search_file_try fs self' f.
Proof. intros H. unfold search_file_try. now rewrite H. Qed.

Lemma search_file_engine (fs : FileSystem) (self : Engine) (f : FileInfo) :
  fst (search_file fs self f)
  = if scan_fails fs self f
    then set_errors self (errors (stats self) + 1) else self.
Proof.
  unfold search_file, scan_fails.
  now destruct (search_file_try fs self f).
Qed.

Lemma search_file_outcome_query (fs : FileSystem) (self self' : Engine)
  (f : FileInfo) :
  query self = query self' ->
  snd (search_file fs self f) = snd (search_file fs self' f).
Proof.
  intros H. unfold search_file.
  rewrite (search_file_try_query fs self self' f H).
  now destruct (search_file_try fs self' f).
Qed.

Lemma search_file_keeps_query (fs : FileSystem) (self : Engine) (f : FileInfo) :
  query (fst (search_file fs self f)) = query self.
Proof.
  rewrite search_file_engine. now destruct (scan_fails fs self f).
Qed.

Lemma outcomes_query (fs : FileSystem) (self self' : Engine)
  (files : list FileInfo) :
  query self = query self' -> outcomes fs self files = outcomes fs self' files.
Proof.
  intros H. unfold outcomes. apply map_ext. intros f.
  now apply search_file_outcome_query.
Qed.

Lemma failures_query (fs : FileSystem) (self self' : Engine)
  (files : list FileInfo) :
  query self = query self' -> failures fs self files = failures fs self' files.
Proof.
  intros H. unfold failures. f_equal. apply filter_ext. intros f.
  unfold scan_fails. now rewrite (search_file_try_query fs self self' f H).
Qed.

Lemma submit_all_spec (fs : FileSystem) (files : list FileInfo) :
  forall self,
    snd (submit_all fs self files) = outcomes fs self files
    /\ query (fst (submit_all fs self files)) = query self
    /\ files_processed (stats (fst (submit_all fs self files)))
       = files_processed (stats self)
    /\ matches_found (stats (fst (submit_all fs self files)))
       = matches_found (stats self)
    /\ total_size (stats (fst (submit_all fs self files)))
       = total_size (stats self)
    /\ errors (stats (fst (submit_all fs self files)))
       = errors (stats self) + failures fs self files.
Proof.
  induction files as [|f rest IH]; intros self.
  - cbn. repeat split; lia.
  - cbn [submit_all].
    destruct (search_file fs self f) as [self1 o] eqn:Es.
    assert (Hq : query self1 = query self).
    { change self1 with (fst (self1, o)). rewrite <- Es.
      apply search_file_keeps_query. }
    assert (He : self1 = if scan_fails fs self f
                         then set_errors self (errors (stats self) + 1)
                         else self).
    { change self1 with (fst (self1, o)). rewrite <- Es.
      apply search_file_engine. }
    destruct (IH self1) as (H1 & H2 & H3 & H4 & H5 & H6).
    destruct (submit_all fs self1 rest) as [self2 os] eqn:Er.
    cbn [fst snd] in *.
    rewrite (outcomes_query fs self1 self rest Hq) in H1.
    rewrite (failures_query fs self1 self rest Hq) in H6.
    unfold outcomes at 1. cbn [map]. rewrite Es. cbn [snd].
    fold (outcomes fs self rest). rewrite H1, H2, H3, H4, H5, H6.
    unfold failures. cbn [filter].
    destruct (scan_fails fs self f); subst self1; cbn -[len];
      rewrite ?len_cons; repeat split; auto; lia.
Qed.

(** ** A run *)

Lemma get_folder_stats_engine (entries : list WalkEntry) (self : Engine) :
  exists total,
    fst (get_folder_stats entries self) = set_total_size self total.
Proof. unfold get_folder_stats. cbn [fst]. eauto. Qed.

(** A run whose folder holds targets and whose query is not empty goes
    through the scan, the aggregation loop and [save_results]. *)
Lemma run_search_complete (w : World) (self : Engine) (rd : ResultsDir)
  (folder : str) :
  run_files w self folder <> [] ->
  truthy (strip (query_line w)) = true ->
  let files := run_files w self folder in
  let self0 := run_engine w self folder in
  let st := aggregate (fst (submit_all (fs w) self0 files))
                      (as_completed w (outcomes (fs w) self0 files)) in
  run_search w self rd folder
  = {| r_self := l_self st;
       r_dir := save_results (sink w) (l_self st) (l_all_matches st) rd;
       r_submitted := map path files;
       r_warnings := l_warnings st;
       r_summary :=
         Some {| shown_processed := files_processed (stats (l_self st));
                 shown_files := len files;
                 shown_matches := matches_found (stats (l_self st));
                 shown_errors := errors (stats (l_self st)) |};
       r_access_warnings := get_folder_stats_prints (walk w folder) |}.
Proof.
  unfold run_files, run_engine, run_search.
  destruct (get_folder_stats (walk w folder) self) as [self1 files].
  cbn [fst snd]. intros Hne Hq. destruct files as [|f files]; [congruence|].
  rewrite Hq. cbn [negb].
  pose proof (submit_all_spec (fs w) (f :: files)
                (set_query self1 (strip (query_line w)))) as (Ho & _).
  destruct (submit_all (fs w) (set_query self1 (strip (query_line w)))
                       (f :: files)) as [self2 futures].
  cbn [fst snd] in *. subst futures. reflexivity.
Qed.

(** A run that returns early submits nothing and leaves the counters of
    the scan and the results directory as they were. *)
Lemma run_search_early (w : World) (self : Engine) (rd : ResultsDir)
  (folder : str) :
  run_files w self folder = []
  \/ truthy (strip (query_line w)) = false ->
  r_submitted (run_search w self rd folder) = []
  /\ r_dir (run_search w self rd folder) = rd
  /\ r_warnings (run_search w self rd folder) = []
  /\ r_summary (run_search w self rd folder) = None
  /\ files_processed (stats (r_self (run_search w self rd folder)))
     = files_processed (stats self)
  /\ matches_found (stats (r_self (run_search w self rd folder)))
     = matches_found (stats self)
  /\ errors (stats (r_self (run_search w self rd folder)))
     = errors (stats self).
Proof.
  unfold run_files, run_search.
  destruct (get_folder_stats_engine (walk w folder) self) as (total & Ht).
  destruct (get_folder_stats (walk w folder) self) as [self1 files].
  cbn [fst snd] in *. subst self1. intros H.
  destruct files as [|f files].
  - cbn. auto 10.
  - destruct H as [H|H]; [discriminate|]. rewrite H. cbn. auto 10.
Qed.


(** The counters after a complete run, in terms of the counters before. *)
Lemma run_search_counters (w : World) (self : Engine) (rd : ResultsDir)
  (folder : str) :
  fair w ->
  run_files w self folder <> [] ->
  truthy (strip (query_line w)) = true ->
  let files := run_files w self folder in
  let self0 := run_engine w self folder in
  let r := run_search w self rd folder in
  files_processed (stats (r_self r)) = files_processed (stats self) + len files
  /\ matches_found (stats (r_self r))
     = matches_found (stats self) + sum_matches (outcomes (fs w) self0 files)
  /\ errors (stats (r_self r))
     = errors (stats self) + failures (fs w) self0 files
  /\ query (r_self r) = Some (strip (query_line w))
  /\ Permutation (l_all_matches
                    (aggregate (fst (submit_all (fs w) self0 files))
                       (as_completed w (outcomes (fs w) self0 files))))
                 (concat (map outcome_matches (outcomes (fs w) self0 files))).
Proof.
  intros Hfair Hne Hq files self0 r. subst r.
  rewrite (run_search_complete w self rd folder Hne Hq). cbn [r_self].
  fold files. fold self0.
  set (os := outcomes (fs w) self0 files).
  pose proof (Hfair os) as Hperm.
  destruct (submit_all_spec (fs w) files self0) as (_ & S2 & S3 & S4 & S5 & S6).
  unfold aggregate.
  pose proof (fold_accept_spec (as_completed w os)
                {| l_self := fst (submit_all (fs w) self0 files);
                   l_all_matches := []; l_warnings := [] |})
    as (A1 & A2 & A3 & A4 & A5 & A6 & A7).
  cbn [l_self l_all_matches l_warnings] in *.
  rewrite A1, A2, A3, A5, A6, S2, S3, S4, S6.
  rewrite <- (len_perm _ _ Hperm), <- (sum_matches_perm _ _ Hperm).
  unfold os at 1. unfold outcomes at 1. rewrite len_map.
  destruct (get_folder_stats_engine (walk w folder) self) as (total & Ht).
  unfold self0, run_engine. rewrite Ht. cbn [stats set_query set_total_size
    files_processed matches_found errors query app].
  repeat split; auto.
  apply Permutation_sym, concat_matches_perm, Hperm.
Qed.

Lemma sum_matches_concat (os : list Outcome) :
  sum_matches os = len (concat (map outcome_matches os)).
Proof.
  unfold sum_matches. induction os as [|o os IH]; cbn [map fold_right concat].
  - reflexivity.
  - rewrite len_app, IH. reflexivity.
Qed.

Lemma failed_outcome (fs : FileSystem) (self : Engine) (f : FileInfo) :
  scan_fails fs self f = true ->
  outcome_matches (snd (search_file fs self f)) = [].
Proof.
  unfold scan_fails, search_file.
  now destruct (search_file_try fs self f).
Qed.

(** Only the targets whose scan succeeds add to the sum. *)
Lemma sum_matches_successes (fs : FileSystem) (self : Engine)
  (files : list FileInfo) :
  sum_matches (outcomes fs self files)
  = sum_matches
      (outcomes fs self (filter (fun f => negb (scan_fails fs self f)) files)).
Proof.
  unfold sum_matches, outcomes.
  induction files as [|f files IH]; cbn [map filter fold_right].
  - reflexivity.
  - destruct (scan_fails fs self f) eqn:E; cbn [negb map fold_right].
    + rewrite failed_outcome by assumption. rewrite len_nil. lia.
    + lia.
Qed.

Lemma failures_pos (fs : FileSystem) (self : Engine) (files : list FileInfo)
  (f : FileInfo) :
  In f files -> scan_fails fs self f = true -> 1 <= failures fs self files.
Proof.
  intros Hin Hf. unfold failures.
  assert (Hin' : In f (filter (scan_fails fs self) files)).
  { apply filter_In. auto. }
  destruct (filter (scan_fails fs self) files) as [|x l]; [destruct Hin'|].
  rewrite len_cons. pose proof (len_nonneg l). lia.
Qed.

Lemma demo_world_fair (line : str) : fair (demo_world_with line).
Proof. intros os. apply Permutation_rev. Qed.

(** ** The name of the results file *)

Lemma Forall_firstn {A} (P : A -> Prop) (n : nat) (l : list A) :
  Forall P l -> Forall P (firstn n l).
Proof.
  intros H. revert n. induction H as [|x l Hx _ IH]; intros [|n]; simpl;
    constructor; auto.
Qed.

Lemma slice_to_firstn {A} (l : list A) (n : Z) :
  0 <= n -> slice_to l n = firstn (Z.to_nat n) l.
Proof.
  intros Hn. unfold slice_to. rewrite slice_window by lia.
  pose proof (len_nonneg l). rewrite (Z.min_l 0) by lia. simpl skipn.
  rewrite Z.sub_0_r.
  destruct (Z.le_ge_cases n (len l)) as [Hle|Hge].
  - now rewrite Z.min_l.
  - rewrite Z.min_r by lia. unfold len. rewrite Nat2Z.id.
    rewrite firstn_all. symmetry. apply firstn_all2. unfold len in Hge. lia.
Qed.

Lemma existsb_eqb_In (c : Z) (l : list Z) :
  existsb (Z.eqb c) l = true <-> In c l.
Proof.
  rewrite existsb_exists. split.
  - intros (x & Hx & E). apply Z.eqb_eq in E. now subst.
  - intros H. exists c. split; [exact H | apply Z.eqb_refl].
Qed.

Lemma is_reserved_In (c : Z) :
  is_reserved c = true <-> In c reserved_characters.
Proof. apply existsb_eqb_In. Qed.

(** The class of the pattern in [save_results] holds the nine reserved
    characters, and nothing else. *)
Lemma in_class_reserved (c : Z) :
  Re.in_class Re.filename_class c = is_reserved c.
Proof.
  apply eq_true_iff_eq. unfold Re.in_class, is_reserved.
  rewrite !existsb_eqb_In. unfold Re.filename_class, reserved_characters.
  simpl. tauto.
Qed.

Lemma safe_query_eq (q : str) :
  safe_query q = firstn 50 (map sanitize_char q).
Proof.
  unfold safe_query. rewrite slice_to_firstn by lia.
  change (Z.to_nat 50) with 50%nat. f_equal.
  unfold Re.sub_class. induction q as [|c r IH]; cbn [flat_map map].
  - reflexivity.
  - rewrite IH. unfold sanitize_char. rewrite in_class_reserved.
    now destruct (is_reserved c).
Qed.

Lemma safe_query_length (q : str) : (length (safe_query q) <= 50)%nat.
Proof. rewrite safe_query_eq, length_firstn. lia. Qed.

Lemma result_file_eq (q : str) :
  result_file q
  = [114; 101; 115; 117; 108; 116; 115; 95] ++ safe_query q
    ++ [46; 116; 120; 116].
Proof. reflexivity. Qed.

Lemma sanitize_char_clean (c : Z) : is_reserved (sanitize_char c) = false.
Proof.
  unfold sanitize_char.
  destruct (is_reserved c) eqn:E; [reflexivity | exact E].
Qed.

Lemma safe_query_Forall (P : Z -> Prop) (q : str) :
  (forall c, In c q -> P (sanitize_char c)) -> Forall P (safe_query q).
Proof.
  intros H. rewrite safe_query_eq. apply Forall_firstn.
  apply Forall_forall. intros x Hx. apply in_map_iff in Hx as (c & <- & Hc).
  auto.
Qed.

Lemma result_file_Forall (P : Z -> Prop) (q : str) :
  Forall P [114; 101; 115; 117; 108; 116; 115; 95; 46; 116; 120; 116] ->
  (forall c, In c q -> P (sanitize_char c)) ->
  Forall P (result_file q).
Proof.
  intros Hfix Hq. rewrite result_file_eq. rewrite Forall_forall in Hfix.
  apply Forall_app. split; [|apply Forall_app; split].
  - apply Forall_forall. intros x Hx. apply Hfix. simpl in *. tauto.
  - now apply safe_query_Forall.
  - apply Forall_forall. intros x Hx. apply Hfix. simpl in *. tauto.
Qed.

Lemma result_file_length (q : str) : (length (result_file q) <= 62)%nat.
Proof.
  rewrite result_file_eq, !length_app. pose proof (safe_query_length q).
  simpl. lia.
Qed.

Lemma encode_from_encodable (s : str) :
  forall i bs, Utf8.encode_from s i = inr bs -> encodable s.
Proof.
  induction s as [|c r IH]; intros i bs H; [constructor|].
  simpl in H. destruct (Utf8.encode_cp c) eqn:Ec; [|discriminate].
  destruct (Utf8.encode_from r (i + 1)) eqn:Er; [discriminate|].
  constructor; [congruence | eapply IH; eauto].
Qed.

Lemma encodable_encode_from (s : str) :
  encodable s ->
  forall i, exists bs,
    Utf8.encode_from s i = inr bs /\ (length bs <= 4 * length s)%nat.
Proof.
  induction 1 as [|c r Hc _ IH]; intros i.
  - exists []. split; [reflexivity | simpl; lia].
  - destruct (Utf8.encode_cp c) as [b|] eqn:Ec; [|congruence].
    destruct (IH (i + 1)) as (rest & Hr & Hl).
    exists (b ++ rest). cbn [Utf8.encode_from]. rewrite Ec, Hr.
    split; [reflexivity|].
    pose proof (encode_cp_length c b Ec). rewrite length_app.
    simpl length. lia.
Qed.

Lemma existsb_false_Forall (v : Z) (l : list Z) :
  Forall (fun c => c <> v) l -> existsb (Z.eqb v) l = false.
Proof.
  induction 1 as [|c r Hc _ IH]; [reflexivity|].
  simpl. rewrite IH, orb_false_r. apply Z.eqb_neq. congruence.
Qed.

Lemma utf16_units_bound (s : str) : utf16_units s <= 2 * len s.
Proof.
  unfold utf16_units. induction s as [|c r IH]; cbn [fold_right].
  - unfold len. simpl. lia.
  - rewrite len_cons. destruct (c <? 65536); lia.
Qed.

(** ** The UTF-8 decoder *)

Lemma is_cont_range b : Utf8.is_cont b = true -> 0x80 <= Utf8.bval b < 0xC0.
Proof.
  unfold Utf8.is_cont. intros H. apply andb_true_iff in H as [H1 H2].
  apply Z.leb_le in H1. apply Z.ltb_lt in H2. lia.
Qed.

Ltac bool_hyps :=
  repeat match goal with
  | H : (_ <? _) = true |- _ => apply Z.ltb_lt in H
  | H : (_ <? _) = false |- _ => apply Z.ltb_ge in H
  | H : (_ =? _) = true |- _ => apply Z.eqb_eq in H
  | H : (_ =? _) = false |- _ => apply Z.eqb_neq in H
  | H : Utf8.is_cont _ = true |- _ => apply is_cont_range in H
  | H : negb _ = true |- _ => apply negb_true_iff in H
  | H : negb _ = false |- _ => apply negb_false_iff in H
  | H : (_ || _) = false |- _ => apply orb_false_iff in H; destruct H
  | H : (if ?c then _ else _) = false |- _ => destruct c eqn:?
  end.

(** Whatever the bytes, the decoder yields scalar values only: each
    invalid sequence has become U+FFFD. *)
Lemma decode_replace_scalar_n (n : nat) :
  forall s, (length s <= n)%nat -> Forall scalar (Utf8.decode_replace s).
Proof.
  assert (Hrep : scalar Utf8.REPLACEMENT) by (unfold scalar, Utf8.REPLACEMENT; lia).
  induction n as [|n IH]; intros s Hs.
  - destruct s; [constructor | simpl in Hs; lia].
  - destruct s as [|b1 r1]; [constructor|].
    pose proof (bval_range b1) as R1.
    cbn [Utf8.decode_replace]. cbv zeta.
    repeat match goal with
    | |- Forall _ [] => constructor
    | |- Forall _ (_ :: _) => constructor
    | |- scalar Utf8.REPLACEMENT => exact Hrep
    | |- Forall _ (Utf8.decode_replace _) => apply IH; simpl in *; lia
    | |- context [match ?r with [] => _ | _ :: _ => _ end] =>
        is_var r; destruct r
    | |- context [if ?c then _ else _] => destruct c eqn:?
    end.
    all: bool_hyps; unfold scalar; rewrite ?Z.shiftl_mul_pow2 by lia; try lia.
Qed.

Lemma decode_replace_scalar (s : list byte) :
  Forall scalar (Utf8.decode_replace s).
Proof. apply (decode_replace_scalar_n (length s)). lia. Qed.

Lemma bval_marker (K : Z) (n : nat) (x : Z) :
  forallb (fun x => (Z.lor K x =? K + x) && (0 <=? K + x) && (K + x <? 256))
          (map Z.of_nat (seq 0 n)) = true ->
  0 <= x < Z.of_nat n ->
  Utf8.bval (Utf8.byte_of_Z (Z.lor K x)) = K + x.
Proof.
  intros H Hx. pose proof (range_check _ n H x Hx) as E. simpl in E.
  apply andb_true_iff in E as [E E3]. apply andb_true_iff in E as [E1 E2].
  apply Z.eqb_eq in E1. apply Z.leb_le in E2. apply Z.ltb_lt in E3.
  rewrite E1. apply bval_byte_of_Z. lia.
Qed.

Lemma bval_cont (y : Z) :
  Utf8.bval (Utf8.byte_of_Z (Z.lor 0x80 (Z.land y 0x3F))) = 0x80 + y mod 64.
Proof.
  change 0x3F with (Z.ones 6). rewrite Z.land_ones by lia.
  change (2 ^ 6) with 64.
  apply (bval_marker 0x80 64); [vm_compute; reflexivity|].
  pose proof (Z.mod_pos_bound y 64). lia.
Qed.

Lemma bval_lead (K : Z) (n : nat) (c s : Z) :
  forallb (fun x => (Z.lor K x =? K + x) && (0 <=? K + x) && (K + x <? 256))
          (map Z.of_nat (seq 0 n)) = true ->
  0 <= s -> 0 <= c < Z.of_nat n * 2 ^ s ->
  Utf8.bval (Utf8.byte_of_Z (Z.lor K (Z.shiftr c s))) = K + c / 2 ^ s.
Proof.
  intros H Hs Hc. rewrite <- Z.shiftr_div_pow2 by lia.
  apply (bval_marker K n); auto. apply shiftr_range; auto.
Qed.

Lemma is_cont_intro (b : byte) :
  0x80 <= Utf8.bval b < 0xC0 -> Utf8.is_cont b = true.
Proof.
  intros H. unfold Utf8.is_cont. apply andb_true_iff.
  split; [apply Z.leb_le | apply Z.ltb_lt]; lia.
Qed.

Ltac arith := Z.div_mod_to_equations; lia.

Ltac decide_if :=
  match goal with
  | |- context [if ?c <? ?d then _ else _] =>
    first [ replace (c <? d) with true by (symmetry; apply Z.ltb_lt; arith)
          | replace (c <? d) with false by (symmetry; apply Z.ltb_ge; arith)
          | destruct (Z.ltb_spec c d) ]
  | |- context [if ?c =? ?d then _ else _] =>
    first [ replace (c =? d) with true by (symmetry; apply Z.eqb_eq; arith)
          | replace (c =? d) with false by (symmetry; apply Z.eqb_neq; arith) ]
  end.

(** The decoder reads back what the encoder wrote. *)
Lemma decode_encode_cp (c : Z) (bs rest : list byte) :
  Utf8.encode_cp c = Some bs ->
  Utf8.decode_replace (bs ++ rest) = c :: Utf8.decode_replace rest.
Proof.
  unfold Utf8.encode_cp.
  destruct (c <? 0) eqn:E0; [discriminate|]. apply Z.ltb_ge in E0.
  destruct (c <? 0x80) eqn:E1.
  { apply Z.ltb_lt in E1. intros [= <-]. cbn [app Utf8.decode_replace].
    rewrite bval_byte_of_Z by lia. cbv zeta.
    now replace (c <? 128) with true by (symmetry; apply Z.ltb_lt; lia). }
  apply Z.ltb_ge in E1.
  destruct (c <? 0x800) eqn:E2.
  { apply Z.ltb_lt in E2. intros [= <-]. cbn [app Utf8.decode_replace].
    rewrite (bval_lead 0xC0 32 c 6) by (try reflexivity; lia).
    cbv zeta. rewrite is_cont_intro by (rewrite bval_cont; arith).
    rewrite bval_cont. rewrite !Z.shiftl_mul_pow2 by lia.
    change (2 ^ 6) with 64.
    repeat decide_if. f_equal. arith. }
  apply Z.ltb_ge in E2.
  destruct (c <? 0x10000) eqn:E3.
  { apply Z.ltb_lt in E3. unfold Utf8.is_surrogate.
    destruct ((0xD800 <=? c) && (c <=? 0xDFFF)) eqn:Es; [discriminate|].
    assert (Hs : c < 0xD800 \/ 0xDFFF < c).
    { apply andb_false_iff in Es as [Es|Es];
        [apply Z.leb_gt in Es | apply Z.leb_gt in Es]; lia. }
    intros [= <-]. cbn [app Utf8.decode_replace].
    rewrite (bval_lead 0xE0 16 c 12) by (try reflexivity; lia).
    cbv zeta. rewrite !bval_cont.
    rewrite !(is_cont_intro (Utf8.byte_of_Z _)) by (rewrite bval_cont; arith).
    rewrite !Z.shiftr_div_pow2, !Z.shiftl_mul_pow2 by lia.
    change (2 ^ 6) with 64. change (2 ^ 12) with 4096.
    cbn [negb orb].
    repeat decide_if; f_equal; arith. }
  apply Z.ltb_ge in E3.
  destruct (c <? 0x110000) eqn:E4; [|discriminate].
  apply Z.ltb_lt in E4.
  intros [= <-]. cbn [app Utf8.decode_replace].
  rewrite (bval_lead 0xF0 8 c 18) by (try reflexivity; lia).
  cbv zeta. rewrite !bval_cont.
  rewrite !(is_cont_intro (Utf8.byte_of_Z _)) by (rewrite bval_cont; arith).
  rewrite !Z.shiftr_div_pow2, !Z.shiftl_mul_pow2 by lia.
  change (2 ^ 6) with 64. change (2 ^ 12) with 4096. change (2 ^ 18) with 262144.
  cbn [negb orb].
  repeat decide_if; f_equal; arith.
Qed.

Lemma decode_encode (s : str) :
  forall i bs, Utf8.encode_from s i = inr bs -> Utf8.decode_replace bs = s.
Proof.
  induction s as [|c r IH]; intros i bs H; simpl in H.
  - now injection H as <-.
  - destruct (Utf8.encode_cp c) as [b|] eqn:Ec; [|discriminate].
    destruct (Utf8.encode_from r (i + 1)) as [e|rest] eqn:Er; [discriminate|].
    injection H as <-. rewrite (decode_encode_cp c b rest Ec). f_equal.
    eapply IH; eauto.
Qed.

(** ** The scenario, evaluated *)

Example scenario_positions :
  map position (outcome_matches (snd (search_file demo_fs demo_engine demo_a)))
  = [0; 8].
Proof. reflexivity. Qed.

Example scenario_statistics :
  stats (r_self (run_search demo_world init empty_dir (of_string "db")))
  = {| files_processed := 3; matches_found := 2; total_size := 28;
       errors := 1 |}.
Proof. vm_compute. reflexivity. Qed.

Example metacharacters_are_literal :
  match Utf8.encode (Re.escape (of_string "a.c*")) with
  | inr pattern =>
    option_map (map Re.m_start) (Re.finditer pattern (bytes "abc aac a.c* a.c"))
  | inl _ => None
  end = Some [8].
Proof. vm_compute. reflexivity. Qed.

Example overlapping_occurrences :
  map Re.m_start (Re.scan_literal (bytes "aa") (bytes "aaaaa") 0 O) = [0; 2].
Proof. reflexivity. Qed.

Example empty_file_is_an_error :
  search_file (fun _ => inr []) demo_engine demo_a
  = (set_errors demo_engine 1,
     (path demo_a, [], of_string "cannot mmap an empty file")).
Proof. reflexivity. Qed.

Example malformed_bytes_are_replaced :
  Utf8.decode_replace [x66; xff; xe2; x82; x6f]
  = [102; 65533; 65533; 111].
Proof. vm_compute. reflexivity. Qed.
(** ** The whitespace of [strip] *)

Lemma isspace_whitespace (c : Z) : isspace c = true <-> whitespace c.
Proof.
  unfold isspace, whitespace, unicode_whitespace. cbn [In].
  repeat rewrite ?orb_true_iff, ?andb_true_iff, ?Z.leb_le, ?Z.eqb_eq.
  lia.
Qed.

Lemma isspace_false (c : Z) : isspace c = false <-> ~ whitespace c.
Proof.
  rewrite <- isspace_whitespace. destruct (isspace c); split; congruence.
Qed.

Lemma starts_clean_whitespace (t : str) :
  starts_clean t -> no_whitespace_first t.
Proof. destruct t as [|c t]; [auto|]. cbn. apply isspace_false. Qed.

Lemma trimmed_stripped (s t : str) :
  trimmed s t -> stripped_of_whitespace s t.
Proof.
  intros (l & r & Heq & Hl & Hr & Hc & Hc'). exists l, r.
  split; [exact Heq|].
  split; [eapply Forall_impl; [|exact Hl]; intros c; apply isspace_whitespace|].
  split; [eapply Forall_impl; [|exact Hr]; intros c; apply isspace_whitespace|].
  split; now apply starts_clean_whitespace.
Qed.

(** ** The decoder and the well-formed sequences of UTF-8 *)

Lemma utf8_of_well_formed (c : Z) :
  scalar c -> well_formed_values (utf8_of c).
Proof.
  unfold scalar, utf8_of. intros [H1 H2].
  destruct (Z.ltb_spec c 128); [cbn [well_formed_values]; lia|].
  destruct (Z.ltb_spec c 2048).
  { cbn [well_formed_values]. unfold continuation. arith. }
  destruct (Z.ltb_spec c 65536).
  { cbn [well_formed_values]. unfold continuation. arith. }
  cbn [well_formed_values]. unfold continuation. arith.
Qed.

Lemma well_formed_utf8_of (l : list Z) :
  well_formed_values l -> exists c, scalar c /\ utf8_of c = l.
Proof.
  destruct l as [|v1 [|v2 [|v3 [|v4 [|v5 l]]]]]; cbn [well_formed_values];
    unfold continuation;
    try contradiction; intros H.
  - exists v1. unfold scalar, utf8_of. split; [lia|].
    destruct (Z.ltb_spec v1 128); [reflexivity | lia].
  - exists ((v1 - 192) * 64 + (v2 - 128)). unfold scalar, utf8_of.
    split; [lia|]. repeat decide_if; f_equal; [|f_equal]; arith.
  - exists ((v1 - 224) * 4096 + (v2 - 128) * 64 + (v3 - 128)).
    unfold scalar, utf8_of. split; [lia|].
    repeat decide_if; f_equal; [|f_equal; [|f_equal]]; arith.
  - exists ((v1 - 240) * 262144 + (v2 - 128) * 4096 + (v3 - 128) * 64
            + (v4 - 128)).
    unfold scalar, utf8_of. split; [lia|].
    repeat decide_if; f_equal; [|f_equal; [|f_equal; [|f_equal]]]; arith.
Qed.

Lemma encodes_well_formed (c : Z) (bs : list byte) :
  encodes c bs -> well_formed_values (byte_values bs).
Proof. intros [Hs ->]. now apply utf8_of_well_formed. Qed.

Lemma well_formed_encodes (bs : list byte) :
  well_formed_values (byte_values bs) -> exists c, encodes c bs.
Proof.
  intros H. destruct (well_formed_utf8_of _ H) as (c & Hs & Hc).
  exists c. split; [exact Hs | now symmetry].
Qed.

Lemma ill_formed_intro (s : list byte) :
  (forall bs rest, s = bs ++ rest ->
                   well_formed_values (byte_values bs) -> False) ->
  ill_formed s.
Proof.
  intros H c bs rest Henc Heq. apply (H bs rest Heq).
  now apply (encodes_well_formed c).
Qed.

Lemma incomplete_intro (p tail : list byte) :
  tail <> [] -> well_formed_values (byte_values (p ++ tail)) ->
  incomplete p.
Proof.
  intros Hne Hw. destruct (well_formed_encodes _ Hw) as (c & Hc).
  exists c, (p ++ tail), tail. auto.
Qed.

Lemma incomplete_elim (p : list byte) :
  incomplete p ->
  exists tail, tail <> [] /\ well_formed_values (byte_values (p ++ tail)).
Proof.
  intros (c & bs & tail & Henc & -> & Hne). exists tail.
  split; [exact Hne | now apply (encodes_well_formed c)].
Qed.

Lemma not_cont_range (b : byte) :
  Utf8.is_cont b = false -> Utf8.bval b < 0x80 \/ 0xC0 <= Utf8.bval b.
Proof.
  unfold Utf8.is_cont. intros H. apply andb_false_iff in H as [H|H];
    [apply Z.leb_gt in H | apply Z.ltb_ge in H]; lia.
Qed.

Lemma decode_replace_body (s : list byte) :
  Utf8.decode_replace s = decode_body Utf8.decode_replace s.
Proof. destruct s; reflexivity. Qed.

(** The bytes of the input that stand before the rest [r]. *)
Ltac prefix_of input r :=
  match input with
  | r => constr:(@nil byte)
  | ?b :: ?t => let p := prefix_of t r in constr:(b :: p)
  end.

(** A sequence of values is matched against the table. *)
Ltac table_facts :=
  repeat match goal with
  | H : well_formed_values _ |- _ =>
    cbn [byte_values map app well_formed_values] in H;
    unfold continuation in H
  end.

Ltac list_cases tail :=
  destruct tail as [|? [|? [|? [|? [|? ?]]]]].

Ltac solve_ill_formed :=
  apply ill_formed_intro;
  let bs := fresh "bs" in let rest := fresh "rest" in
  let Heq := fresh "Heq" in let Hw := fresh "Hw" in
  intros bs rest Heq Hw; list_cases bs;
  cbn [app] in Heq; table_facts; try contradiction;
  inversion Heq; subst; lia.

Ltac solve_not_incomplete :=
  let H := fresh "H" in let tail := fresh "tail" in
  let Hne := fresh "Hne" in let Hw := fresh "Hw" in
  intros H; apply incomplete_elim in H as (tail & Hne & Hw);
  list_cases tail; table_facts; try contradiction; try congruence; lia.

Ltac try_tail p tail :=
  solve [ apply (incomplete_intro p tail);
          [ discriminate
          | cbn [byte_values map app well_formed_values];
            unfold continuation; cbn [Byte.to_N Z.of_N]; lia ] ].

Ltac try_tails p :=
  first [ try_tail p [x80] | try_tail p [xa0; x80] | try_tail p [x80; x80]
        | try_tail p [x90; x80; x80] | try_tail p [x80; x80; x80] ].

Ltac solve_incomplete p :=
  first
    [ try_tails p
    | match p with
      | ?b :: _ => destruct (Z.eq_dec (Z.of_N (Byte.to_N b)) 237); try_tails p
      end
    | match p with
      | ?b :: _ => destruct (Z.eq_dec (Z.of_N (Byte.to_N b)) 244); try_tails p
      end ].

Ltac solve_stretch p :=
  split; [discriminate|]; split; [cbn [app]; solve_ill_formed|];
  first [ left; split;
          [ solve_incomplete p
          | cbn [app]; first [exact I | solve_not_incomplete] ]
        | right; eexists; split; [reflexivity | solve_not_incomplete] ].

Ltac solve_encodes :=
  unfold encodes, scalar, utf8_of; cbn [byte_values map];
  rewrite ?Z.shiftl_mul_pow2 by lia;
  split; [lia|]; repeat decide_if; repeat (f_equal; try arith).

Lemma decode_replace_spec_n (n : nat) :
  forall s, (length s <= n)%nat ->
            decodes_with_replacement s (Utf8.decode_replace s).
Proof.
  induction n as [|n IH]; intros s Hs.
  - destruct s; [constructor | simpl in Hs; lia].
  - destruct s as [|b1 r1]; [constructor|].
    rewrite decode_replace_body. unfold decode_body. cbv zeta.
    pose proof (bval_range b1) as R1.
    repeat match goal with
    | |- context [if Utf8.bval ?b <? ?k then _ else _] =>
      destruct (Z.ltb_spec (Utf8.bval b) k)
    | |- context [if Utf8.bval ?b =? ?k then _ else _] =>
      destruct (Z.eqb_spec (Utf8.bval b) k)
    | |- context [Utf8.is_cont ?b] =>
      let E := fresh "E" in
      destruct (Utf8.is_cont b) eqn:E;
      [apply is_cont_range in E | apply not_cont_range in E]
    | |- context [match ?r with [] => _ | _ :: _ => _ end] =>
      is_var r; let b := fresh "b" in let r' := fresh "r" in
      destruct r as [|b r'];
      [|pose proof (bval_range b)]
    | |- _ => progress cbn [negb orb]
    end.
    all: unfold Utf8.bval in *.
    all: match goal with
         | |- decodes_with_replacement ?input
                (Utf8.REPLACEMENT :: Utf8.decode_replace ?r) =>
           let p := prefix_of input r in
           apply (dr_replace p r);
           [solve_stretch p | apply IH; simpl in Hs |- *; lia]
         | |- decodes_with_replacement ?input [Utf8.REPLACEMENT] =>
           apply (dr_replace input [] []);
           [solve_stretch input | constructor]
         | |- decodes_with_replacement ?input
                (?h :: Utf8.decode_replace ?r) =>
           let p := prefix_of input r in
           apply (dr_char h p r);
           [solve_encodes | apply IH; simpl in Hs |- *; lia]
         end.
Qed.

Lemma decode_replace_spec (s : list byte) :
  decodes_with_replacement s (Utf8.decode_replace s).
Proof. apply (decode_replace_spec_n (length s)). lia. Qed.

(** The specification leaves no choice: a sequence of bytes has one
    decoding. *)
Lemma well_formed_prefix_free (a d : list Z) :
  well_formed_values a -> well_formed_values (a ++ d) -> d = [].
Proof.
  intros Ha Hd. destruct d as [|d1 d]; [reflexivity|]. exfalso.
  list_cases a; list_cases d; cbn [app well_formed_values] in *;
    unfold continuation in *; try contradiction; lia.
Qed.

Lemma scalar_of_utf8_of (c : Z) : 0 <= c -> scalar_of_values (utf8_of c) = c.
Proof.
  unfold utf8_of. intros H.
  destruct (Z.ltb_spec c 128); [reflexivity|].
  destruct (Z.ltb_spec c 2048); [cbn [scalar_of_values]; arith|].
  destruct (Z.ltb_spec c 65536); cbn [scalar_of_values]; arith.
Qed.

Lemma utf8_of_injective (c c' : Z) :
  scalar c -> scalar c' -> utf8_of c = utf8_of c' -> c = c'.
Proof.
  intros [[H _] _] [[H' _] _] E.
  rewrite <- (scalar_of_utf8_of c H), <- (scalar_of_utf8_of c' H').
  now rewrite E.
Qed.

Lemma byte_values_app (a b : list byte) :
  byte_values (a ++ b) = byte_values a ++ byte_values b.
Proof. apply map_app. Qed.

Lemma encodes_prefix_free (c c' : Z) (bs bs' d : list byte) :
  encodes c bs -> encodes c' bs' -> bs' = bs ++ d -> d = [] /\ c = c'.
Proof.
  intros Hc Hc' ->.
  pose proof (encodes_well_formed _ _ Hc) as Hw.
  pose proof (encodes_well_formed _ _ Hc') as Hw'.
  rewrite byte_values_app in Hw'.
  pose proof (well_formed_prefix_free _ _ Hw Hw') as Hd.
  apply map_eq_nil in Hd. subst d. split; [reflexivity|].
  rewrite app_nil_r in Hc'. destruct Hc as [Hs E], Hc' as [Hs' E'].
  apply utf8_of_injective; congruence.
Qed.

Lemma incomplete_prefix (p d : list byte) :
  incomplete (p ++ d) -> incomplete p.
Proof.
  intros (c & bs & tail & Henc & -> & Hne). exists c, ((p ++ d) ++ tail), (d ++ tail).
  split; [exact Henc|]. split; [now rewrite app_assoc|].
  destruct d; [exact Hne | discriminate].
Qed.

Lemma stretch_longer (bad bad' rest rest' d : list byte) :
  replaced_stretch bad rest -> replaced_stretch bad' rest' ->
  bad' = bad ++ d -> rest = d ++ rest' -> d = [].
Proof.
  intros (Hne & _ & Hb) (Hne' & _ & Hb') -> ->.
  destruct d as [|b d]; [reflexivity|]. exfalso.
  assert (Hinc : incomplete (bad ++ b :: d)).
  { destruct Hb' as [[H _]|(b' & E & _)]; [exact H|].
    destruct bad as [|x [|y bad]]; try congruence; discriminate. }
  destruct Hb as [[_ Hmax]|(b0 & -> & Hn)].
  - cbn [app] in Hmax. apply Hmax.
    apply (incomplete_prefix _ d). now rewrite <- app_assoc.
  - apply Hn. apply (incomplete_prefix _ (b :: d)). exact Hinc.
Qed.

Lemma encodes_nonempty (c : Z) (bs : list byte) :
  encodes c bs -> (0 < length bs)%nat.
Proof.
  intros H. apply encodes_well_formed in H.
  destruct bs; [destruct H | simpl; lia].
Qed.

Lemma stretch_nonempty (bad rest : list byte) :
  replaced_stretch bad rest -> (0 < length bad)%nat.
Proof. intros [H _]. destruct bad; [congruence | simpl; lia]. Qed.

Lemma decodes_inv (s : list byte) (t : str) :
  decodes_with_replacement s t ->
  (s = [] /\ t = [])
  \/ (exists c bs rest u,
        encodes c bs /\ decodes_with_replacement rest u
        /\ s = bs ++ rest /\ t = c :: u)
  \/ (exists bad rest u,
        replaced_stretch bad rest /\ decodes_with_replacement rest u
        /\ s = bad ++ rest /\ t = 65533 :: u).
Proof. destruct 1; eauto 12. Qed.

Lemma decodes_functional_n (n : nat) :
  forall s t t', (length s < n)%nat ->
    decodes_with_replacement s t -> decodes_with_replacement s t' -> t = t'.
Proof.
  induction n as [|n IH]; intros s t t' Hs H H'; [lia|].
  apply decodes_inv in H, H'.
  destruct H as [[-> ->]|[(c & bs & rest & u & Henc & Hrest & -> & ->)
                         |(bad & rest & u & Hbad & Hrest & -> & ->)]];
    destruct H' as [[E ->]|[(c' & bs' & rest' & u' & Henc' & Hrest' & E & ->)
                           |(bad' & rest' & u' & Hbad' & Hrest' & E & ->)]].
  - reflexivity.
  - symmetry in E. apply app_eq_nil in E as [-> _].
    apply encodes_nonempty in Henc'. simpl in Henc'. lia.
  - symmetry in E. apply app_eq_nil in E as [-> _].
    apply stretch_nonempty in Hbad'. simpl in Hbad'. lia.
  - apply app_eq_nil in E as [-> _].
    apply encodes_nonempty in Henc. simpl in Henc. lia.
  - pose proof (encodes_nonempty _ _ Henc) as Hl.
    pose proof (encodes_nonempty _ _ Henc') as Hl'.
    rewrite length_app in Hs.
    apply app_eq_app in E as (d & [[-> ->]|[-> ->]]).
    + destruct (encodes_prefix_free _ _ _ _ d Henc' Henc eq_refl) as [-> ->].
      f_equal. apply (IH rest); auto. lia.
    + destruct (encodes_prefix_free _ _ _ _ d Henc Henc' eq_refl) as [-> ->].
      f_equal. apply (IH rest'); auto. cbn [app] in Hrest.
      rewrite length_app in Hs. simpl in Hs. lia.
  - exfalso. destruct Hbad' as (_ & Hill & _).
    apply (Hill c bs rest Henc). now symmetry.
  - apply app_eq_nil in E as [-> _].
    apply stretch_nonempty in Hbad. simpl in Hbad. lia.
  - exfalso. destruct Hbad as (_ & Hill & _).
    apply (Hill c' bs' rest' Henc'). exact E.
  - pose proof (stretch_nonempty _ _ Hbad) as Hl.
    pose proof (stretch_nonempty _ _ Hbad') as Hl'.
    rewrite length_app in Hs. f_equal.
    apply app_eq_app in E as (d & [[-> ->]|[-> ->]]).
    + pose proof (stretch_longer _ _ _ _ d Hbad' Hbad eq_refl eq_refl).
      subst d. apply (IH rest); auto. lia.
    + pose proof (stretch_longer _ _ _ _ d Hbad Hbad' eq_refl eq_refl).
      subst d. cbn [app] in Hrest. apply (IH rest'); auto.
      rewrite length_app in Hs. simpl in Hs. lia.
Qed.

(** The decoder is the one function that meets the specification. *)
Lemma decodes_functional (s : list byte) (t : str) :
  decodes_with_replacement s t -> t = Utf8.decode_replace s.
Proof.
  intros H. apply (decodes_functional_n (S (length s)) s); auto.
  apply decode_replace_spec.
Qed.


(** * The claims *)

(** C1, which the code does not meet. The counters are set to
    zero by [init] alone, and [main] builds the engine once, before the
    loop; [run_search] never resets them. In the scenario run twice in a
    row (three targets each time), the first run reports 3 files out of 3
    and the second run reports 6 files out of 3: after the second run
    [files_processed] is not the number of targets of that run. *)
Theorem second_run_counts_both_runs :
  map (fun r =>
         (files_processed (stats (r_self r)), len (r_submitted r),
          option_map (fun s => (shown_processed s, shown_files s))
                     (r_summary r)))
      (main [demo_world; demo_world] empty_dir)
  = [ (3, 3, Some (3, 3)); (6, 3, Some (6, 3)) ].
Proof. vm_compute. reflexivity. Qed.

(** C2, as stated, fails: a scan that raises adds one to the error
    counter of the engine, inside [search_file] itself. Here the scan of
    the unreadable [c.txt] returns an engine that differs from the one it
    was given. *)
Lemma search_file_mutates_engine :
  fst (search_file demo_fs demo_engine demo_c) <> demo_engine
  /\ errors (stats (fst (search_file demo_fs demo_engine demo_c)))
     = errors (stats demo_engine) + 1.
Proof. split; [discriminate | reflexivity]. Qed.

(** C2, amended. [search_file] leaves the engine untouched when the scan
    succeeds; when the scan raises, it adds one to the error counter in
    place and changes nothing else (processed files, matches, total size
    and query keep their values). The aggregation loop, for its part,
    consumes the outcomes: each outcome adds one to the processed files
    and its number of matches to the matches found, and its matches go
    to the end of the collection; over the whole loop the processed
    files grow by the number of outcomes, the matches found by the sum
    of their matches, and the collection is the matches of the outcomes
    in the order of arrival. The loop never writes the error counter,
    the total size or the query. *)
Theorem search_file_frame :
  forall (fs : FileSystem) (self : Engine) (file_info : FileInfo),
    let self' := fst (search_file fs self file_info) in
    files_processed (stats self') = files_processed (stats self)
    /\ matches_found (stats self') = matches_found (stats self)
    /\ total_size (stats self') = total_size (stats self)
    /\ query self' = query self
    /\ errors (stats self')
       = errors (stats self) + (if scan_fails fs self file_info then 1 else 0)
    /\ (if scan_fails fs self file_info
        then outcome_matches (snd (search_file fs self file_info)) = []
        else self' = self)
    /\ (forall os, errors (stats (l_self (aggregate self os)))
                   = errors (stats self))
    /\ (forall (st : Loop) (o : Outcome),
          files_processed (stats (l_self (accept st o)))
          = files_processed (stats (l_self st)) + 1
          /\ matches_found (stats (l_self (accept st o)))
             = matches_found (stats (l_self st)) + len (outcome_matches o)
          /\ errors (stats (l_self (accept st o)))
             = errors (stats (l_self st))
          /\ total_size (stats (l_self (accept st o)))
             = total_size (stats (l_self st))
          /\ query (l_self (accept st o)) = query (l_self st)
          /\ l_all_matches (accept st o)
             = l_all_matches st ++ outcome_matches o)
    /\ (forall os : list Outcome,
          files_processed (stats (l_self (aggregate self os)))
          = files_processed (stats self) + len os
          /\ matches_found (stats (l_self (aggregate self os)))
             = matches_found (stats self) + sum_matches os
          /\ total_size (stats (l_self (aggregate self os)))
             = total_size (stats self)
          /\ query (l_self (aggregate self os)) = query self
          /\ l_all_matches (aggregate self os)
             = concat (map outcome_matches os)).
Proof.
  intros fs self file_info self'. subst self'.
  assert (Hloop : forall os,
             files_processed (stats (l_self (aggregate self os)))
             = files_processed (stats self) + len os
             /\ matches_found (stats (l_self (aggregate self os)))
                = matches_found (stats self) + sum_matches os
             /\ errors (stats (l_self (aggregate self os)))
                = errors (stats self)
             /\ total_size (stats (l_self (aggregate self os)))
                = total_size (stats self)
             /\ query (l_self (aggregate self os)) = query self
             /\ l_all_matches (aggregate self os)
                = concat (map outcome_matches os)).
  { intros os. unfold aggregate.
    destruct (fold_accept_spec os
                {| l_self := self; l_all_matches := [];
                   l_warnings := [] |}) as (H1 & H2 & H3 & H4 & H5 & H6 & _).
    cbn [l_self l_all_matches app] in *. auto 10. }
  assert (Hstep : forall (st : Loop) (o : Outcome),
             files_processed (stats (l_self (accept st o)))
             = files_processed (stats (l_self st)) + 1
             /\ matches_found (stats (l_self (accept st o)))
                = matches_found (stats (l_self st)) + len (outcome_matches o)
             /\ errors (stats (l_self (accept st o)))
                = errors (stats (l_self st))
             /\ total_size (stats (l_self (accept st o)))
                = total_size (stats (l_self st))
             /\ query (l_self (accept st o)) = query (l_self st)
             /\ l_all_matches (accept st o)
                = l_all_matches st ++ outcome_matches o).
  { intros st o.
    destruct (accept_spec st o) as (H1 & H2 & H3 & H4 & H5 & H6 & _).
    auto 10. }
  rewrite search_file_engine.
  pose proof (failed_outcome fs self file_info) as Hfail.
  assert (Herr : forall os, errors (stats (l_self (aggregate self os)))
                            = errors (stats self)).
  { intros os. now destruct (Hloop os) as (_ & _ & H & _). }
  assert (Hrest : forall os : list Outcome,
             files_processed (stats (l_self (aggregate self os)))
             = files_processed (stats self) + len os
             /\ matches_found (stats (l_self (aggregate self os)))
                = matches_found (stats self) + sum_matches os
             /\ total_size (stats (l_self (aggregate self os)))
                = total_size (stats self)
             /\ query (l_self (aggregate self os)) = query self
             /\ l_all_matches (aggregate self os)
                = concat (map outcome_matches os)).
  { intros os. destruct (Hloop os) as (H1 & H2 & _ & H4 & H5 & H6). auto 10. }
  destruct (scan_fails fs self file_info); cbn -[aggregate accept Z.add];
    (split; [|split; [|split; [|split; [|split; [|split; [|split; [|split]]]]]]]);
    auto; lia.
Qed.

(** C3. For a file that contains exactly [k] non-overlapping occurrences
    of the query, [search_file] returns exactly [k] match records; each
    carries the path of the file and the offset of an occurrence, the
    offsets ascend and each one lies at or after the end of the previous
    match; they are the offsets found by the left-to-right scan for the
    bytes of the query, the query being escaped and so never read as a
    pattern. *)
Theorem search_file_counts_occurrences :
  forall (fs : FileSystem) (self : Engine) (file_info : FileInfo)
         (q : str) (qb mm : list byte) (k : Z),
    query self = Some q -> Utf8.encode q = inr qb -> qb <> [] ->
    fs (path file_info) = inr mm ->
    contains_exactly qb mm k ->
    let ms := outcome_matches (snd (search_file fs self file_info)) in
    len ms = k
    /\ Forall (fun r => file r = path file_info
                        /\ occurs_at qb mm (position r)) ms
    /\ spaced_from (len qb) 0 (map position ms)
    /\ map position ms = map Re.m_start (Re.scan_literal qb mm 0 O).
Proof.
  intros fs self file_info q qb mm k Hq He Hne Hf Hk ms.
  pose proof (search_file_positions fs self file_info q qb mm Hq He Hne Hf)
    as Hpos.
  fold ms in Hpos.
  assert (Hlen : len ms = len (Re.scan_literal qb mm 0 O)).
  { rewrite <- (len_map position ms), Hpos. apply len_map. }
  destruct (scan_counts qb mm Hne) as [(ps & Hps & Hkk) Hmax].
  repeat split.
  - rewrite Hlen. eapply contains_exactly_unique; [|exact Hk].
    now apply scan_counts.
  - apply Forall_forall. intros r Hr. split.
    + subst ms. unfold search_file in Hr.
      destruct (search_file_try fs self file_info) as [e|l] eqn:Et;
        unfold outcome_matches in Hr; simpl in Hr; [contradiction|].
      destruct mm as [|b mm].
      * rewrite search_file_try_empty in Et by assumption. discriminate.
      * rewrite (search_file_try_scan fs self file_info q qb b mm) in Et
          by assumption.
        injection Et as <-. apply in_map_iff in Hr as (s & <- & _).
        reflexivity.
    + assert (Hin : In (position r) (map position ms)) by now apply in_map.
      rewrite Hpos in Hin. apply in_map_iff in Hin as (s & Hs & Hin).
      destruct (scan_sound qb mm _ _ _ Hin) as (d & H1 & _ & H3 & H4 & _).
      apply occurs_at_iff. exists d. repeat split; auto. lia.
  - rewrite Hpos. apply (scan_spaced qb mm 0 O).
  - exact Hpos.
Qed.

Lemma search_file_counts_occurrences_witness :
  contains_exactly (bytes "foo") (bytes "foo bar foo") 2
  /\ (let ms := outcome_matches (snd (search_file demo_fs demo_engine demo_a)) in
      len ms = 2
      /\ Forall (fun r => file r = path demo_a
                          /\ occurs_at (bytes "foo") (bytes "foo bar foo")
                                       (position r)) ms
      /\ spaced_from (len (bytes "foo")) 0 (map position ms)
      /\ map position ms
         = map Re.m_start
               (Re.scan_literal (bytes "foo") (bytes "foo bar foo") 0 O)).
Proof.
  assert (H : contains_exactly (bytes "foo") (bytes "foo bar foo") 2).
  { apply (scan_counts (bytes "foo") (bytes "foo bar foo")). discriminate. }
  split; [exact H|].
  apply (search_file_counts_occurrences demo_fs demo_engine demo_a
           (of_string "foo") (bytes "foo") (bytes "foo bar foo") 2);
    [reflexivity | reflexivity | discriminate | reflexivity | exact H].
Defined.

(** C4. The context of every match record is built from the window of at
    most 50 bytes before the match and at most 50 bytes after it, cut at
    the two ends of the file: the file is [pre ++ before ++ query ++ after
    ++ post] with [before] the [min 50 position] bytes that precede the
    match and [after] the [min 50 (bytes left)] that follow it; a match at
    offset 0 has nothing before it, a match that ends the file nothing
    after it. The window is decoded with [errors='replace']: the decoded
    text holds scalar values only, and a window that is the UTF-8
    encoding of a text decodes to that text. In general the decoded text
    is the one that [decodes_with_replacement] describes, a
    specification written apart from the decoder, from the arithmetic of
    UTF-8: every well-formed sequence gives its character, every
    ill-formed stretch (the longest beginning of a character, or one
    byte that can begin none) gives one U+FFFD, and no byte is dropped;
    only one text meets it. The context is the decoded text without its
    leading and trailing whitespace, the whitespace being the characters
    of the list [unicode_whitespace], and nothing else is taken off. *)
Theorem search_file_context_window :
  forall (fs : FileSystem) (self : Engine) (file_info : FileInfo)
         (q : str) (qb mm : list byte) (r : MatchRecord),
    query self = Some q -> Utf8.encode q = inr qb ->
    fs (path file_info) = inr mm ->
    In r (outcome_matches (snd (search_file fs self file_info))) ->
    exists pre before after post,
      mm = pre ++ before ++ qb ++ after ++ post
      /\ len (pre ++ before) = position r
      /\ len before = Z.min 50 (position r)
      /\ len after = Z.min 50 (len mm - (position r + len qb))
      /\ (position r = 0 -> pre = [] /\ before = [])
      /\ (position r + len qb = len mm -> after = [] /\ post = [])
      /\ context r = strip (Utf8.decode_replace (before ++ qb ++ after))
      /\ trimmed (Utf8.decode_replace (before ++ qb ++ after)) (context r)
      /\ Forall scalar (Utf8.decode_replace (before ++ qb ++ after))
      /\ (forall t i, Utf8.encode_from t i = inr (before ++ qb ++ after) ->
          context r = strip t)
      /\ (exists decoded,
            decodes_with_replacement (before ++ qb ++ after) decoded
            /\ stripped_of_whitespace decoded (context r))
      /\ (forall decoded,
            decodes_with_replacement (before ++ qb ++ after) decoded ->
            stripped_of_whitespace decoded (context r)).
Proof.
  intros fs self file_info q qb mm r Hq He Hf Hr.
  destruct (search_file_matches fs self file_info q qb mm r Hq He Hf Hr)
    as (s & Hs & ->).
  destruct (scan_sound qb mm _ _ _ Hs) as (d & H1 & _ & H3 & H4 & H5).
  assert (Hocc : occurs_at qb mm (Re.m_start s)).
  { apply occurs_at_iff. exists d. repeat split; auto. }
  destruct Hocc as (pre0 & post0 & Hmm & Hp).
  set (a := Z.to_nat (Z.max 0 (len pre0 - 50))).
  exists (firstn a pre0), (skipn a pre0), (firstn 50 post0), (skipn 50 post0).
  pose proof (len_nonneg pre0) as Hn0. pose proof (len_nonneg qb) as Hn1.
  pose proof (len_nonneg post0) as Hn2.
  assert (Hbefore : len (skipn a pre0) = Z.min 50 (len pre0)).
  { unfold len in *. rewrite length_skipn. unfold a, len. lia. }
  assert (Hafter : len (firstn 50 post0) = Z.min 50 (len post0)).
  { unfold len. rewrite length_firstn. lia. }
  assert (Hctx : context (match_record (path file_info) mm s)
                 = strip (Utf8.decode_replace
                            (skipn a pre0 ++ qb ++ firstn 50 post0))).
  { unfold match_record. simpl context. f_equal. f_equal.
    rewrite H5, <- Hp, Hmm.
    apply slice_context. }
  simpl position. rewrite <- Hp.
  split.
  { rewrite Hmm. rewrite (app_assoc (firstn a pre0)), firstn_skipn.
    rewrite <- (firstn_skipn 50 post0) at 1. reflexivity. }
  split; [now rewrite firstn_skipn|].
  split; [exact Hbefore|].
  split.
  { rewrite Hafter, Hmm, !len_app. f_equal. lia. }
  split.
  { intros Hz. assert (pre0 = []) as ->.
    { destruct pre0; [reflexivity | rewrite len_cons in Hz; pose proof (len_nonneg pre0); lia]. }
    destruct a; auto. }
  split.
  { intros Hend. rewrite Hmm, !len_app in Hend.
    assert (post0 = []) as ->.
    { destruct post0; [reflexivity | rewrite len_cons in Hend; pose proof (len_nonneg post0); lia]. }
    auto. }
  split; [exact Hctx|].
  split; [rewrite Hctx; apply strip_trimmed|].
  split; [apply decode_replace_scalar|].
  split.
  { intros t i Ht. rewrite Hctx. now rewrite (decode_encode t i _ Ht). }
  split.
  { eexists. split; [apply decode_replace_spec|].
    rewrite Hctx. apply trimmed_stripped, strip_trimmed. }
  intros decoded Hd. apply decodes_functional in Hd. subst decoded.
  rewrite Hctx. apply trimmed_stripped, strip_trimmed.
Qed.

Lemma search_file_context_window_witness :
  exists r pre before after post,
    In r (outcome_matches (snd (search_file demo_fs demo_engine demo_a)))
    /\ bytes "foo bar foo" = pre ++ before ++ bytes "foo" ++ after ++ post
    /\ len (pre ++ before) = position r
    /\ context r = strip (Utf8.decode_replace (before ++ bytes "foo" ++ after)).
Proof.
  set (r := {| file := of_string "a.txt"; context := of_string "foo bar foo";
               position := 8 |}).
  assert (Hin : In r (outcome_matches
                        (snd (search_file demo_fs demo_engine demo_a)))).
  { vm_compute. right. left. reflexivity. }
  destruct (search_file_context_window demo_fs demo_engine demo_a
              (of_string "foo") (bytes "foo") (bytes "foo bar foo") r
              eq_refl eq_refl eq_refl Hin)
    as (pre & before & after & post & H1 & H2 & _ & _ & _ & _ & H7 & _).
  exists r, pre, before, after, post. auto.
Defined.



(** C6, which the code does not meet. [matches_found] is never
    reset between the runs of one session either: in the scenario run
    twice in a row, the outcomes of each run hold 2 matches; after the
    first run [matches_found] is 2, after the second it is 4. *)
Theorem second_run_sums_both_runs :
  map (fun r => matches_found (stats (r_self r)))
      (main [demo_world; demo_world] empty_dir)
  = [2; 4]
  /\ sum_matches
       (outcomes (fs demo_world) demo_engine [demo_a; demo_b; demo_c]) = 2.
Proof. split; vm_compute; reflexivity. Qed.

(** C7. The aggregation does not depend on the order in which the
    outcomes arrive: two arrival orders of the same outcomes give the
    same counters (processed files, matches, errors), collections that
    are permutations of each other, and inside each collection the
    matches of every outcome stand together in their own order; when
    every path has one outcome whose records carry that path, the records
    of each file form the same list in both collections. *)
Theorem aggregate_order_independent :
  forall (self : Engine) (os os' : list Outcome),
    Permutation os os' ->
    let st := aggregate self os in
    let st' := aggregate self os' in
    l_self st = l_self st'
    /\ Permutation (l_all_matches st) (l_all_matches st')
    /\ (forall o, In o os ->
          exists a b a' b',
            l_all_matches st = a ++ outcome_matches o ++ b
            /\ l_all_matches st' = a' ++ outcome_matches o ++ b')
    /\ (Forall well_formed os -> NoDup (map outcome_path os) ->
        forall p, of_file p (l_all_matches st) = of_file p (l_all_matches st')).
Proof.
  intros self os os' Hperm st st'. subst st st'. unfold aggregate.
  set (st0 := {| l_self := self; l_all_matches := []; l_warnings := [] |}).
  destruct (fold_accept_spec os st0) as (A1 & A2 & A3 & A4 & A5 & A6 & _).
  destruct (fold_accept_spec os' st0) as (B1 & B2 & B3 & B4 & B5 & B6 & _).
  cbn [st0 l_self l_all_matches app] in *.
  split.
  { rewrite (len_perm _ _ Hperm) in A1.
    rewrite (sum_matches_perm _ _ Hperm) in A2.
    destruct (l_self (fold_left accept os st0)) as [[a1 a2 a3 a4] aq].
    destruct (l_self (fold_left accept os' st0)) as [[b1 b2 b3 b4] bq].
    cbn in *. congruence. }
  rewrite A6, B6.
  split; [now apply concat_matches_perm|].
  split.
  { intros o Ho.
    destruct (concat_matches_block os o Ho) as (a & b & ->).
    destruct (concat_matches_block os' o (Permutation_in _ Hperm Ho))
      as (a' & b' & ->).
    exists a, b, a', b'. auto. }
  intros Hwf Hnd p.
  assert (Hwf' : Forall well_formed os').
  { rewrite Forall_forall in *. intros o Ho. apply Hwf.
    eapply Permutation_in; [apply Permutation_sym|]; eauto. }
  assert (Hnd' : NoDup (map outcome_path os')).
  { eapply Permutation_NoDup; [|exact Hnd]. now apply Permutation_map. }
  rewrite !of_file_concat by assumption.
  now rewrite (find_perm p os os' Hnd Hperm).
Qed.

Lemma aggregate_order_independent_witness :
  let os := outcomes demo_fs demo_engine [demo_a; demo_b; demo_c] in
  Permutation os (rev os)
  /\ l_self (aggregate demo_engine os) = l_self (aggregate demo_engine (rev os))
  /\ Permutation (l_all_matches (aggregate demo_engine os))
                 (l_all_matches (aggregate demo_engine (rev os))).
Proof.
  intros os.
  destruct (aggregate_order_independent demo_engine os (rev os)
              (Permutation_rev os)) as (H1 & H2 & _).
  split; [apply Permutation_rev|]. split; assumption.
Defined.

(** C8. A query that is empty once stripped ends the run before the
    scan: no task is submitted to the executor, so [search_file] is never
    called; the counters of processed files, matches and errors keep
    their values, no warning and no summary is printed and the results
    directory is left as it was. *)
Theorem empty_query_is_rejected :
  forall (w : World) (self : Engine) (rd : ResultsDir) (folder : str),
    strip (query_line w) = [] ->
    let r := run_search w self rd folder in
    r_submitted r = []
    /\ r_dir r = rd
    /\ r_warnings r = []
    /\ r_summary r = None
    /\ files_processed (stats (r_self r)) = files_processed (stats self)
    /\ matches_found (stats (r_self r)) = matches_found (stats self)
    /\ errors (stats (r_self r)) = errors (stats self).
Proof.
  intros w self rd folder Hq r. subst r.
  apply run_search_early. right. now rewrite Hq.
Qed.

Lemma empty_query_is_rejected_witness :
  strip (query_line (demo_world_with (of_string "   "))) = []
  /\ r_submitted
       (run_search (demo_world_with (of_string "   ")) init empty_dir
                   (of_string "db")) = [].
Proof.
  split; [reflexivity|].
  apply (empty_query_is_rejected (demo_world_with (of_string "   ")) init
           empty_dir (of_string "db") eq_refl).
Defined.

(** C9, as stated, fails: the substitution of [save_results] replaces the
    nine characters of its class and nothing else. A NUL character in
    the query (here [a], NUL, [b], which [strip] leaves as it is) goes
    into the name of the results file, and no file system takes a name
    with a NUL in it. *)
Lemma result_file_keeps_nul :
  strip [97; 0; 98] = [97; 0; 98]
  /\ In 0 (result_file [97; 0; 98])
  /\ posix_name_ok (result_file [97; 0; 98]) = false
  /\ windows_name_ok (result_file [97; 0; 98]) = false.
Proof.
  split; [reflexivity|]. split; [|split; vm_compute; reflexivity].
  vm_compute. do 9 right. left. reflexivity.
Qed.

(** C9, amended. The identifier is the query with each of the nine
    reserved characters (double quote, star, slash, colon, less-than,
    greater-than, question mark, backslash, vertical bar: the list
    [reserved_characters], written out apart from the class of the
    code) replaced by an underscore, every other character kept, cut to
    its first 50 characters; the name of the results file therefore
    holds none of the nine characters. It is a valid POSIX file name
    when the query has no NUL and is encodable, and a valid Windows file
    name when the query has no control character. *)
Theorem result_file_sanitized :
  forall q : str,
    safe_query q = firstn 50 (map sanitize_char q)
    /\ Forall (fun c => ~ In c reserved_characters) (result_file q)
    /\ (Forall (fun c => c <> 0) q -> encodable q ->
        posix_name_ok (result_file q) = true)
    /\ (Forall (fun c => 32 <= c) q ->
        windows_name_ok (result_file q) = true).
Proof.
  intros q.
  assert (Hclean : Forall (fun c => is_reserved c = false) (result_file q)).
  { apply result_file_Forall.
    - repeat constructor.
    - intros c _. apply sanitize_char_clean. }
  split; [apply safe_query_eq|]. split.
  { eapply Forall_impl; [|exact Hclean]. intros c Hc Hin.
    apply is_reserved_In in Hin. congruence. }
  split.
  - intros Hnul Henc.
    assert (Henc' : encodable (result_file q)).
    { apply result_file_Forall.
      - repeat constructor; discriminate.
      - intros c Hc. unfold sanitize_char.
        destruct (is_reserved c); [discriminate|].
        unfold encodable in Henc. rewrite Forall_forall in Henc. auto. }
    assert (Hnul' : Forall (fun c => c <> 0) (result_file q)).
    { apply result_file_Forall.
      - repeat constructor; discriminate.
      - intros c Hc. unfold sanitize_char.
        destruct (is_reserved c); [discriminate|].
        rewrite Forall_forall in Hnul. auto. }
    assert (Hslash : Forall (fun c => c <> 47) (result_file q)).
    { eapply Forall_impl; [|exact Hclean]. intros c Hc ->. discriminate. }
    destruct (encodable_encode_from _ Henc' 0) as (bs & Hbs & Hlen).
    unfold posix_name_ok, Utf8.encode. rewrite Hbs.
    rewrite (existsb_false_Forall 0), (existsb_false_Forall 47) by assumption.
    pose proof (result_file_length q) as Hl.
    assert (Hle : (len bs <=? 255) = true) by (apply Z.leb_le; unfold len; lia).
    rewrite Hle. rewrite result_file_eq. reflexivity.
  - intros Hctl. unfold windows_name_ok.
    assert (Hall : forallb (fun c => (32 <=? c) && negb (is_reserved c))
                           (result_file q) = true).
    { apply forallb_forall. apply Forall_forall.
      apply result_file_Forall.
      - repeat constructor.
      - intros c Hc. rewrite sanitize_char_clean. unfold sanitize_char.
        rewrite Forall_forall in Hctl. specialize (Hctl c Hc).
        destruct (is_reserved c); [reflexivity|].
        cbn [negb]. rewrite andb_true_r. apply Z.leb_le. exact Hctl. }
    rewrite Hall.
    pose proof (utf16_units_bound (result_file q)) as Hu.
    pose proof (result_file_length q) as Hl.
    assert (Hle : (utf16_units (result_file q) <=? 255) = true)
      by (apply Z.leb_le; unfold len in Hu; lia).
    rewrite Hle. rewrite result_file_eq.
    rewrite (app_assoc _ (safe_query q)), rev_app_distr. reflexivity.
Qed.

Lemma result_file_sanitized_witness :
  result_file (of_string "a/b:c") = of_string "results_a_b_c.txt"
  /\ posix_name_ok (result_file (of_string "a/b:c")) = true
  /\ windows_name_ok (result_file (of_string "a/b:c")) = true.
Proof.
  destruct (result_file_sanitized (of_string "a/b:c")) as (_ & _ & Hp & Hw).
  split; [reflexivity|]. split.
  - apply Hp; repeat constructor; discriminate.
  - apply Hw; repeat constructor; discriminate.
Defined.

(** C10. [save_results] returns at once on an empty list of matches and
    writes nothing; so a run whose scans found no match leaves the
    results directory exactly as it was. *)
Theorem no_match_no_results_file :
  forall (w : World) (self : Engine) (rd : ResultsDir) (folder : str),
    fair w ->
    sum_matches (outcomes (fs w) (run_engine w self folder)
                          (run_files w self folder)) = 0 ->
    (forall ok s, save_results ok s [] rd = rd)
    /\ r_dir (run_search w self rd folder) = rd.
Proof.
  intros w self rd folder Hfair Hsum. split; [reflexivity|].
  destruct (run_files w self folder) as [|f files] eqn:Ef.
  { apply run_search_early. now left. }
  destruct (truthy (strip (query_line w))) eqn:Eq.
  2:{ apply run_search_early. now right. }
  assert (Hne : run_files w self folder <> []) by (rewrite Ef; discriminate).
  destruct (run_search_counters w self rd folder Hfair Hne Eq)
    as (_ & _ & _ & _ & Hperm).
  rewrite (run_search_complete w self rd folder Hne Eq). cbn [r_dir].
  rewrite Ef in *. rewrite sum_matches_concat in Hsum.
  destruct (concat (map outcome_matches
                      (outcomes (fs w) (run_engine w self folder) (f :: files))))
    as [|m ms].
  - apply Permutation_sym, Permutation_nil in Hperm. now rewrite Hperm.
  - rewrite len_cons in Hsum. pose proof (len_nonneg ms). lia.
Qed.

Lemma no_match_no_results_file_witness :
  r_dir (run_search (demo_world_with (of_string "zebra")) init empty_dir
                    (of_string "db")) = empty_dir.
Proof.
  apply (no_match_no_results_file (demo_world_with (of_string "zebra")) init
           empty_dir (of_string "db") (demo_world_fair _)).
  reflexivity.
Defined.

(** * Further properties of the engine *)

(** ** What the scan reports and what it leaves out *)

Section LiteralCoverage.

Import Re.

Variable pat : list byte.
Hypothesis pat_not_empty : pat <> [].

Lemma starts_with_nil_false : starts_with pat [] = false.
Proof. destruct pat; [congruence | reflexivity]. Qed.

(** An occurrence that the scan does not report starts inside a match
    that the scan did report. *)
Lemma scan_covers (text : list byte) :
  forall pos skip d,
    (skip <= d)%nat ->
    starts_with pat (skipn d text) = true ->
    exists s,
      In s (scan_literal pat text pos skip)
      /\ m_start s <= pos + Z.of_nat d < m_start s + len pat.
Proof.
  induction text as [|b rest IH]; intros pos skip d Hd Hs.
  - rewrite skipn_nil, starts_with_nil_false in Hs. discriminate.
  - destruct skip as [|k]; simpl scan_literal.
    + destruct (starts_with pat (b :: rest)) eqn:E.
      * destruct (Nat.lt_ge_cases d (length pat)) as [Hlt|Hge].
        -- eexists. split; [left; reflexivity|]. simpl m_start.
           unfold len. lia.
        -- destruct d as [|d']; [destruct pat; simpl in *; [congruence|lia]|].
           destruct (IH (pos + 1) (Nat.pred (length pat)) d') as (s & Hin & Hr);
             [lia | exact Hs |].
           exists s. split; [now right | lia].
      * destruct d as [|d']; [simpl in Hs; congruence|].
        destruct (IH (pos + 1) O d') as (s & Hin & Hr); [lia | exact Hs |].
        exists s. split; [exact Hin | lia].
    + destruct d as [|d']; [lia|].
      destruct (IH (pos + 1) k d') as (s & Hin & Hr); [lia | exact Hs |].
      exists s. split; [exact Hin | lia].
Qed.

End LiteralCoverage.

Lemma spaced_from_total (n lo L : Z) (ps : list Z) :
  0 <= n -> lo <= L -> spaced_from n lo ps ->
  (forall p, In p ps -> p + n <= L) ->
  lo + n * len ps <= L.
Proof.
  intros Hn. revert lo. induction ps as [|p r IH]; intros lo Hlo Hsp Hb.
  - unfold len. simpl. lia.
  - destruct Hsp as [Hp Hr]. rewrite len_cons.
    assert (Hpb : p + n <= L) by (apply Hb; now left).
    specialize (IH (p + n) Hpb Hr (fun q Hq => Hb q (or_intror Hq))).
    lia.
Qed.

(** The records of a readable file with the positions of the scan. *)
Lemma search_file_record_of_span (fs : FileSystem) (self : Engine)
  (file_info : FileInfo) (q : str) (qb mm : list byte) (s : Re.span) :
  query self = Some q -> Utf8.encode q = inr qb -> qb <> [] ->
  fs (path file_info) = inr mm ->
  In s (Re.scan_literal qb mm 0 O) ->
  exists r,
    In r (outcome_matches (snd (search_file fs self file_info)))
    /\ position r = Re.m_start s.
Proof.
  intros Hq He Hne Hf Hs.
  pose proof (search_file_positions fs self file_info q qb mm Hq He Hne Hf)
    as Hpos.
  assert (Hin : In (Re.m_start s)
                   (map position
                        (outcome_matches (snd (search_file fs self file_info))))).
  { rewrite Hpos. now apply in_map. }
  apply in_map_iff in Hin as (r & Hr & Hin). eauto.
Qed.

(** X1. Every occurrence of the query in a readable file is reported, or
    starts inside a reported match that begins before it. *)
Theorem search_file_covers_occurrences :
  forall (fs : FileSystem) (self : Engine) (file_info : FileInfo)
         (q : str) (qb mm : list byte) (p : Z),
    query self = Some q -> Utf8.encode q = inr qb -> qb <> [] ->
    fs (path file_info) = inr mm ->
    occurs_at qb mm p ->
    exists r,
      In r (outcome_matches (snd (search_file fs self file_info)))
      /\ position r <= p < position r + len qb.
Proof.
  intros fs self file_info q qb mm p Hq He Hne Hf Hocc.
  apply occurs_at_iff in Hocc as (d & -> & _ & Hs).
  destruct (scan_covers qb Hne mm 0 O d (Nat.le_0_l d) Hs) as (s & Hin & Hr).
  destruct (search_file_record_of_span fs self file_info q qb mm s
              Hq He Hne Hf Hin) as (r & Hr1 & Hr2).
  exists r. split; [exact Hr1 | lia].
Qed.

Lemma search_file_covers_occurrences_witness :
  occurs_at (bytes "aa") (bytes "aaaaa") 3
  /\ exists r,
       In r (outcome_matches
               (snd (search_file (fun _ => inr (bytes "aaaaa"))
                       (set_query init (of_string "aa")) demo_a)))
       /\ position r <= 3 < position r + 2.
Proof.
  assert (H : occurs_at (bytes "aa") (bytes "aaaaa") 3).
  { exists (bytes "aaa"), (bytes ""). split; reflexivity. }
  split; [exact H|].
  apply (search_file_covers_occurrences (fun _ => inr (bytes "aaaaa"))
           (set_query init (of_string "aa")) demo_a (of_string "aa")
           (bytes "aa") (bytes "aaaaa") 3);
    [reflexivity | reflexivity | discriminate | reflexivity | exact H].
Defined.

(** X2. A readable file yields no match record exactly when the bytes of
    the query occur nowhere in it. *)
Theorem search_file_empty_iff_absent :
  forall (fs : FileSystem) (self : Engine) (file_info : FileInfo)
         (q : str) (qb mm : list byte),
    query self = Some q -> Utf8.encode q = inr qb -> qb <> [] ->
    fs (path file_info) = inr mm ->
    (outcome_matches (snd (search_file fs self file_info)) = []
     <-> forall p, ~ occurs_at qb mm p).
Proof.
  intros fs self file_info q qb mm Hq He Hne Hf. split.
  - intros Hnil p Hocc. apply occurs_at_iff in Hocc as (d & -> & _ & Hs).
    destruct (scan_covers qb Hne mm 0 O d (Nat.le_0_l d) Hs) as (s & Hin & _).
    destruct (search_file_record_of_span fs self file_info q qb mm s
                Hq He Hne Hf Hin) as (r & Hr & _).
    rewrite Hnil in Hr. destruct Hr.
  - intros Hno.
    destruct (outcome_matches (snd (search_file fs self file_info)))
      as [|r ms] eqn:E; [reflexivity|]. exfalso.
    assert (Hr : In r (outcome_matches (snd (search_file fs self file_info))))
      by (rewrite E; now left).
    destruct (search_file_matches fs self file_info q qb mm r Hq He Hf Hr)
      as (s & Hs & ->).
    destruct (scan_sound qb mm _ _ _ Hs) as (d & H1 & _ & H3 & H4 & _).
    apply (Hno (Re.m_start s)). apply occurs_at_iff.
    exists d. repeat split; auto.
Qed.

Lemma search_file_empty_iff_absent_witness :
  outcome_matches (snd (search_file demo_fs demo_engine demo_b)) = []
  <-> forall p, ~ occurs_at (bytes "foo") (bytes "nothing here") p.
Proof.
  apply (search_file_empty_iff_absent demo_fs demo_engine demo_b
           (of_string "foo") (bytes "foo") (bytes "nothing here"));
    [reflexivity | reflexivity | discriminate | reflexivity].
Defined.

(** X3. The first record of a file is its leftmost occurrence of the
    query: no occurrence starts before it. *)
Theorem search_file_first_is_leftmost :
  forall (fs : FileSystem) (self : Engine) (file_info : FileInfo)
         (q : str) (qb mm : list byte) (r : MatchRecord)
         (rest : list MatchRecord),
    query self = Some q -> Utf8.encode q = inr qb -> qb <> [] ->
    fs (path file_info) = inr mm ->
    outcome_matches (snd (search_file fs self file_info)) = r :: rest ->
    occurs_at qb mm (position r)
    /\ forall p, occurs_at qb mm p -> position r <= p.
Proof.
  intros fs self file_info q qb mm r rest Hq He Hne Hf Hms.
  pose proof (search_file_positions fs self file_info q qb mm Hq He Hne Hf)
    as Hpos.
  rewrite Hms in Hpos. cbn [map] in Hpos.
  pose proof (scan_spaced qb mm 0 O) as Hsp. rewrite <- Hpos in Hsp.
  destruct Hsp as [_ Hsp]. split.
  - assert (Hr : In r (outcome_matches (snd (search_file fs self file_info))))
      by (rewrite Hms; now left).
    destruct (search_file_matches fs self file_info q qb mm r Hq He Hf Hr)
      as (s & Hs & ->).
    destruct (scan_sound qb mm _ _ _ Hs) as (d & H1 & _ & H3 & H4 & _).
    apply occurs_at_iff. exists d. repeat split; auto.
  - intros p Hocc. apply occurs_at_iff in Hocc as (d & -> & _ & Hs).
    destruct (scan_covers qb Hne mm 0 O d (Nat.le_0_l d) Hs) as (s & Hin & Hr).
    assert (Hin' : In (Re.m_start s) (position r :: map position rest)).
    { rewrite Hpos. now apply in_map. }
    destruct Hin' as [Heq|Hin']; [lia|].
    pose proof (len_nonneg qb).
    pose proof (spaced_from_In (len qb) _ _ _ H Hsp Hin'). lia.
Qed.

Lemma search_file_first_is_leftmost_witness :
  exists r rest,
    outcome_matches (snd (search_file demo_fs demo_engine demo_a)) = r :: rest
    /\ position r = 0
    /\ forall p, occurs_at (bytes "foo") (bytes "foo bar foo") p ->
                 position r <= p.
Proof.
  eexists. eexists. split; [reflexivity|]. split; [reflexivity|].
  apply (search_file_first_is_leftmost demo_fs demo_engine demo_a
           (of_string "foo") (bytes "foo") (bytes "foo bar foo") _ _
           eq_refl eq_refl ltac:(discriminate) eq_refl eq_refl).
Defined.

(** X4. The matches of a file fit in it one after the other: every
    position is a valid offset, the match it starts ends inside the
    file, and the number of records times the length of the query is at
    most the size of the file. *)
Theorem search_file_matches_fit :
  forall (fs : FileSystem) (self : Engine) (file_info : FileInfo)
         (q : str) (qb mm : list byte),
    query self = Some q -> Utf8.encode q = inr qb -> qb <> [] ->
    fs (path file_info) = inr mm ->
    let ms := outcome_matches (snd (search_file fs self file_info)) in
    Forall (fun r => 0 <= position r /\ position r + len qb <= len mm) ms
    /\ len ms * len qb <= len mm.
Proof.
  intros fs self file_info q qb mm Hq He Hne Hf ms.
  assert (Hall : Forall (fun r => 0 <= position r
                                  /\ position r + len qb <= len mm) ms).
  { apply Forall_forall. intros r Hr.
    destruct (search_file_matches fs self file_info q qb mm r Hq He Hf Hr)
      as (s & Hs & ->).
    destruct (scan_sound qb mm _ _ _ Hs) as (d & H1 & _ & H3 & _).
    simpl position. unfold len. lia. }
  split; [exact Hall|].
  pose proof (search_file_positions fs self file_info q qb mm Hq He Hne Hf)
    as Hpos. fold ms in Hpos.
  pose proof (scan_spaced qb mm 0 O) as Hsp. rewrite <- Hpos in Hsp.
  pose proof (len_nonneg qb). pose proof (len_nonneg mm).
  pose proof (spaced_from_total (len qb) 0 (len mm) (map position ms)) as Ht.
  rewrite len_map in Ht. cbn in Hsp.
  assert (0 + len qb * len ms <= len mm); [|lia].
  apply Ht; auto; try lia.
  intros p Hp. apply in_map_iff in Hp as (r & <- & Hr).
  rewrite Forall_forall in Hall. apply Hall. exact Hr.
Qed.

Lemma search_file_matches_fit_witness :
  len (outcome_matches (snd (search_file demo_fs demo_engine demo_a)))
  * len (bytes "foo") <= len (bytes "foo bar foo").
Proof.
  apply (search_file_matches_fit demo_fs demo_engine demo_a
           (of_string "foo") (bytes "foo") (bytes "foo bar foo"));
    [reflexivity | reflexivity | discriminate | reflexivity].
Defined.

(** ** The decoder at character boundaries *)

Lemma body_app (rec1 rec2 : list byte -> str) (K : str) (x : list byte)
  (b : byte) (z : list byte) :
  Utf8.is_cont b = false -> x <> [] ->
  rec1 (b :: z) = K ->
  (forall t, (length t < length x)%nat -> t <> [] ->
             rec1 (t ++ b :: z) = rec2 t ++ K) ->
  rec2 [] = [] ->
  decode_body rec1 (x ++ b :: z) = decode_body rec2 x ++ K.
Proof.
  intros Hb Hx HK H Hnil.
  assert (H' : forall t, (length t < length x)%nat ->
                         rec1 (t ++ b :: z) = rec2 t ++ K).
  { intros [|a t] Hl; [simpl; now rewrite Hnil
                      | apply H; [exact Hl | discriminate]]. }
  clear H.
  destruct x as [|b1 r1]; [congruence|]. clear Hx.
  unfold decode_body. cbn [app]. cbv zeta.
  repeat first
    [ progress (rewrite ?Hb; cbn [app negb orb])
    | match goal with
      | |- context [match ?r ++ _ with [] => _ | _ :: _ => _ end] =>
        is_var r; destruct r
      | |- context [match ?r with [] => _ | _ :: _ => _ end] =>
        is_var r; destruct r
      | |- context [if ?c then _ else _] => destruct c eqn:?
      end ].
  all: rewrite ?Hnil; cbn [app];
    first [ reflexivity
          | f_equal;
            first [ exact HK
                  | match goal with
                    | |- _ = ?f ?t ++ _ => apply (H' t); simpl; lia
                    end ] ].
Qed.

Lemma decode_app_boundary_n (n : nat) :
  forall x b z,
    (length x <= n)%nat -> Utf8.is_cont b = false ->
    Utf8.decode_replace (x ++ b :: z)
    = Utf8.decode_replace x ++ Utf8.decode_replace (b :: z).
Proof.
  induction n as [|n IH]; intros x b z Hl Hb.
  - destruct x; [reflexivity | simpl in Hl; lia].
  - destruct x as [|b1 r1]; [reflexivity|].
    rewrite (decode_replace_body ((b1 :: r1) ++ b :: z)).
    rewrite (decode_replace_body (b1 :: r1)).
    apply body_app; auto; [discriminate|].
    intros t Ht _. apply IH; auto. simpl in *. lia.
Qed.

(** Decoding does not run across a place where a character can start. *)
Lemma decode_app_boundary (x z : list byte) :
  boundary z ->
  Utf8.decode_replace (x ++ z)
  = Utf8.decode_replace x ++ Utf8.decode_replace z.
Proof.
  destruct z as [|b z]; intros Hb.
  - now rewrite !app_nil_r.
  - now apply (decode_app_boundary_n (length x)).
Qed.

Lemma not_cont_intro (b : byte) :
  Utf8.bval b < 0x80 \/ 0xC0 <= Utf8.bval b -> Utf8.is_cont b = false.
Proof.
  intros H. unfold Utf8.is_cont. apply andb_false_iff.
  destruct H; [left; apply Z.leb_gt | right; apply Z.ltb_ge]; lia.
Qed.

(** The first byte the encoder writes for a code point is never a
    continuation byte. *)
Lemma encode_cp_head (c : Z) (bs : list byte) :
  Utf8.encode_cp c = Some bs ->
  exists b t, bs = b :: t /\ Utf8.is_cont b = false.
Proof.
  unfold Utf8.encode_cp.
  destruct (c <? 0) eqn:E0; [discriminate|]. apply Z.ltb_ge in E0.
  destruct (c <? 0x80) eqn:E1.
  { apply Z.ltb_lt in E1. intros [= <-]. eexists. eexists.
    split; [reflexivity|]. apply not_cont_intro.
    rewrite bval_byte_of_Z by lia. lia. }
  apply Z.ltb_ge in E1.
  destruct (c <? 0x800) eqn:E2.
  { apply Z.ltb_lt in E2. intros [= <-]. eexists. eexists.
    split; [reflexivity|]. apply not_cont_intro. right.
    rewrite (bval_lead 0xC0 32 c 6) by (try reflexivity; lia).
    change (2 ^ 6) with 64. arith. }
  apply Z.ltb_ge in E2.
  destruct (c <? 0x10000) eqn:E3.
  { apply Z.ltb_lt in E3. destruct (Utf8.is_surrogate c); [discriminate|].
    intros [= <-]. eexists. eexists.
    split; [reflexivity|]. apply not_cont_intro. right.
    rewrite (bval_lead 0xE0 16 c 12) by (try reflexivity; lia).
    change (2 ^ 12) with 4096. arith. }
  apply Z.ltb_ge in E3.
  destruct (c <? 0x110000) eqn:E4; [|discriminate].
  apply Z.ltb_lt in E4. intros [= <-]. eexists. eexists.
  split; [reflexivity|]. apply not_cont_intro. right.
  rewrite (bval_lead 0xF0 8 c 18) by (try reflexivity; lia).
  change (2 ^ 18) with 262144. arith.
Qed.

Lemma encode_from_boundary (q : str) (i : Z) (qb : list byte) :
  Utf8.encode_from q i = inr qb -> boundary qb /\ (q <> [] -> qb <> []).
Proof.
  destruct q as [|c r]; simpl.
  - intros [= <-]. split; [exact I | congruence].
  - destruct (Utf8.encode_cp c) as [bs|] eqn:Ec; [|discriminate].
    destruct (Utf8.encode_from r (i + 1)) as [e|rest]; [discriminate|].
    intros [= <-]. destruct (encode_cp_head c bs Ec) as (b & t & -> & Hb).
    split; [exact Hb | discriminate].
Qed.

Lemma decode_encode_app (q : str) :
  forall i qb rest,
    Utf8.encode_from q i = inr qb ->
    Utf8.decode_replace (qb ++ rest) = q ++ Utf8.decode_replace rest.
Proof.
  induction q as [|c r IH]; intros i qb rest H; simpl in H.
  - now injection H as <-.
  - destruct (Utf8.encode_cp c) as [b|] eqn:Ec; [|discriminate].
    destruct (Utf8.encode_from r (i + 1)) as [e|t] eqn:Er; [discriminate|].
    injection H as <-. rewrite <- app_assoc.
    rewrite (decode_encode_cp c b (t ++ rest) Ec). cbn [app]. f_equal.
    eapply IH; eauto.
Qed.

(** The decoder yields at most one code point for each byte. *)
Lemma decode_length_n (n : nat) :
  forall s, (length s <= n)%nat ->
            (length (Utf8.decode_replace s) <= length s)%nat.
Proof.
  induction n as [|n IH]; intros s Hs.
  - destruct s; [simpl; lia | simpl in Hs; lia].
  - destruct s as [|b1 r1]; [simpl; lia|].
    rewrite decode_replace_body. unfold decode_body. cbv zeta.
    repeat match goal with
    | |- context [match ?r with [] => _ | _ :: _ => _ end] =>
        is_var r; destruct r
    | |- context [if ?c then _ else _] => destruct c
    end;
    cbn [length];
    try match goal with
    | |- context [Utf8.decode_replace ?r] =>
      pose proof (IH r ltac:(simpl in *; lia))
    end; simpl in *; lia.
Qed.

Lemma decode_length (s : list byte) :
  len (Utf8.decode_replace s) <= len s.
Proof.
  unfold len. pose proof (decode_length_n (length s) s (le_n _)). lia.
Qed.

(** ** [strip] around a text with clean ends *)

Lemma lstrip_core (l q r : str) :
  q <> [] -> starts_clean q ->
  exists l', lstrip (l ++ q ++ r) = l' ++ q ++ r.
Proof.
  intros Hq Hc. induction l as [|a l IH].
  - exists []. destruct q as [|c q']; [congruence|].
    simpl in *. now rewrite Hc.
  - simpl. destruct (isspace a); [exact IH | now exists (a :: l)].
Qed.

Lemma strip_core (l q r : str) :
  q <> [] -> starts_clean q -> starts_clean (rev q) ->
  exists l' r', strip (l ++ q ++ r) = l' ++ q ++ r'.
Proof.
  intros Hq Hc Hc'. unfold strip, rstrip.
  destruct (lstrip_core l q r Hq Hc) as (l' & ->).
  rewrite !rev_app_distr, <- app_assoc.
  assert (Hrq : rev q <> []).
  { intros E. apply Hq. rewrite <- (rev_involutive q), E. reflexivity. }
  destruct (lstrip_core (rev r) (rev q) (rev l') Hrq Hc') as (r' & ->).
  exists l', (rev r').
  now rewrite !rev_app_distr, !rev_involutive, <- app_assoc.
Qed.

Lemma strip_length (s : str) : len (strip s) <= len s.
Proof.
  destruct (strip_trimmed s) as (l & r & Heq & _).
  rewrite Heq at 2. rewrite !len_app.
  pose proof (len_nonneg l). pose proof (len_nonneg r). lia.
Qed.

Lemma strip_clean (s : str) :
  starts_clean (strip s) /\ starts_clean (rev (strip s)).
Proof. destruct (strip_trimmed s) as (l & r & _ & _ & _ & H1 & H2). auto. Qed.

(** The window of a record: at most 50 bytes on each side of the bytes
    of the query. *)
Lemma search_file_window (fs : FileSystem) (self : Engine)
  (file_info : FileInfo) (q : str) (qb mm : list byte) (r : MatchRecord) :
  query self = Some q -> Utf8.encode q = inr qb ->
  fs (path file_info) = inr mm ->
  In r (outcome_matches (snd (search_file fs self file_info))) ->
  exists before after,
    len before <= 50 /\ len after <= 50
    /\ context r = strip (Utf8.decode_replace (before ++ qb ++ after)).
Proof.
  intros Hq He Hf Hr.
  destruct (search_file_matches fs self file_info q qb mm r Hq He Hf Hr)
    as (s & Hs & ->).
  destruct (scan_sound qb mm _ _ _ Hs) as (d & H1 & _ & H3 & H4 & H5).
  assert (Hocc : occurs_at qb mm (Re.m_start s)).
  { apply occurs_at_iff. exists d. repeat split; auto. }
  destruct Hocc as (pre0 & post0 & Hmm & Hp).
  exists (skipn (Z.to_nat (Z.max 0 (len pre0 - 50))) pre0), (firstn 50 post0).
  split; [|split].
  - unfold len. rewrite length_skipn. lia.
  - unfold len. rewrite length_firstn. lia.
  - unfold match_record. simpl context. f_equal. f_equal.
    rewrite H5, <- Hp, Hmm. apply slice_context.
Qed.

(** The text of a query with clean ends stands inside every context. *)
Lemma search_file_context_core (fs : FileSystem) (self : Engine)
  (file_info : FileInfo) (q : str) (qb mm : list byte) (r : MatchRecord) :
  query self = Some q -> Utf8.encode q = inr qb ->
  q <> [] -> starts_clean q -> starts_clean (rev q) ->
  fs (path file_info) = inr mm ->
  In r (outcome_matches (snd (search_file fs self file_info))) ->
  exists l t, context r = l ++ q ++ t.
Proof.
  intros Hq He Hne Hc Hc' Hf Hr.
  destruct (search_file_window fs self file_info q qb mm r Hq He Hf Hr)
    as (before & after & _ & _ & ->).
  destruct (encode_from_boundary q 0 qb He) as [Hb Hqb].
  assert (Hb' : boundary (qb ++ after)).
  { destruct qb as [|b t]; [now specialize (Hqb Hne) | exact Hb]. }
  rewrite (decode_app_boundary before (qb ++ after) Hb').
  rewrite (decode_encode_app q 0 qb after He).
  apply strip_core; assumption.
Qed.

(** X5. The context of a record shows the query itself: when the query
    is not empty and has no whitespace at its ends (as after [strip]),
    the text of the query stands inside the context of every record,
    whatever bytes surround the match in the file. *)
Theorem context_contains_query :
  forall (fs : FileSystem) (self : Engine) (file_info : FileInfo)
         (q : str) (qb mm : list byte) (r : MatchRecord),
    query self = Some q -> Utf8.encode q = inr qb ->
    q <> [] -> starts_clean q -> starts_clean (rev q) ->
    fs (path file_info) = inr mm ->
    In r (outcome_matches (snd (search_file fs self file_info))) ->
    exists l t, context r = l ++ q ++ t.
Proof.
  intros fs self file_info q qb mm r.
  intros Hq He Hne Hc Hc' Hf Hr.
  destruct (search_file_window fs self file_info q qb mm r Hq He Hf Hr)
    as (before & after & _ & _ & ->).
  destruct (encode_from_boundary q 0 qb He) as [Hb Hqb].
  assert (Hb' : boundary (qb ++ after)).
  { destruct qb as [|b t]; [now specialize (Hqb Hne) | exact Hb]. }
  rewrite (decode_app_boundary before (qb ++ after) Hb').
  rewrite (decode_encode_app q 0 qb after He).
  apply strip_core; assumption.
Qed.

Lemma context_contains_query_witness :
  exists r l t,
    In r (outcome_matches (snd (search_file demo_fs demo_engine demo_a)))
    /\ context r = l ++ of_string "foo" ++ t.
Proof.
  set (r := {| file := of_string "a.txt"; context := of_string "foo bar foo";
               position := 8 |}).
  assert (Hin : In r (outcome_matches
                        (snd (search_file demo_fs demo_engine demo_a)))).
  { vm_compute. right. left. reflexivity. }
  destruct (context_contains_query demo_fs demo_engine demo_a
              (of_string "foo") (bytes "foo") (bytes "foo bar foo") r
              eq_refl eq_refl ltac:(discriminate) eq_refl eq_refl eq_refl Hin)
    as (l & t & H).
  exists r, l, t. auto.
Defined.

(** X6. A context is short: it has at most as many characters as the
    query has bytes, plus 100. *)
Theorem context_is_bounded :
  forall (fs : FileSystem) (self : Engine) (file_info : FileInfo)
         (q : str) (qb mm : list byte) (r : MatchRecord),
    query self = Some q -> Utf8.encode q = inr qb ->
    fs (path file_info) = inr mm ->
    In r (outcome_matches (snd (search_file fs self file_info))) ->
    len (context r) <= len qb + 100.
Proof.
  intros fs self file_info q qb mm r Hq He Hf Hr.
  destruct (search_file_window fs self file_info q qb mm r Hq He Hf Hr)
    as (before & after & Hb & Ha & ->).
  pose proof (strip_length (Utf8.decode_replace (before ++ qb ++ after))).
  pose proof (decode_length (before ++ qb ++ after)) as Hd.
  rewrite !len_app in Hd. lia.
Qed.

Lemma context_is_bounded_witness :
  Forall (fun r => len (context r) <= len (bytes "foo") + 100)
         (outcome_matches (snd (search_file demo_fs demo_engine demo_a))).
Proof.
  apply Forall_forall. intros r Hr.
  apply (context_is_bounded demo_fs demo_engine demo_a (of_string "foo")
           (bytes "foo") (bytes "foo bar foo") r eq_refl eq_refl eq_refl Hr).
Defined.

(** ** The catalog of targets *)

Lemma sum_sizes_app (l l' : list FileInfo) :
  sum_sizes (l ++ l') = sum_sizes l + sum_sizes l'.
Proof.
  unfold sum_sizes. induction l as [|f l IH]; cbn [app map fold_right]; lia.
Qed.

Lemma catalog_cons (e : WalkEntry) (es : list WalkEntry) :
  catalog (e :: es)
  = (if is_txt (entry_name e)
     then match entry_size e with
          | Some sz => [ {| path := entry_path e; size := sz |} ]
          | None => []
          end
     else []) ++ catalog es.
Proof. reflexivity. Qed.

Lemma get_folder_stats_catalog (entries : list WalkEntry) (self : Engine) :
  get_folder_stats entries self
  = (set_total_size self (sum_sizes (catalog entries)), catalog entries).
Proof.
  unfold get_folder_stats.
  set (step := fun (acc : list FileInfo * Z) (e : WalkEntry) =>
                 if is_txt (entry_name e)
                 then match entry_size e with
                      | Some sz =>
                        (fst acc ++ [{| path := entry_path e; size := sz |}],
                         snd acc + sz)
                      | None => acc
                      end
                 else acc).
  assert (H : forall es acc,
             fold_left step es acc
             = (fst acc ++ catalog es, snd acc + sum_sizes (catalog es))).
  { induction es as [|e es IH]; intros [fl ts]; cbn [fold_left].
    - cbn. now rewrite app_nil_r, Z.add_0_r.
    - rewrite IH, catalog_cons. unfold step.
      destruct (is_txt (entry_name e)); [|reflexivity].
      destruct (entry_size e) as [sz|]; [|reflexivity].
      cbn [fst snd]. rewrite <- app_assoc, sum_sizes_app.
      unfold sum_sizes at 2. cbn. f_equal. lia. }
  rewrite H. cbn. reflexivity.
Qed.




Lemma ascii_lower_is (c v : Z) :
  97 <= v <= 122 -> (ascii_lower c =? v) = true <-> c = v \/ c = v - 32.
Proof.
  intros Hv. unfold ascii_lower. rewrite Z.eqb_eq.
  destruct ((65 <=? c) && (c <=? 90)) eqn:E.
  - apply andb_true_iff in E as [E1 E2].
    apply Z.leb_le in E1, E2. lia.
  - apply andb_false_iff in E as [E|E]; apply Z.leb_gt in E; lia.
Qed.

(** X8. The suffix test keeps a name exactly when it ends in a dot
    followed by [t], [x], [t], each letter in either case; the name
    [.txt] alone passes, a name of fewer than four characters never
    does. *)
Theorem is_txt_suffix :
  forall name : str,
    is_txt name = true
    <-> exists stem t1 x t2,
          name = stem ++ [46; t1; x; t2]
          /\ (t1 = 116 \/ t1 = 84) /\ (x = 120 \/ x = 88)
          /\ (t2 = 116 \/ t2 = 84).
Proof.
  intros name. unfold is_txt. split.
  - intros H. rewrite <- (rev_involutive name).
    destruct (rev name) as [|t2 [|x [|t1 [|dot stem]]]]; try discriminate.
    apply andb_true_iff in H as [H H4]. apply andb_true_iff in H as [H H3].
    apply andb_true_iff in H as [H1 H2]. apply Z.eqb_eq in H1. subst dot.
    apply (ascii_lower_is t1 116) in H2; [|lia].
    apply (ascii_lower_is x 120) in H3; [|lia].
    apply (ascii_lower_is t2 116) in H4; [|lia].
    exists (rev stem), t1, x, t2. cbn [rev]. rewrite <- !app_assoc.
    split; [reflexivity|]. auto.
  - intros (stem & t1 & x & t2 & -> & H1 & H2 & H3).
    rewrite rev_app_distr. cbn [rev app].
    apply (ascii_lower_is t1 116) in H1; [|lia].
    apply (ascii_lower_is x 120) in H2; [|lia].
    apply (ascii_lower_is t2 116) in H3; [|lia].
    rewrite H1, H2, H3. reflexivity.
Qed.

(** ** The results file *)

Lemma eqb_refl (a : str) : PyStr.eqb a a = true.
Proof. now apply eqb_eq. Qed.

Lemma eqb_neq (a b : str) : a <> b -> PyStr.eqb a b = false.
Proof.
  intros H. destruct (PyStr.eqb a b) eqn:E; [|reflexivity].
  apply eqb_eq in E. congruence.
Qed.

Lemma written_prefix (ws : list chunk) :
  forall fault, exists k, written fault ws = firstn k ws.
Proof.
  induction ws as [|c r IH]; intros fault.
  - exists 0%nat. reflexivity.
  - assert (H : exists k,
               (if chunk_encodable c
                then c :: written (option_map Nat.pred fault) r
                else []) = firstn k (c :: r)).
    { destruct (chunk_encodable c); [|exists 0%nat; reflexivity].
      destruct (IH (option_map Nat.pred fault)) as [k Hk].
      exists (S k). cbn [firstn]. now rewrite Hk. }
    destruct fault as [[|n]|]; cbn [written];
      [exists 0%nat; reflexivity | exact H | exact H].
Qed.

Lemma written_all (ws : list chunk) :
  forallb chunk_encodable ws = true -> written None ws = ws.
Proof.
  induction ws as [|c r IH]; [reflexivity|]. cbn [forallb written option_map].
  intros H. apply andb_true_iff in H as [Hc Hr]. now rewrite Hc, IH.
Qed.

Lemma written_stops (pre : list chunk) (c : chunk) (post : list chunk) :
  forallb chunk_encodable pre = true -> chunk_encodable c = false ->
  written None (pre ++ c :: post) = pre.
Proof.
  intros Hpre Hc. induction pre as [|x pre IH].
  - cbn [app written]. now rewrite Hc.
  - cbn [forallb] in Hpre. apply andb_true_iff in Hpre as [Hx Hpre].
    cbn [app written option_map]. now rewrite Hx, IH.
Qed.

Lemma report_entries_body (ms : list MatchRecord) :
  report_entries
    (flat_map
       (fun m => [EntryHead (file m) (position m); EntryContext (context m)])
       ms)
  = ms.
Proof.
  induction ms as [|[f c p] ms IH]; [reflexivity|].
  cbn [flat_map app report_entries file position context]. now rewrite IH.
Qed.

Lemma report_entries_firstn (ms : list MatchRecord) :
  forall k, exists j,
    report_entries
      (firstn k
         (flat_map
            (fun m =>
               [EntryHead (file m) (position m); EntryContext (context m)])
            ms))
    = firstn j ms.
Proof.
  induction ms as [|[f c p] ms IH]; intros k.
  - exists 0%nat. now rewrite firstn_nil.
  - cbn [flat_map app file position context].
    destruct k as [|[|k]].
    + exists 0%nat. reflexivity.
    + exists 0%nat. reflexivity.
    + destruct (IH k) as [j Hj]. exists (S j).
      cbn [firstn report_entries]. now rewrite Hj.
Qed.

(** What the file holds is a head of the writes, so its entries are a
    head of the matches. *)
Lemma written_entries (fault : option nat) (q : str)
  (ms : list MatchRecord) :
  exists j, report_entries (written fault (writes q ms)) = firstn j ms.
Proof.
  destruct (written_prefix (writes q ms) fault) as [k ->]. unfold writes.
  destruct k as [|[|k]]; [exists 0%nat; reflexivity ..|].
  cbn [firstn report_entries]. apply report_entries_firstn.
Qed.

Lemma in_firstn {A} (j : nat) (l : list A) (x : A) :
  In x (firstn j l) -> In x l.
Proof.
  intros H. rewrite <- (firstn_skipn j l). apply in_or_app. now left.
Qed.

Lemma entries_encodable (ms : list MatchRecord) :
  Forall (fun m => encodable_text (file m) = true
                   /\ encodable_text (context m) = true) ms ->
  forallb chunk_encodable
    (flat_map
       (fun m => [EntryHead (file m) (position m); EntryContext (context m)])
       ms)
  = true.
Proof.
  induction 1 as [|m ms [Hf Hc] _ IH]; [reflexivity|].
  cbn [flat_map app forallb chunk_encodable]. now rewrite Hf, Hc, IH.
Qed.

Lemma writes_encodable (q : str) (ms : list MatchRecord) :
  encodable_text q = true ->
  Forall (fun m => encodable_text (file m) = true
                   /\ encodable_text (context m) = true) ms ->
  forallb chunk_encodable (writes q ms) = true.
Proof.
  intros Hq Hms. unfold writes. cbn [forallb chunk_encodable].
  rewrite Hq. cbn [andb]. now apply entries_encodable.
Qed.

Lemma save_results_written (io : Sink) (self : Engine) (q : str)
  (m : MatchRecord) (ms : list MatchRecord) (rd : ResultsDir) :
  query self = Some q -> sink_open io (result_file q) = true ->
  save_results io self (m :: ms) rd (result_file q)
  = Some (written (sink_fault io (result_file q)) (writes q (m :: ms)))
  /\ forall n, n <> result_file q ->
               save_results io self (m :: ms) rd n = rd n.
Proof.
  intros Hq Hok. unfold save_results. rewrite Hq, Hok. unfold write_file.
  split.
  - now rewrite eqb_refl.
  - intros n Hn. now rewrite eqb_neq.
Qed.




(** X10. A path that cannot be encoded cuts the report short: the write
    of its entry raises, the handler prints, and the file keeps what was
    written before. The report then holds the matches that came before
    that entry and no other, under a total that still counts all the
    matches. *)
Theorem unencodable_path_truncates_report :
  forall (io : Sink) (self : Engine) (q : str)
         (before : list MatchRecord) (m : MatchRecord)
         (after : list MatchRecord) (rd : ResultsDir),
    query self = Some q ->
    sink_open io (result_file q) = true ->
    sink_fault io (result_file q) = None ->
    encodable_text q = true ->
    Forall (fun r => encodable_text (file r) = true
                     /\ encodable_text (context r) = true) before ->
    encodable_text (file m) = false ->
    exists rep,
      save_results io self (before ++ m :: after) rd (result_file q)
      = Some rep
      /\ report_query rep = Some q
      /\ report_total rep = Some (len before + 1 + len after)
      /\ report_entries rep = before.
Proof.
  intros io self q before m after rd Hq Hok Hfault Henc Hbefore Hm.
  assert (Hw : written None (writes q (before ++ m :: after))
               = Header q :: Total (len (before ++ m :: after))
                 :: flat_map
                      (fun r => [EntryHead (file r) (position r);
                                 EntryContext (context r)]) before).
  { unfold writes. rewrite flat_map_app. cbn [flat_map app].
    rewrite (app_comm_cons _ _ (Total _)), (app_comm_cons _ _ (Header q)).
    apply written_stops; [|exact Hm].
    cbn [forallb chunk_encodable]. rewrite Henc. cbn [andb].
    now apply entries_encodable. }
  destruct (before ++ m :: after) as [|m0 ms0] eqn:E.
  { destruct before; discriminate. }
  destruct (save_results_written io self q m0 ms0 rd Hq Hok) as [Hs _].
  rewrite Hfault, Hw in Hs. eexists. split; [exact Hs|].
  cbn [report_query report_total report_entries].
  rewrite report_entries_body. repeat split.
  f_equal. rewrite <- E, len_app, len_cons. lia.
Qed.

Lemma unencodable_path_truncates_report_witness :
  exists rep,
    save_results {| sink_open := fun _ => true; sink_fault := fun _ => None |}
      demo_engine
      [ {| file := of_string "a.txt"; context := of_string "foo";
           position := 0 |};
        {| file := [0xDC80]; context := of_string "foo"; position := 4 |};
        {| file := of_string "z.txt"; context := of_string "foo";
           position := 8 |} ]
      empty_dir (of_string "results_foo.txt")
    = Some rep
    /\ report_total rep = Some 3
    /\ report_entries rep
       = [ {| file := of_string "a.txt"; context := of_string "foo";
              position := 0 |} ].
Proof.
  destruct (unencodable_path_truncates_report
              {| sink_open := fun _ => true; sink_fault := fun _ => None |}
              demo_engine (of_string "foo")
              [ {| file := of_string "a.txt"; context := of_string "foo";
                   position := 0 |} ]
              {| file := [0xDC80]; context := of_string "foo";
                 position := 4 |}
              [ {| file := of_string "z.txt"; context := of_string "foo";
                   position := 8 |} ]
              empty_dir eq_refl eq_refl eq_refl eq_refl)
    as (rep & H1 & _ & H3 & H4).
  - repeat constructor.
  - reflexivity.
  - exists rep. split; [exact H1|]. split; [exact H3 | exact H4].
Defined.

Lemma scalar_encodable (c : Z) : scalar c -> Utf8.encode_cp c <> None.
Proof.
  unfold scalar, Utf8.encode_cp, Utf8.is_surrogate. intros [H1 H2].
  destruct (Z.ltb_spec c 0); [lia|].
  destruct (Z.ltb_spec c 0x80); [discriminate|].
  destruct (Z.ltb_spec c 0x800); [discriminate|].
  destruct (Z.ltb_spec c 0x10000).
  - destruct (Z.leb_spec 0xD800 c), (Z.leb_spec c 0xDFFF); cbn [andb];
      try discriminate. lia.
  - destruct (Z.ltb_spec c 0x110000); [discriminate | lia].
Qed.

Lemma encodable_text_intro (s : str) : encodable s -> encodable_text s = true.
Proof.
  intros H. unfold encodable_text, Utf8.encode.
  destruct (encodable_encode_from s H 0) as (bs & -> & _). reflexivity.
Qed.

(** A context can always be written: the decoder gives scalar values
    only. *)
Lemma context_encodable (s : list byte) :
  encodable_text (strip (Utf8.decode_replace s)) = true.
Proof.
  apply encodable_text_intro. unfold encodable.
  destruct (strip_trimmed (Utf8.decode_replace s)) as (l & r & Heq & _).
  pose proof (decode_replace_scalar s) as Hs. rewrite Heq in Hs.
  apply Forall_app in Hs as [_ Hs]. apply Forall_app in Hs as [Hs _].
  eapply Forall_impl; [|exact Hs]. intros c. apply scalar_encodable.
Qed.

Lemma same_heading_refl (a : option Report) : same_heading a a.
Proof. destruct a; cbn; auto. Qed.

Lemma save_results_heading (io : Sink) (self : Engine)
  (ms ms' : list MatchRecord) (rd : ResultsDir) (n : str) :
  Permutation ms ms' ->
  same_heading (save_results io self ms rd n) (save_results io self ms' rd n).
Proof.
  intros Hp. destruct ms as [|m ms], ms' as [|m' ms'].
  - apply same_heading_refl.
  - apply Permutation_nil in Hp. discriminate.
  - apply Permutation_sym, Permutation_nil in Hp. discriminate.
  - unfold save_results. destruct (query self) as [q|];
      [|apply same_heading_refl].
    destruct (sink_open io (result_file q)); [|apply same_heading_refl].
    unfold write_file. destruct (PyStr.eqb n (result_file q));
      [|apply same_heading_refl].
    unfold writes. rewrite (len_perm _ _ Hp).
    destruct (sink_fault io (result_file q)) as [[|[|k]]|];
      cbn [written chunk_encodable option_map Nat.pred same_heading];
      destruct (encodable_text q); cbn; auto.
Qed.

(** ** Runs *)

Lemma sum_matches_nonneg (os : list Outcome) : 0 <= sum_matches os.
Proof. rewrite sum_matches_concat. apply len_nonneg. Qed.

Lemma failures_nonneg (fs : FileSystem) (self : Engine)
  (files : list FileInfo) : 0 <= failures fs self files.
Proof. apply len_nonneg. Qed.

Lemma failures_le (fs : FileSystem) (self : Engine) (files : list FileInfo) :
  failures fs self files <= len files.
Proof.
  unfold failures, len. pose proof (filter_length_le (scan_fails fs self) files).
  lia.
Qed.

Lemma failures_all (fs : FileSystem) (self : Engine) (files : list FileInfo) :
  Forall (fun f => scan_fails fs self f = true) files ->
  failures fs self files = len files
  /\ sum_matches (outcomes fs self files) = 0.
Proof.
  intros H. unfold failures. rewrite sum_matches_successes.
  induction H as [|f l Hf _ [IH1 IH2]]; [split; reflexivity|].
  cbn [filter]. rewrite Hf. cbn [negb]. rewrite !len_cons. split; [lia|exact IH2].
Qed.

Lemma engine_eq (a b : Engine) :
  files_processed (stats a) = files_processed (stats b) ->
  matches_found (stats a) = matches_found (stats b) ->
  total_size (stats a) = total_size (stats b) ->
  errors (stats a) = errors (stats b) ->
  query a = query b ->
  a = b.
Proof.
  destruct a as [[a1 a2 a3 a4] aq], b as [[b1 b2 b3 b4] bq]. cbn.
  congruence.
Qed.

Lemma aggregate_perm (self : Engine) (os os' : list Outcome) :
  Permutation os os' ->
  l_self (aggregate self os) = l_self (aggregate self os')
  /\ Permutation (l_all_matches (aggregate self os))
                 (l_all_matches (aggregate self os')).
Proof.
  intros Hp. unfold aggregate.
  set (st0 := {| l_self := self; l_all_matches := []; l_warnings := [] |}).
  destruct (fold_accept_spec os st0) as (A1 & A2 & A3 & A4 & A5 & A6 & _).
  destruct (fold_accept_spec os' st0) as (B1 & B2 & B3 & B4 & B5 & B6 & _).
  split.
  - apply engine_eq; try congruence.
    + rewrite A1, B1, (len_perm _ _ Hp). reflexivity.
    + rewrite A2, B2, (sum_matches_perm _ _ Hp). reflexivity.
  - rewrite A6, B6. apply Permutation_app_head.
    now apply concat_matches_perm.
Qed.

Lemma filter_perm {A} (f : A -> bool) (l l' : list A) :
  Permutation l l' -> Permutation (filter f l) (filter f l').
Proof.
  induction 1 as [|x l l' _ IH|x y l|l l' l'' _ IH1 _ IH2]; cbn [filter].
  - constructor.
  - destruct (f x); [now constructor | exact IH].
  - destruct (f x), (f y); try reflexivity. constructor.
  - etransitivity; eauto.
Qed.

(** The collection, the warnings and the query at the end of the loop of
    a complete run. *)
Lemma run_loop_state (w : World) (self : Engine) (folder : str) :
  fair w ->
  let files := run_files w self folder in
  let self0 := run_engine w self folder in
  let os := outcomes (fs w) self0 files in
  let st := aggregate (fst (submit_all (fs w) self0 files))
                      (as_completed w os) in
  query (l_self st) = Some (strip (query_line w))
  /\ Permutation (l_all_matches st) (concat (map outcome_matches os))
  /\ Permutation (l_warnings st) (filter truthy (map outcome_error os))
  /\ len (l_all_matches st) = sum_matches os.
Proof.
  intros Hfair files self0 os st.
  pose proof (Hfair os) as Hperm.
  destruct (submit_all_spec (fs w) files self0) as (_ & S2 & _).
  unfold st, aggregate.
  destruct (fold_accept_spec (as_completed w os)
              {| l_self := fst (submit_all (fs w) self0 files);
                 l_all_matches := []; l_warnings := [] |})
    as (_ & _ & _ & _ & A5 & A6 & A7).
  cbn [l_self l_all_matches l_warnings app] in *.
  assert (Hm : Permutation
                 (concat (map outcome_matches (as_completed w os)))
                 (concat (map outcome_matches os))).
  { apply Permutation_sym, concat_matches_perm, Hperm. }
  rewrite A5, A6, A7, S2. repeat split.
  - exact Hm.
  - apply Permutation_sym, filter_perm, Permutation_map, Hperm.
  - rewrite (len_perm _ _ Hm). symmetry. apply sum_matches_concat.
Qed.

(** A complete run that found no match leaves the directory alone. *)
Lemma run_search_no_match_dir (w : World) (self : Engine) (rd : ResultsDir)
  (folder : str) :
  fair w -> run_files w self folder <> [] ->
  truthy (strip (query_line w)) = true ->
  sum_matches (outcomes (fs w) (run_engine w self folder)
                        (run_files w self folder)) = 0 ->
  r_dir (run_search w self rd folder) = rd.
Proof.
  intros Hfair Hne Hq Hsum.
  rewrite (run_search_complete w self rd folder Hne Hq). cbn [r_dir].
  destruct (run_loop_state w self folder Hfair) as (_ & _ & _ & Hlen).
  rewrite Hsum in Hlen.
  destruct (l_all_matches _) as [|m ms]; [reflexivity|].
  rewrite len_cons in Hlen. pose proof (len_nonneg ms). lia.
Qed.

Lemma scan_fails_unencodable (fs : FileSystem) (self : Engine)
  (f : FileInfo) (q : str) (e : Z * Z) :
  query self = Some q -> Utf8.encode q = inl e ->
  scan_fails fs self f = true.
Proof.
  intros Hq He. unfold scan_fails, search_file_try. rewrite Hq.
  destruct (fs (path f)) as [msg|[|b mm]]; try reflexivity.
  destruct (escape_unencodable q 0 0 e He) as (e' & He').
  unfold Utf8.encode. rewrite He'. now destruct e'.
Qed.

Lemma run_engine_query (w : World) (self : Engine) (folder : str) :
  query (run_engine w self folder) = Some (strip (query_line w)).
Proof. reflexivity. Qed.

(** A record of a scan carries the path of its target and a context that
    can be encoded; and a scan gives records only when the query can be
    encoded. *)
Lemma scan_record_encodable (fs : FileSystem) (self : Engine) (f : FileInfo)
  (q : str) (m : MatchRecord) :
  query self = Some q ->
  In m (outcome_matches (snd (search_file fs self f))) ->
  file m = path f /\ encodable_text (context m) = true
  /\ encodable_text q = true.
Proof.
  intros Hq Hm.
  destruct (Utf8.encode q) as [e|qb] eqn:He.
  { rewrite failed_outcome in Hm; [destruct Hm|].
    eapply scan_fails_unencodable; eauto. }
  destruct (fs (path f)) as [msg|mm] eqn:Hf.
  { unfold search_file, search_file_try in Hm. rewrite Hf in Hm.
    destruct Hm. }
  destruct (search_file_matches fs self f q qb mm m Hq He Hf Hm)
    as (s & _ & ->).
  unfold match_record. cbn [file context]. repeat split.
  - apply context_encodable.
  - unfold encodable_text. now rewrite He.
Qed.

(** The records of the outcomes of a run, in whatever order they
    complete, can be written when the paths of the targets can. *)
Lemma outcomes_encodable (fs : FileSystem) (self : Engine) (q : str)
  (files : list FileInfo) (ms : list MatchRecord) :
  query self = Some q ->
  Forall (fun f => encodable_text (path f) = true) files ->
  Permutation ms (concat (map outcome_matches (outcomes fs self files))) ->
  Forall (fun m => encodable_text (file m) = true
                   /\ encodable_text (context m) = true) ms
  /\ (ms <> [] -> encodable_text q = true).
Proof.
  intros Hq Hpaths Hp.
  assert (Hrec : forall m, In m ms ->
                   exists f, In f files
                     /\ In m (outcome_matches (snd (search_file fs self f)))).
  { intros m Hm. apply (Permutation_in _ Hp) in Hm.
    apply in_concat in Hm as (ms0 & Hms0 & Hin).
    apply in_map_iff in Hms0 as (o & <- & Ho).
    unfold outcomes in Ho. apply in_map_iff in Ho as (f & <- & Hf). eauto. }
  split.
  - apply Forall_forall. intros m Hm. destruct (Hrec m Hm) as (f & Hf & Hin).
    destruct (scan_record_encodable fs self f q m Hq Hin) as (Hfile & Hctx & _).
    rewrite Hfile. split; [|exact Hctx].
    rewrite Forall_forall in Hpaths. now apply Hpaths.
  - intros Hne. destruct ms as [|m ms]; [congruence|].
    destruct (Hrec m (or_introl eq_refl)) as (f & _ & Hin).
    now destruct (scan_record_encodable fs self f q m Hq Hin) as (_ & _ & H).
Qed.

(** The collection at the end of the loop: the matches of the outcomes,
    in the order of completion. *)
Lemma aggregate_collection (self : Engine) (os : list Outcome) :
  l_all_matches (aggregate self os) = concat (map outcome_matches os).
Proof.
  unfold aggregate.
  destruct (fold_accept_spec os
              {| l_self := self; l_all_matches := []; l_warnings := [] |})
    as (_ & _ & _ & _ & _ & A6 & _).
  exact A6.
Qed.





(** X13. A query that has no UTF-8 encoding (a lone surrogate in it)
    makes every scan fail: the run counts every target as processed and
    as an error, adds no match and writes no results file. *)
Theorem unencodable_query_fails_every_scan :
  forall (w : World) (self : Engine) (rd : ResultsDir) (folder : str)
         (e : Z * Z),
    fair w ->
    run_files w self folder <> [] ->
    truthy (strip (query_line w)) = true ->
    Utf8.encode (strip (query_line w)) = inl e ->
    let r := run_search w self rd folder in
    files_processed (stats (r_self r))
    = files_processed (stats self) + len (run_files w self folder)
    /\ errors (stats (r_self r))
       = errors (stats self) + len (run_files w self folder)
    /\ matches_found (stats (r_self r)) = matches_found (stats self)
    /\ r_dir r = rd.
Proof.
  intros w self rd folder e Hfair Hne Hq He r. subst r.
  destruct (run_search_counters w self rd folder Hfair Hne Hq)
    as (R1 & R2 & R3 & _ & _).
  assert (Hall : Forall (fun f => scan_fails (fs w) (run_engine w self folder) f
                                  = true) (run_files w self folder)).
  { apply Forall_forall. intros f _.
    eapply scan_fails_unencodable; [apply run_engine_query | exact He]. }
  destruct (failures_all _ _ _ Hall) as [Hf Hs].
  rewrite R1, R2, R3, Hf, Hs. repeat split; try lia.
  now apply run_search_no_match_dir.
Qed.

Lemma unencodable_query_fails_every_scan_witness :
  stats (r_self (run_search (demo_world_with [0xDC80]) init empty_dir
                            (of_string "db")))
  = {| files_processed := 3; matches_found := 0; total_size := 28;
       errors := 3 |}.
Proof.
  destruct (unencodable_query_fails_every_scan (demo_world_with [0xDC80]) init
              empty_dir (of_string "db") (0xDC80, 0) (demo_world_fair _)
              ltac:(discriminate) eq_refl eq_refl)
    as (H1 & H2 & H3 & _).
  vm_compute. reflexivity.
Defined.

(** ** Warnings *)




Lemma aggregate_warnings (self : Engine) (os : list Outcome) :
  l_warnings (aggregate self os) = filter truthy (map outcome_error os).
Proof.
  unfold aggregate.
  destruct (fold_accept_spec os
              {| l_self := self; l_all_matches := []; l_warnings := [] |})
    as (_ & _ & _ & _ & _ & _ & A7).
  exact A7.
Qed.





(** X15. A target without bytes fails at every run, whatever the query:
    [mmap] refuses it, the scan returns the message [cannot mmap an
    empty file], the run prints it as a warning and counts an error. *)
Theorem empty_file_is_an_error_at_every_run :
  forall (w : World) (self : Engine) (rd : ResultsDir) (folder : str)
         (f : FileInfo),
    fair w ->
    truthy (strip (query_line w)) = true ->
    In f (run_files w self folder) ->
    fs w (path f) = inr [] ->
    let r := run_search w self rd folder in
    (forall s : Engine,
        search_file (fs w) s f
        = (set_errors s (errors (stats s) + 1),
           (path f, [], of_string "cannot mmap an empty file")))
    /\ In (of_string "cannot mmap an empty file") (r_warnings r)
    /\ errors (stats self) + 1 <= errors (stats (r_self r)).
Proof.
  intros w self rd folder f Hfair Hq Hin Hf r.
  assert (Hne : run_files w self folder <> []).
  { intros E. rewrite E in Hin. destruct Hin. }
  assert (Hs : forall s, search_file (fs w) s f
                         = (set_errors s (errors (stats s) + 1),
                            (path f, [], of_string "cannot mmap an empty file"))).
  { intros s. unfold search_file.
    now rewrite search_file_try_empty by assumption. }
  split; [exact Hs|].
  destruct (run_search_counters w self rd folder Hfair Hne Hq)
    as (_ & _ & R3 & _ & _).
  destruct (run_loop_state w self folder Hfair) as (_ & _ & Sw & _).
  subst r. rewrite R3.
  rewrite (run_search_complete w self rd folder Hne Hq). cbn [r_warnings].
  split.
  - eapply Permutation_in; [apply Permutation_sym; exact Sw|].
    apply filter_In. split; [|reflexivity].
    apply in_map_iff.
    exists (snd (search_file (fs w) (run_engine w self folder) f)).
    split; [now rewrite Hs|].
    unfold outcomes.
    apply (in_map (fun f0 => snd (search_file (fs w)
                                    (run_engine w self folder) f0))).
    exact Hin.
  - pose proof (failures_pos (fs w) (run_engine w self folder)
                  (run_files w self folder) f Hin) as Hp.
    assert (scan_fails (fs w) (run_engine w self folder) f = true).
    { unfold scan_fails. now rewrite search_file_try_empty. }
    specialize (Hp H). lia.
Qed.

Lemma empty_file_is_an_error_at_every_run_witness :
  r_warnings (run_search empty_file_world init empty_dir (of_string "db"))
  = [of_string "cannot mmap an empty file"]
  /\ errors (stats init) + 1
     <= errors (stats (r_self (run_search empty_file_world init empty_dir
                                          (of_string "db")))).
Proof.
  destruct (empty_file_is_an_error_at_every_run empty_file_world init
              empty_dir (of_string "db")
              {| path := of_string "empty.txt"; size := 0 |}
              (fun os => Permutation_rev os) eq_refl (or_introl eq_refl)
              eq_refl)
    as (_ & _ & H).
  split; [vm_compute; reflexivity | exact H].
Defined.

(** ** The order of completion *)

Lemma same_report_refl (a : option Report) : same_report a a.
Proof. destruct a; cbn; auto. Qed.

Lemma save_results_perm (io : Sink) (self : Engine) (q : str)
  (ms ms' : list MatchRecord) (rd : ResultsDir) (n : str) :
  Permutation ms ms' ->
  query self = Some q ->
  sink_fault io (result_file q) = None ->
  Forall (fun m => encodable_text (file m) = true
                   /\ encodable_text (context m) = true) ms ->
  (ms <> [] -> encodable_text q = true) ->
  same_report (save_results io self ms rd n) (save_results io self ms' rd n).
Proof.
  intros Hp Hq Hfault Hall Henc. destruct ms as [|m ms], ms' as [|m' ms'].
  - apply same_report_refl.
  - apply Permutation_nil in Hp. discriminate.
  - apply Permutation_sym, Permutation_nil in Hp. discriminate.
  - unfold save_results. rewrite Hq.
    destruct (sink_open io (result_file q)); [|apply same_report_refl].
    unfold write_file. destruct (PyStr.eqb n (result_file q));
      [|apply same_report_refl].
    assert (Hall' : Forall (fun m => encodable_text (file m) = true
                                     /\ encodable_text (context m) = true)
                           (m' :: ms')).
    { apply (Permutation_Forall Hp Hall). }
    assert (Hquery : encodable_text q = true) by (apply Henc; discriminate).
    rewrite Hfault, !written_all by now apply writes_encodable.
    unfold writes, same_report.
    cbn [report_query report_total report_entries].
    rewrite (report_entries_body (m :: ms)), (report_entries_body (m' :: ms')).
    repeat split; auto. f_equal. apply (len_perm _ _ Hp).
Qed.

(** X16. What a run leaves, and the order in which the scans complete.
    With two orders of completion the engine, the summary, the submitted
    tasks and the warnings of [get_folder_stats] are the same, the
    warnings of the loop are the same up to their order, and every file
    of the results directory has the same heading (the query line and
    the total). When the device does not fail and the paths of the
    targets can be encoded, every file of the results directory holds
    the same report up to the order of its matches. *)
Theorem run_search_order_independent :
  forall (w : World) (order order' : list Outcome -> list Outcome)
         (self : Engine) (rd : ResultsDir) (folder : str),
    fair (with_completion w order) ->
    fair (with_completion w order') ->
    let r := run_search (with_completion w order) self rd folder in
    let r' := run_search (with_completion w order') self rd folder in
    r_self r = r_self r'
    /\ r_summary r = r_summary r'
    /\ r_submitted r = r_submitted r'
    /\ r_access_warnings r = r_access_warnings r'
    /\ Permutation (r_warnings r) (r_warnings r')
    /\ (forall n, same_heading (r_dir r n) (r_dir r' n))
    /\ ((forall n, write_fault w n = None) ->
        Forall (fun f => encodable_text (path f) = true)
               (run_files w self folder) ->
        forall n, same_report (r_dir r n) (r_dir r' n)).
Proof.
  intros w order order' self rd folder Hf Hf' r r'. subst r r'.
  unfold run_files, run_search.
  cbn [walk query_line fs as_completed open_ok write_fault with_completion
       sink].
  destruct (get_folder_stats (walk w folder) self) as [self1 files].
  cbn [snd].
  destruct files as [|f files].
  { cbn. repeat split; auto; intros; first [ apply same_heading_refl
                                           | apply same_report_refl ]. }
  destruct (truthy (strip (query_line w))); cbn [negb].
  2:{ cbn. repeat split; auto; intros; first [ apply same_heading_refl
                                             | apply same_report_refl ]. }
  pose proof (submit_all_spec (fs w) (f :: files)
                (set_query self1 (strip (query_line w)))) as (So & Sq & _).
  destruct (submit_all (fs w) (set_query self1 (strip (query_line w)))
                       (f :: files)) as [self2 futures].
  cbn [fst snd] in So, Sq.
  assert (Hp : Permutation (order futures) (order' futures)).
  { etransitivity; [apply Permutation_sym, (Hf futures) | apply (Hf' futures)]. }
  destruct (aggregate_perm self2 _ _ Hp) as [He Hm].
  cbn [r_self r_summary r_submitted r_warnings r_dir r_access_warnings].
  rewrite He. split; [reflexivity|]. split; [reflexivity|].
  split; [reflexivity|]. split; [reflexivity|]. split; [|split].
  - rewrite !aggregate_warnings. apply filter_perm, Permutation_map, Hp.
  - intros n. now apply save_results_heading.
  - intros Hfault Hpaths n.
    assert (Hquery : query (l_self (aggregate self2 (order' futures)))
                     = Some (strip (query_line w))).
    { unfold aggregate.
      destruct (fold_accept_spec (order' futures)
                  {| l_self := self2; l_all_matches := [];
                     l_warnings := [] |})
        as (_ & _ & _ & _ & A5 & _).
      cbn [l_self] in A5. rewrite A5. exact Sq. }
    assert (Hc : Permutation
                   (l_all_matches (aggregate self2 (order futures)))
                   (concat (map outcome_matches
                              (outcomes (fs w)
                                 (set_query self1 (strip (query_line w)))
                                 (f :: files))))).
    { rewrite aggregate_collection, <- So.
      apply Permutation_sym, concat_matches_perm, (Hf futures). }
    destruct (outcomes_encodable (fs w)
                (set_query self1 (strip (query_line w)))
                (strip (query_line w)) (f :: files) _ eq_refl Hpaths Hc)
      as [Hall Henc].
    apply (save_results_perm _ _ (strip (query_line w))); auto.
    apply (Hfault (result_file (strip (query_line w)))).
Qed.

Lemma run_search_order_independent_witness :
  r_self (run_search (with_completion demo_world (@rev Outcome)) init
                     empty_dir (of_string "db"))
  = r_self (run_search (with_completion demo_world (fun os => os)) init
                       empty_dir (of_string "db")).
Proof.
  destruct (run_search_order_independent demo_world (@rev Outcome)
              (fun os => os) init empty_dir (of_string "db")
              (fun os => Permutation_rev os)
              (fun os => Permutation_refl os)) as (H & _).
  exact H.
Defined.

(** ** A session *)

Lemma last_cons {A} (a d : A) (l : list A) : last (a :: l) d = last l a.
Proof.
  revert a d. induction l as [|b l IH]; intros a d; [reflexivity|].
  change (last (a :: b :: l) d) with (last (b :: l) d).
  now rewrite !IH.
Qed.

(** What one run adds to the counters. *)
Lemma run_search_delta (w : World) (self : Engine) (rd : ResultsDir)
  (folder : str) :
  fair w ->
  let r := run_search w self rd folder in
  files_processed (stats (r_self r))
  = files_processed (stats self) + len (r_submitted r)
  /\ matches_found (stats self) <= matches_found (stats (r_self r))
  /\ errors (stats self) <= errors (stats (r_self r))
  /\ errors (stats (r_self r)) - errors (stats self) <= len (r_submitted r).
Proof.
  intros Hfair r. subst r.
  destruct (run_files w self folder) as [|f files] eqn:Ef.
  { destruct (run_search_early w self rd folder (or_introl Ef))
      as (H1 & _ & _ & _ & H5 & H6 & H7).
    rewrite H1, H5, H6, H7. unfold len. simpl. lia. }
  destruct (truthy (strip (query_line w))) eqn:Eq.
  2:{ destruct (run_search_early w self rd folder (or_intror Eq))
        as (H1 & _ & _ & _ & H5 & H6 & H7).
      rewrite H1, H5, H6, H7. unfold len. simpl. lia. }
  assert (Hne : run_files w self folder <> []) by (rewrite Ef; discriminate).
  destruct (run_search_counters w self rd folder Hfair Hne Eq)
    as (R1 & R2 & R3 & _ & _).
  rewrite R1, R2, R3.
  rewrite (run_search_complete w self rd folder Hne Eq). cbn [r_submitted].
  rewrite len_map.
  pose proof (sum_matches_nonneg
                (outcomes (fs w) (run_engine w self folder)
                          (run_files w self folder))).
  pose proof (failures_nonneg (fs w) (run_engine w self folder)
                (run_files w self folder)).
  pose proof (failures_le (fs w) (run_engine w self folder)
                (run_files w self folder)).
  lia.
Qed.

(** The counters along the iterations of one session. *)
Lemma main_loop_counters :
  forall (iterations : list World) (engine : Engine) (rd : ResultsDir),
    Forall fair iterations ->
    let rs := main_loop iterations engine rd in
    length rs = length iterations
    /\ files_processed (stats (final_engine rs engine))
       = files_processed (stats engine) + submitted_tasks rs
    /\ matches_found (stats engine)
       <= matches_found (stats (final_engine rs engine))
    /\ errors (stats engine) <= errors (stats (final_engine rs engine))
    /\ errors (stats (final_engine rs engine)) - errors (stats engine)
       <= submitted_tasks rs.
Proof.
  intros iterations engine rd H. revert engine rd.
  induction H as [|w its Hw _ IH]; intros engine rd; cbv zeta.
  - cbn. repeat split; lia.
  - cbn [main_loop].
    set (folder := if truthy (strip (folder_line w))
                   then strip (folder_line w) else default_folder w).
    set (r := run_search w engine rd folder).
    destruct (run_search_delta w engine rd folder Hw) as (D1 & D2 & D3 & D4).
    fold r in D1, D2, D3, D4.
    destruct (IH (r_self r) (r_dir r)) as (I0 & I1 & I2 & I3 & I4).
    unfold final_engine, submitted_tasks in *.
    cbn [map fold_right length]. rewrite last_cons.
    split; [now rewrite I0|]. rewrite I1. repeat split; lia.
Qed.

(** X17. Over a whole session the counters only grow: the engine is
    never reset, so after any number of iterations [files_processed] is
    the number of scan tasks submitted since the start of the session,
    [matches_found] and [errors] are at least what they were, and the
    errors gained are at most the tasks submitted. *)
Theorem session_counters_accumulate :
  forall (iterations : list World) (engine : Engine) (rd : ResultsDir),
    Forall fair iterations ->
    let rs := main_loop iterations engine rd in
    length rs = length iterations
    /\ files_processed (stats (final_engine rs engine))
       = files_processed (stats engine) + submitted_tasks rs
    /\ matches_found (stats engine)
       <= matches_found (stats (final_engine rs engine))
    /\ errors (stats engine) <= errors (stats (final_engine rs engine))
    /\ errors (stats (final_engine rs engine)) - errors (stats engine)
       <= submitted_tasks rs.
Proof.
  intros iterations engine rd H. revert engine rd.
  induction H as [|w its Hw _ IH]; intros engine rd; cbv zeta.
  - cbn. repeat split; lia.
  - cbn [main_loop].
    set (folder := if truthy (strip (folder_line w))
                   then strip (folder_line w) else default_folder w).
    set (r := run_search w engine rd folder).
    destruct (run_search_delta w engine rd folder Hw) as (D1 & D2 & D3 & D4).
    fold r in D1, D2, D3, D4.
    destruct (IH (r_self r) (r_dir r)) as (I0 & I1 & I2 & I3 & I4).
    unfold final_engine, submitted_tasks in *.
    cbn [map fold_right length]. rewrite last_cons.
    split; [now rewrite I0|]. rewrite I1. repeat split; lia.
Qed.

Lemma session_counters_accumulate_witness :
  files_processed
    (stats (final_engine (main [demo_world; bare_world; demo_world] empty_dir)
                         init))
  = 6.
Proof.
  destruct (session_counters_accumulate [demo_world; bare_world; demo_world]
              init empty_dir)
    as (_ & H & _).
  - repeat constructor; intros os; apply Permutation_rev.
  - unfold main. rewrite H. vm_compute. reflexivity.
Defined.

(** ** From the session to the report *)

(** X18. In a session started by [main] the error counter never exceeds
    the counter of processed files, no counter is negative, and the
    counter of processed files is the number of scan tasks submitted so
    far. *)
Theorem main_errors_within_processed :
  forall (iterations : list World) (rd : ResultsDir),
    Forall fair iterations ->
    let e := final_engine (main iterations rd) init in
    0 <= errors (stats e) <= files_processed (stats e)
    /\ 0 <= matches_found (stats e)
    /\ files_processed (stats e) = submitted_tasks (main iterations rd).
Proof.
  intros iterations rd H e. subst e. unfold main.
  destruct (main_loop_counters iterations init rd H)
    as (_ & H1 & H2 & H3 & H4).
  cbn [init stats files_processed matches_found errors] in *. lia.
Qed.

Lemma main_errors_within_processed_witness :
  errors (stats (final_engine (main [demo_world; demo_world] empty_dir) init))
  <= files_processed
       (stats (final_engine (main [demo_world; demo_world] empty_dir) init)).
Proof.
  destruct (main_errors_within_processed [demo_world; demo_world] empty_dir)
    as ((_ & H) & _).
  - repeat constructor; intros os; apply Permutation_rev.
  - exact H.
Defined.

(** A record of a run carries the path of its target and shows the
    query. *)
Lemma run_record_quotes (fs : FileSystem) (self : Engine) (f : FileInfo)
  (q : str) (m : MatchRecord) :
  query self = Some q ->
  q <> [] -> starts_clean q -> starts_clean (rev q) ->
  In m (outcome_matches (snd (search_file fs self f))) ->
  file m = path f /\ exists l t, context m = l ++ q ++ t.
Proof.
  intros Hq Hne Hc Hc' Hm.
  destruct (Utf8.encode q) as [e|qb] eqn:He.
  { rewrite failed_outcome in Hm; [destruct Hm|].
    eapply scan_fails_unencodable; eauto. }
  destruct (fs (path f)) as [msg|mm] eqn:Hf.
  { unfold search_file, search_file_try in Hm. rewrite Hf in Hm.
    destruct Hm. }
  split.
  - destruct (search_file_matches fs self f q qb mm m Hq He Hf Hm)
      as (s & _ & ->). reflexivity.
  - eapply search_file_context_core; eauto.
Qed.

Lemma truthy_not_nil (s : str) : truthy s = true -> s <> [].
Proof. destruct s; [discriminate | discriminate]. Qed.

(** X19. Every entry of the report that a run writes names a file that
    the run scanned and quotes the stripped query in its context. *)
Theorem report_entries_quote_query :
  forall (w : World) (self : Engine) (rd : ResultsDir) (folder : str),
    fair w ->
    run_files w self folder <> [] ->
    truthy (strip (query_line w)) = true ->
    let q := strip (query_line w) in
    let os := outcomes (fs w) (run_engine w self folder)
                       (run_files w self folder) in
    let r := run_search w self rd folder in
    sum_matches os <> 0 ->
    open_ok w (result_file q) = true ->
    exists rep,
      r_dir r (result_file q) = Some rep
      /\ Forall (fun m => In (file m) (r_submitted r)
                          /\ exists l t, context m = l ++ q ++ t)
                (report_entries rep).
Proof.
  intros w self rd folder Hfair Hne Hq q os r Hsum Hok.
  subst r. rewrite (run_search_complete w self rd folder Hne Hq).
  cbn [r_dir r_submitted].
  destruct (run_loop_state w self folder Hfair) as (Sq & Sm & _ & Sl).
  fold os in Sm, Sl.
  set (st := aggregate _ _) in *.
  destruct (l_all_matches st) as [|m ms] eqn:E.
  { exfalso. apply Hsum. rewrite <- Sl. reflexivity. }
  destruct (save_results_written (sink w) (l_self st) q m ms rd Sq Hok)
    as [Hw _].
  eexists. split; [exact Hw|].
  destruct (written_entries (sink_fault (sink w) (result_file q)) q (m :: ms))
    as [j ->].
  apply Forall_forall. intros m' Hm'. apply in_firstn in Hm'.
  apply (Permutation_in _ Sm) in Hm'.
  apply in_concat in Hm' as (ms0 & Hms0 & Hin).
  apply in_map_iff in Hms0 as (o & <- & Ho).
  unfold os, outcomes in Ho. apply in_map_iff in Ho as (f & <- & Hf).
  destruct (strip_clean (query_line w)) as [Hc Hc'].
  destruct (run_record_quotes (fs w) (run_engine w self folder) f q m'
              (run_engine_query w self folder) (truthy_not_nil _ Hq)
              Hc Hc' Hin) as [Hfile Hctx].
  split; [|exact Hctx].
  rewrite Hfile. now apply in_map.
Qed.

Lemma report_entries_quote_query_witness :
  exists rep,
    r_dir (run_search demo_world init empty_dir (of_string "db"))
          (of_string "results_foo.txt") = Some rep
    /\ Forall (fun m => exists l t, context m = l ++ of_string "foo" ++ t)
              (report_entries rep).
Proof.
  destruct (report_entries_quote_query demo_world init empty_dir
              (of_string "db") (demo_world_fair _) ltac:(discriminate) eq_refl
              ltac:(discriminate) eq_refl)
    as (rep & H1 & H2).
  exists rep. split; [exact H1|].
  eapply Forall_impl; [|exact H2]. intros m [_ H]. exact H.
Defined.

Lemma run_search_query (w : World) (self : Engine) (rd : ResultsDir)
  (folder : str) :
  query (r_self (run_search w self rd folder))
  = match catalog (walk w folder) with
    | [] => query self
    | _ :: _ => Some (strip (query_line w))
    end.
Proof.
  unfold run_search. rewrite get_folder_stats_catalog.
  destruct (catalog (walk w folder)) as [|f files]; [reflexivity|].
  destruct (truthy (strip (query_line w))); cbn [negb]; [|reflexivity].
  set (self0 := set_query _ _).
  destruct (submit_all_spec (fs w) (f :: files) self0) as (_ & S2 & _).
  destruct (submit_all (fs w) self0 (f :: files)) as [self2 futures].
  cbn [r_self fst] in *. unfold aggregate.
  destruct (fold_accept_spec (as_completed w futures)
              {| l_self := self2; l_all_matches := []; l_warnings := [] |})
    as (_ & _ & _ & _ & A5 & _).
  cbn [l_self] in A5. rewrite A5, S2. reflexivity.
Qed.

Lemma run_search_keeps_stripped (w : World) (self : Engine) (rd : ResultsDir)
  (folder : str) :
  query_stripped self -> query_stripped (r_self (run_search w self rd folder)).
Proof.
  intros H. unfold query_stripped. rewrite run_search_query.
  destruct (catalog (walk w folder)); [exact H|]. apply strip_clean.
Qed.

(** X20. The query stored in the engine is always stripped: in a
    session started by [main], after every iteration the stored query is
    unset or has no whitespace at its ends; a run that finds no target
    keeps the query of the run before, every other run stores the
    stripped line it read, also when it rejects it as empty. *)
Theorem stored_query_is_stripped :
  forall (iterations : list World) (rd : ResultsDir),
    Forall (fun r => query_stripped (r_self r)) (main iterations rd)
    /\ forall (w : World) (self : Engine) (rd' : ResultsDir) (folder : str),
         query (r_self (run_search w self rd' folder))
         = match catalog (walk w folder) with
           | [] => query self
           | _ :: _ => Some (strip (query_line w))
           end.
Proof.
  intros iterations rd. split; [|apply run_search_query].
  unfold main.
  assert (H : query_stripped init) by exact I.
  revert H. generalize init. revert rd.
  induction iterations as [|w its IH]; intros rd e He; cbn [main_loop].
  - constructor.
  - constructor.
    + now apply run_search_keeps_stripped.
    + apply IH. now apply run_search_keeps_stripped.
Qed.

(** ** Scenarios at the edges *)

Example surrogate_run_is_one_error :
  str_exn (UnicodeEncodeError 0xDC80 0 (error_end [0xDC80; 0xDC81; 97] 0))
  = of_string "'utf-8' codec can't encode characters in position 0-1: surrogates not allowed"
  /\ str_exn (UnicodeEncodeError 0xDC80 1 (error_end [97; 0xDC80; 98] 1))
     = of_string "'utf-8' codec can't encode character '\udc80' in position 1: surrogates not allowed".
Proof. split; vm_compute; reflexivity. Qed.

Example unreadable_size_is_warned :
  r_access_warnings (run_search surrogate_world init empty_dir (of_string "db"))
  = [access_warning
       {| entry_name := of_string "d.txt"; entry_path := of_string "d.txt";
          entry_size := None;
          entry_error := of_string "[Errno 13] Permission denied: 'd.txt'" |}]
  /\ r_submitted (run_search surrogate_world init empty_dir (of_string "db"))
     = [of_string "a.txt"; 0xDC80 :: of_string ".txt"].
Proof. split; vm_compute; reflexivity. Qed.

(** With a path that cannot be encoded among the matches, the report
    stops where that path comes, so the order of completion shows in the
    file. *)
Example completion_order_shows_in_a_cut_report :
  option_map report_entries
    (r_dir (run_search (with_completion surrogate_world (fun os => os))
                       init empty_dir (of_string "db"))
           (of_string "results_foo.txt"))
  = Some [ {| file := of_string "a.txt"; context := of_string "foo";
              position := 0 |} ]
  /\ option_map report_entries
       (r_dir (run_search (with_completion surrogate_world (@rev Outcome))
                          init empty_dir (of_string "db"))
              (of_string "results_foo.txt"))
     = Some [].
Proof. split; vm_compute; reflexivity. Qed.
